(** * List-of-lists storage of NMatrix: [ext/nmatrix/storage/list.cpp]

    A shallow embedding of the list storage accessors, of the sparse
    equality test, of the copy constructor and of the dense-to-list
    conversion, together with the properties the natural-language
    specification states about them.

    Conventions of the embedding.
    - A [size_t] key, extent or coordinate is an [N]; the rank, which only
      drives the descent loops, is a [nat].
    - The [void*] held by a node is a tagged value: a scalar of the
      storage's dtype or a nested list.  Reading one as the other has no
      defined behaviour in the source and is the outcome [Undefined] here.
    - A [LIST] is the sequence of its nodes, [first] being the head; a node
      is the pair of its [key] and its [val].
    - A [LIST*] that points into a storage is the path of keys that leads to
      that list from [s->rows]; a [NODE*] is the list that holds the node
      together with the node's key.  Keys are unique within a list, so a
      path names exactly one list.
    - The accessors run in a state monad over the storage; besides a
      result a call may end in a raised Ruby exception or in a step without
      defined behaviour.
    - Blocks are told apart by their origin ([ALLOC] or [ALLOCA_N]) where
      the source frees them, and by their address where the copy is
      compared with its source. *)

From stdpp Require Import base option list.
From Stdlib Require Import NArith ZArith Lia.

Set Warnings "-register-all".
Local Open Scope N_scope.

(** ** Outcomes of a call: a result, a raised exception, an undefined step *)

Inductive rb_exception : Type := rb_eNotImpError.

Inductive outcome (A : Type) : Type :=
| Done (a : A)
| Raised (e : rb_exception)
| Undefined.
Arguments Done {A} a.
Arguments Raised {A} e.
Arguments Undefined {A}.

(** Where a block comes from.  [ALLOC] and [ALLOC_N] take it from the heap;
    Ruby's [ALLOCA_N] is [alloca]: the block belongs to the stack frame of
    the calling function and is released on return. *)
Inductive allocation : Type := by_ALLOC | by_ALLOCA_N.

(** An array with the way it was obtained. *)
Record array (A : Type) : Type := mkArray {
  origin : allocation;
  cells : list A
}.
Arguments mkArray {A} origin cells.
Arguments origin {A} a.
Arguments cells {A} a.

(** [ALLOCA_N(type, n)]: [n] cells of the stack frame, not yet assigned. *)
Definition ALLOCA_N {A} (n : nat) : array (option A) :=
  mkArray by_ALLOCA_N (replicate n None).

(** [a[i] = x] *)
Definition array_set {A} (a : array A) (i : nat) (x : A) : array A :=
  mkArray (origin a) (<[i := x]> (cells a)).

(** A [LIST*] and a [NODE*] that point into a storage (see the
    conventions above). *)
Abbreviation LISTp := (list N).
Abbreviation NODEp := (list N * N)%type.

(** ** Values, nodes and lists *)

Section Storage.

Context {dtype_t : Type}.
Context {scalar : Type}.

(** [ElemEqEq[dtype][0]], the external dtype-indexed equality of two scalars
    (called with count 1 and [DTYPE_SIZES[dtype]]). *)
Variable ElemEqEq : dtype_t -> scalar -> scalar -> bool.

Inductive VAL : Type :=
| VScalar (x : scalar)
| VList (l : list (N * VAL)).

Definition NODE : Type := N * VAL.
Definition LIST : Type := list NODE.

Definition key (n : NODE) : N := fst n.
Definition val (n : NODE) : VAL := snd n.

Record LIST_STORAGE : Type := mkLIST_STORAGE {
  dtype : dtype_t;
  rank : nat;
  shape : list N;
  rows : LIST;
  default_val : scalar
}.

Record SLICE : Type := mkSLICE { coords : list N }.

Definition set_rows (s : LIST_STORAGE) (l : LIST) : LIST_STORAGE :=
  {| dtype := dtype s; rank := rank s; shape := shape s; rows := l;
     default_val := default_val s |}.

(** ** The list primitive ([util/sl_list]) on node sequences *)

(** Modelled from the spec: [list_create], which [util/sl_list] defines:
    "returns an empty list". *)
Definition list_create : LIST := [].

(** Modelled from the spec: the search of [list_find]: "returns the node
    with matching key, else not found". *)
Fixpoint nodes_find (l : LIST) (k : N) : option NODE :=
  match l with
  | [] => None
  | n :: rest => if key n =? k then Some n else nodes_find rest k
  end.

(** Modelled from the spec: the linking done by [list_insert]: "inserts
    preserving ascending order"; find-or-create ([replace = false]) "returns
    the existing node if the key is already present, otherwise links a new
    node holding value"; overwrite ([replace = true]) "always installs value
    at key, replacing any prior value owned there". *)
Fixpoint nodes_insert (l : LIST) (replace : bool) (k : N) (v : VAL) : LIST :=
  match l with
  | [] => [(k, v)]
  | n :: rest =>
      if k <? key n then (k, v) :: l
      else if k =? key n then (if replace then (k, v) :: rest else l)
      else n :: nodes_insert rest replace k v
  end.

(** Modelled from the spec: the unlinking done by [list_remove]: "detaches
    and returns the owned value at key if present, else returns not found;
    does not recurse into nested structure". *)
Fixpoint nodes_remove (l : LIST) (k : N) : option VAL * LIST :=
  match l with
  | [] => (None, [])
  | n :: rest =>
      if key n =? k then (Some (val n), rest)
      else let '(rm, rest') := nodes_remove rest k in (rm, n :: rest')
  end.

(** Modelled from the spec: [list_insert_after]: "links a new node
    immediately following prev_node".  [prev] is named by its key; a [prev]
    that is not a node of the list gives [None]. *)
Fixpoint nodes_insert_after (l : LIST) (prev : N) (k : N) (v : VAL) : option LIST :=
  match l with
  | [] => None
  | n :: rest =>
      if key n =? prev then Some (n :: (k, v) :: rest)
      else cons n <$> nodes_insert_after rest prev k v
  end.

(** ** Pointers into a storage *)


(** The list a path points to. *)
Fixpoint deref (root : LIST) (p : LISTp) : option LIST :=
  match p with
  | [] => Some root
  | k :: p' =>
      match nodes_find root k with
      | Some (_, VList sub) => deref sub p'
      | _ => None
      end
  end.

Fixpoint alter_node (k : N) (f : VAL -> VAL) (l : LIST) : LIST :=
  match l with
  | [] => []
  | n :: rest =>
      if key n =? k then (key n, f (val n)) :: rest
      else n :: alter_node k f rest
  end.

(** Writing through a path: the list it points to becomes [new], every
    other node stays where it is. *)
Fixpoint assign (root : LIST) (p : LISTp) (new : LIST) : LIST :=
  match p with
  | [] => new
  | k :: p' =>
      alter_node k (fun v => match v with
                             | VList sub => VList (assign sub p' new)
                             | VScalar _ => v
                             end) root
  end.

(** ** Effects: the storage is the state of every accessor *)

Definition M (A : Type) : Type := LIST_STORAGE -> outcome A * LIST_STORAGE.

Definition ret {A} (a : A) : M A := fun s => (Done a, s).

Definition bind {A B} (m : M A) (k : A -> M B) : M B :=
  fun s =>
    match m s with
    | (Done a, s') => k a s'
    | (Raised e, s') => (Raised e, s')
    | (Undefined, s') => (Undefined, s')
    end.

Definition rb_raise {A} (e : rb_exception) : M A := fun s => (Raised e, s).
Definition undefined {A} : M A := fun s => (Undefined, s).
Definition gets {A} (f : LIST_STORAGE -> A) : M A := fun s => (Done (f s), s).

Definition from_option {A} (o : option A) : M A :=
  match o with
  | Some a => ret a
  | None => undefined
  end.

Notation "'do' x <- m ; k" := (bind m (fun x => k))
  (at level 10, x binder, m at level 100, k at level 200).
Notation "m ;; k" := (bind m (fun _ => k))
  (at level 100, k at level 200, right associativity).

(** [free(p)] for a block, or the null pointer, of the given origin: only
    what the heap gave may go back to it; for a block of the stack frame
    the call has no defined behaviour. *)
Definition free (from : allocation) : M unit :=
  match from with
  | by_ALLOC => ret tt
  | by_ALLOCA_N => undefined
  end.

(** [l] read through the storage. *)
Definition load (l : LISTp) : M LIST :=
  do root <- gets rows; from_option (deref root l).

Definition store (l : LISTp) (new : LIST) : M unit :=
  fun s => (Done tt, set_rows s (assign (rows s) l new)).

(** [(LIST* )(n->val)] *)
Definition val_list (n : NODEp) : LISTp := fst n ++ [snd n].

(** [n->val] *)
Definition node_val (n : NODEp) : M VAL :=
  do l <- load (fst n);
  from_option (val <$> nodes_find l (snd n)).

(** [l->first == NULL] *)
Definition first_is_null (l : LISTp) : M bool :=
  do x <- load l; ret (match x with [] => true | _ => false end).

(** Modelled from the spec: [list_find(list, key)] of [util/sl_list]:
    "returns the node with matching key, else not found; never mutates".
    [None] is the null pointer. *)
Definition list_find (l : LISTp) (k : N) : M (option NODEp) :=
  do x <- load l;
  ret (match nodes_find x k with
       | Some _ => Some (l, k)
       | None => None
       end).

(** Modelled from the spec: [list_insert(list, replace, key, val)] of
    [util/sl_list]: inserts in ascending order, in find-or-create or in
    overwrite mode, and "returns the resulting node". *)
Definition list_insert (l : LISTp) (replace : bool) (k : N) (v : VAL) : M NODEp :=
  do x <- load l;
  store l (nodes_insert x replace k v);;
  ret (l, k).

(** Modelled from the spec: [list_remove(list, key)] of [util/sl_list]:
    "detaches and returns the owned value at key if present, else returns
    not found". *)
Definition list_remove (l : LISTp) (k : N) : M (option VAL) :=
  do x <- load l;
  let '(rm, x') := nodes_remove x k in
  store l x';;
  ret rm.

(** [slice->coords[i]] *)
Definition coord (slice : SLICE) (i : nat) : M N :=
  from_option (coords slice !! i).

(** ** Accessors *)

(** [list_storage_create]: the storage takes [shape] and [init_val] as
    they are and starts with an empty root list. *)
Definition list_storage_create (dt : dtype_t) (shp : list N) (rk : nat)
    (init_val : scalar) : LIST_STORAGE :=
  {| dtype := dt; rank := rk; shape := shp; rows := list_create;
     default_val := init_val |}.

(** [list_storage_get]: slicing is not supported. *)
Definition list_storage_get (slice : SLICE) : M VAL :=
  rb_raise rb_eNotImpError.

(** [list_storage_ref], from the state of its loop: [r] counts down from
    [s->rank] and [l] is the list reached so far. *)
Fixpoint list_storage_ref_from (slice : SLICE) (r : nat) (l : LISTp) : M VAL :=
  match r with
  | S (S _ as r') =>
      do rk <- gets rank;
      do k <- coord slice (rk - r);
      do n <- list_find l k;
      match n with
      | Some n => list_storage_ref_from slice r' (val_list n)
      | None => do d <- gets default_val; ret (VScalar d)
      end
  | _ =>
      do rk <- gets rank;
      do k <- coord slice (rk - r);
      do n <- list_find l k;
      match n with
      | Some n => node_val n
      | None => do d <- gets default_val; ret (VScalar d)
      end
  end%nat.

Definition list_storage_ref (slice : SLICE) : M VAL :=
  do rk <- gets rank; list_storage_ref_from slice rk [].

(** [list_storage_insert], from the state of its loop. *)
Fixpoint list_storage_insert_from (slice : SLICE) (v : VAL) (r : nat) (l : LISTp) : M VAL :=
  match r with
  | S (S _ as r') =>
      do rk <- gets rank;
      do k <- coord slice (rk - r);
      do n <- list_insert l false k (VList list_create);
      list_storage_insert_from slice v r' (val_list n)
  | _ =>
      do rk <- gets rank;
      do k <- coord slice (rk - r);
      do n <- list_insert l true k v;
      node_val n
  end%nat.

Definition list_storage_insert (slice : SLICE) (v : VAL) : M VAL :=
  do rk <- gets rank; list_storage_insert_from slice v rk [].

(** The loop of [list_storage_remove] that walks back up the stack, [n]
    being [r + 1]: it stops at the first level whose list is not empty.
    What [list_remove] returns, a value taken out of the list or the null
    pointer, is freed. *)
Fixpoint list_storage_remove_prune (slice : SLICE) (stack : array (option NODEp))
    (n : nat) : M unit :=
  match n with
  | O => ret tt
  | S r =>
      do nd <- from_option (mjoin (cells stack !! r));
      do empty <- first_is_null (val_list nd);
      if empty then
        do k <- coord slice r;
        list_remove (val_list nd) k;;
        free by_ALLOC;;
        list_storage_remove_prune slice stack r
      else ret tt
  end.

(** [list_storage_remove], from the state of its first loop.  Where a row
    is not found the source runs [free(stack); return NULL;].  The result
    [None] is the null pointer. *)
Fixpoint list_storage_remove_from (slice : SLICE) (stack : array (option NODEp))
    (r : nat) (l : LISTp) : M (option VAL) :=
  match r with
  | S (S _ as r') =>
      do rk <- gets rank;
      do k <- coord slice (rk - r);
      do n <- list_find l k;
      match n with
      | None => free (origin stack);; ret None
      | Some n =>
          list_storage_remove_from slice (array_set stack (rk - r) (Some n)) r'
            (val_list n)
      end
  | _ =>
      do rk <- gets rank;
      do k <- coord slice (rk - r);
      do rm <- list_remove l k;
      match rm with
      | Some _ => list_storage_remove_prune slice stack (rk - 1)
      | None => ret tt
      end;;
      ret rm
  end%nat.

Definition list_storage_remove (slice : SLICE) : M (option VAL) :=
  do rk <- gets rank;
  list_storage_remove_from slice (ALLOCA_N (rk - 1)) rk [].

(** ** Equality *)

(** The product of the extents, as a number. *)
Definition shape_product (rk : nat) (shp : list N) : N :=
  foldr N.mul 1 (take rk shp).

(** [size_t] multiplication, on 64 bits. *)
Definition size_t_mul (a b : N) : N := (a * b) mod 2 ^ 64.

(** Modelled from the spec: [storage_count_max_elements], declared outside
    this file: "max_elements = product of shape extents".  The product is
    a [size_t], which is what [list_storage_eqeq] holds it in: it wraps at
    [2 ^ 64]. *)
Definition storage_count_max_elements (rk : nat) (shp : list N) : N :=
  foldr size_t_mul 1 (take rk shp).

(** Modelled from the spec: [list_eqeq_value] of [util/sl_list]: "every
    value reachable in [l] must equal [v]", with the number of values
    visited added to [checked]; the first mismatch ends the walk. *)
Fixpoint list_eqeq_value (dt : dtype_t) (recursions : nat) (v : scalar)
    : LIST -> N -> option (bool * N) :=
  fix walk (l : LIST) (checked : N) : option (bool * N) :=
    match l with
    | [] => Some (true, checked)
    | n :: rest =>
        match recursions, val n with
        | O, VScalar x =>
            if ElemEqEq dt x v then walk rest (checked + 1)
            else Some (false, checked + 1)
        | S r', VList sub =>
            match list_eqeq_value dt r' v sub checked with
            | Some (true, c) => walk rest c
            | other => other
            end
        | _, _ => None
        end
    end.

(** One node of one side against the other side's default scalar. *)
Definition node_eqeq_value (dt : dtype_t) (recursions : nat) (n : NODE)
    (v : scalar) (checked : N) : option (bool * N) :=
  match recursions, val n with
  | O, VScalar x => Some (ElemEqEq dt x v, checked + 1)
  | S r', VList sub => list_eqeq_value dt r' v sub checked
  | _, _ => None
  end.

(** Modelled from the spec: [list_eqeq_list] of [util/sl_list]: "walk both
    lists in ascending-key lock-step at every nesting level simultaneously:
    a key present on only one side is compared against the other side's
    default scalar; a key present on both sides is compared directly
    (recursing into nested lists, or comparing scalars at the leaf level);
    any mismatch short-circuits to false". *)
Fixpoint list_eqeq_list (dt : dtype_t) (recursions : nat)
    (left_val right_val : scalar) : LIST -> LIST -> N -> option (bool * N) :=
  fix walk_left (left : LIST) : LIST -> N -> option (bool * N) :=
    fix walk_right (right : LIST) (checked : N) : option (bool * N) :=
      match left, right with
      | [], [] => Some (true, checked)
      | ln :: lnext, [] =>
          match node_eqeq_value dt recursions ln right_val checked with
          | Some (true, c) => walk_left lnext [] c
          | other => other
          end
      | [], rn :: rnext =>
          match node_eqeq_value dt recursions rn left_val checked with
          | Some (true, c) => walk_right rnext c
          | other => other
          end
      | ln :: lnext, rn :: rnext =>
          if key ln =? key rn then
            match
              match recursions, val ln, val rn with
              | O, VScalar x, VScalar y => Some (ElemEqEq dt x y, checked + 1)
              | S r', VList lsub, VList rsub =>
                  list_eqeq_list dt r' left_val right_val lsub rsub checked
              | _, _, _ => None
              end
            with
            | Some (true, c) => walk_left lnext rnext c
            | other => other
            end
          else if key ln <? key rn then
            match node_eqeq_value dt recursions ln right_val checked with
            | Some (true, c) => walk_left lnext right c
            | other => other
            end
          else
            match node_eqeq_value dt recursions rn left_val checked with
            | Some (true, c) => walk_right rnext c
            | other => other
            end
      end.

(** [list_storage_eqeq]; [None] when a node is read at the wrong type.
    [num_checked] counts nodes held in memory and cannot wrap;
    [max_elements] is the [size_t] the helper returns. *)
Definition list_storage_eqeq (left right : LIST_STORAGE) : option bool :=
  let num_checked := 0 in
  let max_elements := storage_count_max_elements (rank left) (shape left) in
  let eqeq := ElemEqEq (dtype left) in
  match rows left with
  | [] =>
      match rows right with
      | [] => Some (eqeq (default_val left) (default_val right))
      | _ :: _ =>
          match list_eqeq_value (dtype left) (rank left - 1) (default_val left)
                  (rows right) num_checked with
          | None => None
          | Some (false, _) => Some false
          | Some (true, num_checked) =>
              if num_checked <? max_elements
              then Some (eqeq (default_val left) (default_val right))
              else Some true
          end
      end
  | _ :: _ =>
      match rows right with
      | [] =>
          match list_eqeq_value (dtype left) (rank left - 1) (default_val right)
                  (rows left) num_checked with
          | None => None
          | Some (false, _) => Some false
          | Some (true, num_checked) =>
              if num_checked <? max_elements
              then Some (eqeq (default_val left) (default_val right))
              else Some true
          end
      | _ :: _ =>
          match list_eqeq_list (dtype left) (rank left - 1) (default_val left)
                  (default_val right) (rows left) (rows right) num_checked with
          | None => None
          | Some (false, _) => Some false
          | Some (true, num_checked) =>
              if num_checked <? max_elements
              then Some (eqeq (default_val left) (default_val right))
              else Some true
          end
      end
  end.

(** ** Counting *)

(** The inner loop of [count_list_storage_nd_elements] over one row. *)
Fixpoint count_nd_row (i_key : N) (j_curr : LIST) (count : N) : N :=
  match j_curr with
  | [] => count
  | j :: next =>
      count_nd_row i_key next (if i_key =? key j then count else count + 1)
  end.

(** Its outer loop; every [i_curr->val] is read as a list. *)
Fixpoint count_nd_rows (i_curr : LIST) (count : N) : option N :=
  match i_curr with
  | [] => Some count
  | i :: next =>
      match val i with
      | VList js => count_nd_rows next (count_nd_row (key i) js count)
      | VScalar _ => None
      end
  end.

(** [count_list_storage_nd_elements].  The counter cannot wrap: it is
    bounded by the number of nodes held in memory. *)
Definition count_list_storage_nd_elements : M N :=
  do rk <- gets rank;
  (if bool_decide (rk <> 2%nat) then rb_raise rb_eNotImpError else ret tt);;
  do first <- gets rows;
  from_option (count_nd_rows first 0).

(** ** Dense to list conversion *)

(** The value of a pointer: the address it holds. *)
Definition addr : Type := N.

Section Dense.

Context {RDType : Type}.

(** [operator!=] as the source applies it, to an element of the dense
    array and a pointer to an element ([rhs[pos] != zero] with
    [zero : RDType*]), and [static_cast<LDType>] into the element type of
    the list. *)
Variable RD_neq : RDType -> addr -> bool.
Variable static_cast : RDType -> scalar.

(** [size_t] arithmetic on [pos], on 64 bits. *)
Definition size_t_incr (n : N) : N := (n + 1) mod 2 ^ 64.
Definition size_t_decr (n : N) : N := (n + (2 ^ 64 - 1)) mod 2 ^ 64.

(** The variables of one activation: the list being filled, [prev] (the
    key of the node it points to, [None] before the first assignment),
    [added], and the two objects shared with the callers, [pos] and
    [coords]. *)
Record dense_frame : Type := mkFrame {
  f_lhs : LIST;
  f_prev : option N;
  f_added : bool;
  f_pos : N;
  f_coords : list N
}.

(** [if (!lhs->first) prev = list_insert(lhs, false, key, v);
     else prev = list_insert_after(prev, key, v);] *)
Definition dense_link (fr : dense_frame) (k : N) (v : VAL) : option dense_frame :=
  match f_lhs fr with
  | [] =>
      Some (mkFrame (nodes_insert [] false k v) (Some k) (f_added fr)
              (f_pos fr) (f_coords fr))
  | _ :: _ =>
      p ← f_prev fr;
      l ← nodes_insert_after (f_lhs fr) p k v;
      Some (mkFrame l (Some k) (f_added fr) (f_pos fr) (f_coords fr))
  end.

(** The [for] loop: [todo] iterations are left, each followed by
    [++coords[i], ++pos]. *)
Fixpoint dense_for (i : nat) (body : dense_frame -> option dense_frame)
    (todo : nat) (fr : dense_frame) : option dense_frame :=
  match todo with
  | O => Some fr
  | S todo' =>
      fr1 ← body fr;
      c ← f_coords fr1 !! i;
      dense_for i body todo'
        (mkFrame (f_lhs fr1) (f_prev fr1) (f_added fr1)
           (size_t_incr (f_pos fr1)) (<[i := c + 1]> (f_coords fr1)))
  end.

(** [list_storage_cast_copy_contents_dense_template]: the result is the
    returned [added] with [lhs], [pos] and [coords] as the call leaves
    them.  [zero] is the pointer the caller passed: [rhs[pos] != zero]
    compares the element with the pointer, never with the value behind it.
    The loop at level [i = rank-1-recursions] runs [shape[i]] times: its counter
    [coords[i]] starts at 0 and the deeper levels write other entries only.
    [None]: an index outside [rhs], [shape] or [coords], or [prev] read
    before it was assigned. *)
Fixpoint list_storage_cast_copy_contents_dense_template
    (rhs : list RDType) (zero : addr) (shp : list N) (rk : nat)
    (recursions : nat) (lhs : LIST) (pos : N) (crd : list N)
    : option (bool * LIST * N * list N) :=
  let i := (rk - 1 - recursions)%nat in
  if bool_decide (rk <= recursions)%nat then None else
  extent ← shp !! i;
  _ ← crd !! i;
  let body (fr : dense_frame) : option dense_frame :=
    k ← f_coords fr !! i;
    match recursions with
    | O =>
        x ← rhs !! N.to_nat (f_pos fr);
        if RD_neq x zero then
          fr1 ← dense_link fr k (VScalar (static_cast x));
          Some (mkFrame (f_lhs fr1) (f_prev fr1) true (f_pos fr1) (f_coords fr1))
        else Some fr
    | S recursions' =>
        let sub_list := list_create in
        '(added_list, sub_list, pos1, crd1) ←
          list_storage_cast_copy_contents_dense_template rhs zero shp rk
            recursions' sub_list (f_pos fr) (f_coords fr);
        let fr1 := mkFrame (f_lhs fr) (f_prev fr) (f_added fr) pos1 crd1 in
        if negb added_list then Some fr1
        else dense_link fr1 k (VList sub_list)
    end in
  fr ← dense_for i body (N.to_nat extent)
          (mkFrame lhs None false pos (<[i := 0]> crd));
  Some (f_added fr, f_lhs fr, size_t_decr (f_pos fr), <[i := 0]> (f_coords fr)).

(** The two loop bodies of the template, as it has them at
    [recursions = 0] and at [recursions = 1]. *)
Definition dense_leaf_step (rhs : list RDType) (zero : addr) (i : nat)
    (fr : dense_frame) : option dense_frame :=
  k ← f_coords fr !! i;
  x ← rhs !! N.to_nat (f_pos fr);
  if RD_neq x zero then
    fr1 ← dense_link fr k (VScalar (static_cast x));
    Some (mkFrame (f_lhs fr1) (f_prev fr1) true (f_pos fr1) (f_coords fr1))
  else Some fr.

Definition dense_list_step (rhs : list RDType) (zero : addr) (shp : list N)
    (rk : nat) (i : nat) (fr : dense_frame) : option dense_frame :=
  k ← f_coords fr !! i;
  let sub_list := list_create in
  '(added_list, sub_list, pos1, crd1) ←
    list_storage_cast_copy_contents_dense_template rhs zero shp rk
      0 sub_list (f_pos fr) (f_coords fr);
  let fr1 := mkFrame (f_lhs fr) (f_prev fr) (f_added fr) pos1 crd1 in
  if negb added_list then Some fr1
  else dense_link fr1 k (VList sub_list).

(** What the conversion is expected to build.  [dense_row]: the nodes for
    the [todo] elements of [rhs] from [pos] on, keyed from [j] on, one for
    every element that [operator!=] tells from the pointer [zero];
    [dense_rows]: one node for every
    run of [n] elements that gives a node, keyed from [r] on. *)
Fixpoint dense_row (rhs : list RDType) (zero : addr) (pos j : N) (todo : nat)
    : LIST :=
  match todo with
  | O => []
  | S todo' =>
      match rhs !! N.to_nat pos with
      | Some x =>
          if RD_neq x zero
          then (j, VScalar (static_cast x)) :: dense_row rhs zero (pos + 1) (j + 1) todo'
          else dense_row rhs zero (pos + 1) (j + 1) todo'
      | None => dense_row rhs zero (pos + 1) (j + 1) todo'
      end
  end.

Fixpoint dense_rows (rhs : list RDType) (zero : addr) (n : N) (pos r : N)
    (todo : nat) : LIST :=
  match todo with
  | O => []
  | S todo' =>
      let rest := dense_rows rhs zero n (pos + n) (r + 1) todo' in
      match dense_row rhs zero pos 0 (N.to_nat n) with
      | [] => rest
      | row => (r, VList row) :: rest
      end
  end.

End Dense.

(** ** Copying

    Whether two storages share a block is a question about addresses, so
    the copy constructor is embedded over located values: every block
    obtained from [ALLOC] carries its address.  The allocator hands out the
    addresses from [next] upwards; every address below [next] may be in
    use. *)

Inductive LVAL : Type :=
| LScalar (p : addr) (x : scalar)
| LList (p : addr) (first : list (addr * (N * LVAL))).

Definition LNODES : Type := list (addr * (N * LVAL)).

Record LOCATED_STORAGE : Type := mkLOCATED {
  storage_p : addr;
  l_dtype : dtype_t;
  l_rank : nat;
  shape_p : addr;
  l_shape : list N;
  rows_p : addr;
  l_rows : LNODES;
  default_p : addr;
  l_default : scalar
}.

(** Forgetting the addresses. *)
Fixpoint erase_val (v : LVAL) : VAL :=
  match v with
  | LScalar _ x => VScalar x
  | LList _ first => VList (map (fun n => (fst (snd n), erase_val (snd (snd n)))) first)
  end.

Definition erase_nodes (l : LNODES) : LIST :=
  map (fun n => (fst (snd n), erase_val (snd (snd n)))) l.

Definition erase (s : LOCATED_STORAGE) : LIST_STORAGE :=
  {| dtype := l_dtype s; rank := l_rank s; shape := l_shape s;
     rows := erase_nodes (l_rows s); default_val := l_default s |}.

(** The blocks a value is made of: node structs, list structs and scalar
    buffers. *)
Fixpoint val_blocks (v : LVAL) : list addr :=
  match v with
  | LScalar p _ => [p]
  | LList p first => p :: flat_map (fun n => fst n :: val_blocks (snd (snd n))) first
  end.

Definition nodes_blocks (l : LNODES) : list addr :=
  flat_map (fun n => fst n :: val_blocks (snd (snd n))) l.

(** The blocks of a storage: the record, the shape buffer, the default
    buffer, the root list and everything below it. *)
Definition blocks (s : LOCATED_STORAGE) : list addr :=
  storage_p s :: shape_p s :: default_p s :: rows_p s :: nodes_blocks (l_rows s).

Definition alloc (A : Type) : Type := addr -> A * addr.

(** [ALLOC], [ALLOC_N]: a block that is not in use. *)
Definition ALLOC : alloc addr := fun next => (next, next + 1).

(** Modelled from the spec: [list_cast_copy_contents] of [util/sl_list]:
    an "independent deep clone" of the nodes to depth [recursions], "no
    buffer or node is shared with the source", every stored scalar going
    through the conversion of the dtype pair.  A node, its nested list
    struct or its scalar buffer are allocated one after the other. *)
Fixpoint list_cast_copy_contents (convert : scalar -> scalar) (recursions : nat)
    : LNODES -> addr -> option (LNODES * addr) :=
  fix copy_nodes (rhs : LNODES) (next : addr) : option (LNODES * addr) :=
    match rhs with
    | [] => Some ([], next)
    | rcurr :: rnext =>
        let '(lcurr, next) := ALLOC next in
        let '(lval, next) := ALLOC next in
        match recursions, snd (snd rcurr) with
        | O, LScalar _ x =>
            '(lnext, next) ← copy_nodes rnext next;
            Some ((lcurr, (fst (snd rcurr), LScalar lval (convert x))) :: lnext, next)
        | S recursions', LList _ sub =>
            '(lsub, next) ← list_cast_copy_contents convert recursions' sub next;
            '(lnext, next) ← copy_nodes rnext next;
            Some ((lcurr, (fst (snd rcurr), LList lval lsub)) :: lnext, next)
        | _, _ => None
        end
    end.

(** [list_storage_create]: the record and its empty root list are new
    blocks; [shape] and [init_val] are the caller's. *)
Definition located_storage_create (dt : dtype_t) (shape_at : addr)
    (shp : list N) (rk : nat) (init_at : addr) (init_val : scalar)
    : alloc LOCATED_STORAGE :=
  fun next =>
    let '(s, next) := ALLOC next in
    let '(rws, next) := ALLOC next in
    (mkLOCATED s dt rk shape_at shp rws [] init_at init_val, next).


(** ** Well-formed storages *)

(** Keys strictly increasing along the list. *)
Fixpoint ascending (l : LIST) : bool :=
  match l with
  | [] => true
  | n :: rest => forallb (fun m => key n <? key m) rest && ascending rest
  end.

(** A list of nesting depth [d]: ascending at every level, scalars exactly
    at depth [0], nested lists above. *)
Fixpoint well_nested (d : nat) (l : LIST) : bool :=
  ascending l &&
  forallb (fun n => match d, val n with
                    | O, VScalar _ => true
                    | S d', VList sub => well_nested d' sub
                    | _, _ => false
                    end) l.

Definition wf_storage (s : LIST_STORAGE) : bool :=
  (1 <=? rank s)%nat && well_nested (rank s - 1) (rows s).

(** The value stored at a coordinate tuple, when its node chain exists. *)
Inductive node_chain : LIST -> list N -> VAL -> Prop :=
| chain_leaf l k v :
    In (k, v) l -> node_chain l [k] v
| chain_branch l k sub c v :
    In (k, VList sub) l -> node_chain sub c v -> node_chain l (k :: c) v.

(** No empty list below the root of a list of nesting depth [d]. *)
Fixpoint no_empty_branch (d : nat) (l : LIST) : bool :=
  match d with
  | O => true
  | S d' => forallb (fun n => match val n with
                              | VList [] => false
                              | VList sub => no_empty_branch d' sub
                              | VScalar _ => true
                              end) l
  end.

(** The scalars reachable in a list of nesting depth [d], in the order of
    the walk. *)
Fixpoint leaves (d : nat) (x : LIST) : list scalar :=
  flat_map (fun n => match d, val n with
                     | O, VScalar a => [a]
                     | S d', VList sub => leaves d' sub
                     | _, _ => []
                     end) x.

(** The (row key, column key) pairs of the nodes stored in a list of
    lists. *)
Definition stored_pairs (x : LIST) : list (N * N) :=
  flat_map (fun i => match val i with
                     | VList js => map (fun j => (key i, key j)) js
                     | VScalar _ => []
                     end) x.

(** A call that leaves the storage as it found it, whatever its outcome. *)
Definition read_only {A} (m : M A) : Prop := forall s, snd (m s) = s.

Definition node_nested (d : nat) (n : NODE) : Prop :=
  match d with
  | O => exists a, val n = VScalar a
  | S d' => exists sub, val n = VList sub /\ well_nested d' sub = true
  end.

(** [populated_by cs s]: [s] was created with a rank of 1 or more and then
    went through calls of [list_storage_insert] and [list_storage_remove]
    that returned, on tuples of length [rank]; [cs] lists the tuples a
    scalar was inserted at. *)
Inductive populated_by : list (list N) -> LIST_STORAGE -> Prop :=
| populated_create dt shp rk init_val :
    (1 <= rk)%nat ->
    populated_by [] (list_storage_create dt shp rk init_val)
| populated_insert cs s c a r s' :
    populated_by cs s ->
    length c = rank s ->
    list_storage_insert (mkSLICE c) (VScalar a) s = (Done r, s') ->
    populated_by (c :: cs) s'
| populated_remove cs s c r s' :
    populated_by cs s ->
    length c = rank s ->
    list_storage_remove (mkSLICE c) s = (Done r, s') ->
    populated_by cs s'.

(** ** Counting every stored element *)

(** The loop of [list_storage_count_elements_r] at [recursions == 0]: one
    more for every node. *)
Fixpoint count_nodes (curr : LIST) (count : N) : N :=
  match curr with
  | [] => count
  | _ :: next => count_nodes next (count + 1)
  end.

(** [list_storage_count_elements_r]: above the leaves every [curr->val] is
    read as a list and its count is added.  The counter cannot wrap: it is
    bounded by the number of nodes held in memory. *)
Fixpoint list_storage_count_elements_r (l : LIST) (recursions : nat)
    {struct recursions} : option N :=
  match recursions with
  | O => Some (count_nodes l 0)
  | S recursions' =>
      (fix loop (curr : LIST) (count : N) : option N :=
         match curr with
         | [] => Some count
         | n :: next =>
             match val n with
             | VList sub =>
                 c ← list_storage_count_elements_r sub recursions';
                 loop next (count + c)
             | VScalar _ => None
             end
         end) l 0
  end.

(** ** Copying with a change of dtype *)

(** Modelled from the spec: [list_cast_copy_contents_template], which
    [util/sl_list] defines: the deep clone of [list_cast_copy_contents],
    "every stored scalar converted" by [static_cast<LDType>]. *)
Definition list_cast_copy_contents_template (static_cast : scalar -> scalar)
    (rhs : LNODES) (recursions : nat) : addr -> option (LNODES * addr) :=
  list_cast_copy_contents static_cast recursions rhs.

(** [list_storage_cast_copy_template<LDType, RDType>]: new default and
    shape buffers, the default converted by [static_cast<LDType>], a storage
    created at [new_dtype], its root list replaced by a second new list and
    filled by [list_cast_copy_contents_template].  [None] when the shape
    buffer holds fewer than [rank] extents or a node is read at the wrong
    type. *)
Definition list_storage_cast_copy_template (static_cast : scalar -> scalar)
    (rhs : LOCATED_STORAGE) (new_dtype : dtype_t)
    : addr -> option (LOCATED_STORAGE * addr) :=
  fun next =>
    let '(default_val, next) := ALLOC next in
    if bool_decide (length (l_shape rhs) < l_rank rhs)%nat then None else
    let '(shp, next) := ALLOC next in
    let '(lhs, next) :=
      located_storage_create new_dtype shp (take (l_rank rhs) (l_shape rhs))
        (l_rank rhs) default_val (static_cast (l_default rhs)) next in
    let '(rws, next) := ALLOC next in
    '(nodes, next) ←
      list_cast_copy_contents_template static_cast (l_rows rhs) (l_rank rhs - 1) next;
    Some (mkLOCATED (storage_p lhs) (l_dtype lhs) (l_rank lhs) (shape_p lhs)
            (l_shape lhs) rws nodes (default_p lhs) (l_default lhs), next).

(** [list_storage_cast_copy]: the instance of the template that the table
    holds at [[new_dtype][rhs->dtype]]; [static_cast_of l r] is the
    conversion from dtype [r] to dtype [l]. *)
Definition list_storage_cast_copy (static_cast_of : dtype_t -> dtype_t -> scalar -> scalar)
    (rhs : LOCATED_STORAGE) (new_dtype : dtype_t)
    : addr -> option (LOCATED_STORAGE * addr) :=
  list_storage_cast_copy_template (static_cast_of new_dtype (l_dtype rhs)) rhs new_dtype.

(** A value of nesting depth [d], and a list, with every scalar taken
    through [f]. *)
Fixpoint convert_leaves (f : scalar -> scalar) (d : nat) (x : LIST) : LIST :=
  map (fun n => (key n,
                 match d, val n with
                 | O, VScalar a => VScalar (f a)
                 | S d', VList sub => VList (convert_leaves f d' sub)
                 | _, v => v
                 end)) x.

Definition convert_val (f : scalar -> scalar) (d : nat) (v : VAL) : VAL :=
  match d, v with
  | O, VScalar a => VScalar (f a)
  | S d', VList sub => VList (convert_leaves f d' sub)
  | _, v => v
  end.

(** The frame a run of the dense conversion loop may start from: the
    list is ascending with keys below the counter [j], and [prev] is its
    last node. *)
Definition appending (fr : dense_frame) (j : N) : Prop :=
  ascending (f_lhs fr) = true /\
  (forall n, In n (f_lhs fr) -> key n < j) /\
  f_prev fr = key <$> last (f_lhs fr).

(** ** Marking for the garbage collector *)

Section Mark.

Context `{EqDecision dtype_t}.

(** The dtype of Ruby object references. *)
Variable RUBYOBJ : dtype_t.

(** Modelled from the spec: [list_mark], which [util/sl_list] defines:
    "visits every reachable scalar/value recursively to the given depth so
    an external tracing collector can mark live references".  The result is
    the sequence of values handed to [rb_gc_mark]. *)
Definition list_mark (l : LIST) (recursions : nat) : list scalar :=
  leaves recursions l.

(** [list_storage_mark]: nothing for a null storage or a dtype other than
    [RUBYOBJ]; else the default value, then the stored values. *)
Definition list_storage_mark (storage : option LIST_STORAGE) : list scalar :=
  match storage with
  | Some s =>
      if bool_decide (dtype s = RUBYOBJ)
      then default_val s :: list_mark (rows s) (rank s - 1)
      else []
  | None => []
  end.

End Mark.

(** ** The accessors as functions on the nested list

    What a walk along a coordinate tuple reads or leaves behind, by
    recursion on the tuple; the accessors above are shown to compute these. *)

Fixpoint stored (x : LIST) (c : list N) : option VAL :=
  match c with
  | [] => None
  | k :: c' =>
      match nodes_find x k, c' with
      | None, _ => None
      | Some n, [] => Some (val n)
      | Some n, _ :: _ =>
          match val n with
          | VList sub => stored sub c'
          | VScalar _ => None
          end
      end
  end.

Fixpoint tree_insert (c : list N) (v : VAL) (x : LIST) : LIST :=
  match c with
  | [] => x
  | k :: c' =>
      match c' with
      | [] => nodes_insert x true k v
      | _ :: _ =>
          let x1 := nodes_insert x false k (VList list_create) in
          match deref x1 [k] with
          | Some sub => assign x1 [k] (tree_insert c' v sub)
          | None => x1
          end
      end
  end.

Fixpoint tree_remove (c : list N) (x : LIST) : option VAL * LIST :=
  match c with
  | [] => (None, x)
  | k :: c' =>
      match c' with
      | [] => nodes_remove x k
      | _ :: _ =>
          match deref x [k] with
          | Some sub =>
              let '(rm, sub') := tree_remove c' sub in (rm, assign x [k] sub')
          | None => (None, x)
          end
      end
  end.

End Storage.

Arguments VAL : clear implicits.
Arguments LIST : clear implicits.
Arguments NODE : clear implicits.
Arguments LIST_STORAGE : clear implicits.
Arguments M : clear implicits.
Arguments LVAL : clear implicits.
Arguments LNODES : clear implicits.
Arguments LOCATED_STORAGE : clear implicits.
Arguments dense_frame : clear implicits.

(** ** Sample storages

    Integer elements compared with [Z.eqb]; rank 2, shape 3 x 3, default
    0. *)

Definition int_eqeq (_ : unit) (a b : Z) : bool := Z.eqb a b.

Definition storage_3x3 (rws : LIST Z) : LIST_STORAGE unit Z :=
  mkLIST_STORAGE tt 2 [3; 3] rws 0%Z.

Definition none_stored : LIST_STORAGE unit Z := storage_3x3 [].

Definition one_stored : LIST_STORAGE unit Z :=
  storage_3x3 [(0, VList [(0, VScalar 5%Z)])].

Definition two_stored : LIST_STORAGE unit Z :=
  storage_3x3 [(0, VList [(0, VScalar 5%Z)]); (2, VList [(2, VScalar 7%Z)])].

(** Rank 3, shape 2 x 2 x 2, one stored element. *)
Definition cube_stored : LIST_STORAGE unit Z :=
  mkLIST_STORAGE tt 3 [2; 2; 2] [(1, VList [(0, VList [(1, VScalar 4%Z)])])] 0%Z.

(** [two_stored] laid out in the blocks 0 to 11. *)
Definition located_two_stored : LOCATED_STORAGE unit Z :=
  mkLOCATED 0 tt 2 1 [3; 3] 3
    [(4, (0, LList 5 [(6, (0, LScalar 7 5%Z))]));
     (8, (2, LList 9 [(10, (2, LScalar 11 7%Z))]))]
    2 0%Z.

(** Shape 2^32 x 2^32: nothing stored, default 0; and a 0 stored at (0, 0),
    default 1. *)
Definition huge_none : LIST_STORAGE unit Z :=
  mkLIST_STORAGE tt 2 [4294967296; 4294967296] [] 0%Z.

Definition huge_one_stored : LIST_STORAGE unit Z :=
  mkLIST_STORAGE tt 2 [4294967296; 4294967296] [(0, VList [(0, VScalar 0%Z)])] 1%Z.




(** [operator!=] of an integer element and a pointer: the element is
    compared with the address. *)
Definition int_neq (a : Z) (zero : addr) : bool := negb (Z.eqb a (Z.of_N zero)).

(** The address of the caller's zero value. *)
Definition zero_p : addr := 4096.

(** * Properties *)

Section Properties.

Context {dtype_t scalar : Type}.
Variable ElemEqEq : dtype_t -> scalar -> scalar -> bool.

Abbreviation VAL := (VAL scalar).
Abbreviation NODE := (NODE scalar).
Abbreviation LIST := (LIST scalar).
Abbreviation LIST_STORAGE := (LIST_STORAGE dtype_t scalar).
Abbreviation M := (M dtype_t scalar).
Abbreviation LNODES := (LNODES scalar).
Abbreviation LOCATED_STORAGE := (LOCATED_STORAGE dtype_t scalar).

Implicit Types (l x y : LIST) (n : NODE) (v w : VAL) (k : N) (p q c : list N)
  (s : LIST_STORAGE) (d : nat).

(** ** The list primitive *)

Lemma nodes_find_key l k n : nodes_find l k = Some n -> key n = k.
Proof.
  induction l as [|m rest IH]; simpl; [done|].
  destruct (N.eqb_spec (key m) k); [congruence | exact IH].
Qed.

Lemma nodes_find_In l k n : nodes_find l k = Some n -> In n l.
Proof.
  induction l as [|m rest IH]; simpl; [done|].
  destruct (key m =? k); [intros [= ->]; by left | right; auto].
Qed.

Lemma ascending_cons n l :
  ascending (n :: l) = true <->
  (forall m, In m l -> key n < key m) /\ ascending l = true.
Proof.
  simpl. rewrite andb_true_iff, forallb_forall.
  split; intros [H1 H2]; split; try done; intros m Hm; specialize (H1 m Hm);
    [by apply N.ltb_lt | by apply N.ltb_lt].
Qed.

Lemma ascending_find_In l n :
  ascending l = true -> In n l -> nodes_find l (key n) = Some n.
Proof.
  induction l as [|m rest IH]; [done|].
  intros [Hlt Hasc]%ascending_cons [->|Hin]; cbn [nodes_find].
  - by rewrite N.eqb_refl.
  - destruct (N.eqb_spec (key m) (key n)) as [E|_]; [|by apply IH].
    specialize (Hlt n Hin). lia.
Qed.

Lemma ascending_find_below n l k :
  ascending (n :: l) = true -> k < key n -> nodes_find (n :: l) k = None.
Proof.
  intros Hasc Hk.
  destruct (nodes_find (n :: l) k) as [m|] eqn:E; [|done].
  pose proof (nodes_find_key _ _ _ E) as Hkey.
  apply nodes_find_In in E as [->|Hin]; [lia|].
  apply ascending_cons in Hasc as [Hlt _]. specialize (Hlt m Hin). lia.
Qed.

Lemma nodes_insert_In l replace k v m :
  In m (nodes_insert l replace k v) -> m = (k, v) \/ In m l.
Proof.
  induction l as [|n rest IH]; simpl.
  - intros [<-|[]]; by left.
  - destruct (k <? key n); [intros [<-|H]; [by left | by right]|].
    destruct (k =? key n).
    + destruct replace; [|by right]. intros [<-|H]; [by left | right; by right].
    + intros [<-|H]; [right; by left|]. destruct (IH H); [by left | right; by right].
Qed.

Lemma nodes_insert_ascending l replace k v :
  ascending l = true -> ascending (nodes_insert l replace k v) = true.
Proof.
  induction l as [|n rest IH]; [done|].
  intros Hasc. pose proof Hasc as [Hlt Hrest]%ascending_cons. cbn [nodes_insert].
  destruct (N.ltb_spec k (key n)) as [Hk|Hk].
  - apply ascending_cons. split; [|done].
    intros m [<-|Hm]; [done|]. specialize (Hlt m Hm). unfold key in *. simpl. lia.
  - destruct (N.eqb_spec k (key n)) as [->|Hne].
    + destruct replace; [|done]. apply ascending_cons. split; [|done].
      intros m Hm. apply (Hlt m Hm).
    + apply ascending_cons. split; [|by apply IH].
      intros m [->|Hm]%nodes_insert_In; [unfold key in *; simpl; lia | by apply Hlt].
Qed.

Lemma nodes_find_insert_replace l k v :
  nodes_find (nodes_insert l true k v) k = Some (k, v).
Proof.
  induction l as [|n rest IH]; simpl.
  - by rewrite N.eqb_refl.
  - destruct (N.ltb_spec k (key n)); simpl; [by rewrite N.eqb_refl|].
    destruct (N.eqb_spec k (key n)) as [->|Hne]; simpl; [by rewrite N.eqb_refl|].
    destruct (N.eqb_spec (key n) k); [congruence | done].
Qed.

(** Find-or-create: the node found afterwards is the one that was there,
    or the new one. *)
Lemma nodes_find_insert_keep l k v :
  ascending l = true ->
  nodes_find (nodes_insert l false k v) k =
    Some (default (k, v) (nodes_find l k)).
Proof.
  induction l as [|n rest IH]; intros Hasc.
  - simpl. by rewrite N.eqb_refl.
  - cbn [nodes_insert]. destruct (N.ltb_spec k (key n)) as [Hk|Hk].
    + rewrite (ascending_find_below _ _ _ Hasc Hk). simpl. by rewrite N.eqb_refl.
    + destruct (N.eqb_spec k (key n)) as [->|Hne].
      * simpl. by rewrite N.eqb_refl.
      * apply ascending_cons in Hasc as [_ Hrest]. simpl.
        destruct (N.eqb_spec (key n) k); [congruence | by apply IH].
Qed.

Lemma nodes_find_insert_other l replace k v k' :
  k' <> k -> nodes_find (nodes_insert l replace k v) k' = nodes_find l k'.
Proof.
  intros Hne. induction l as [|n rest IH]; simpl.
  - destruct (N.eqb_spec k k'); [congruence | done].
  - destruct (N.ltb_spec k (key n)); simpl.
    + destruct (N.eqb_spec k k'); [congruence | done].
    + destruct (N.eqb_spec k (key n)) as [->|Hkn].
      * destruct replace; [|done]. simpl.
        destruct (N.eqb_spec (key n) k'); [congruence | done].
      * simpl. by rewrite IH.
Qed.

Lemma nodes_remove_fst l k : fst (nodes_remove l k) = val <$> nodes_find l k.
Proof.
  induction l as [|n rest IH]; simpl; [done|].
  destruct (key n =? k); [done|].
  destruct (nodes_remove rest k) as [rm rest'] eqn:E. simpl in IH. by rewrite <- IH.
Qed.

Lemma nodes_remove_absent l k :
  nodes_find l k = None -> nodes_remove l k = (None, l).
Proof.
  induction l as [|n rest IH]; simpl; [done|].
  destruct (key n =? k); [done|]. intros H. by rewrite (IH H).
Qed.

Lemma nodes_remove_In l k m : In m (snd (nodes_remove l k)) -> In m l.
Proof.
  induction l as [|n rest IH]; simpl; [done|].
  destruct (key n =? k); simpl; [by right|].
  destruct (nodes_remove rest k) as [rm rest'] eqn:E. simpl in *.
  intros [<-|H]; [by left | right; auto].
Qed.

Lemma nodes_remove_ascending l k :
  ascending l = true -> ascending (snd (nodes_remove l k)) = true.
Proof.
  induction l as [|n rest IH]; [done|].
  intros [Hlt Hrest]%ascending_cons. cbn [nodes_remove].
  destruct (key n =? k); [done|].
  pose proof (nodes_remove_In rest k) as Hin.
  destruct (nodes_remove rest k) as [rm rest'] eqn:E. simpl in *.
  change (ascending (n :: rest') = true). apply ascending_cons. split; [|by apply IH].
  intros m Hm. apply Hlt, Hin, Hm.
Qed.

Lemma nodes_find_remove l k :
  ascending l = true -> nodes_find (snd (nodes_remove l k)) k = None.
Proof.
  induction l as [|n rest IH]; [done|].
  intros Hasc. pose proof Hasc as [Hlt Hrest]%ascending_cons. cbn [nodes_remove].
  destruct (N.eqb_spec (key n) k) as [<-|Hne]; simpl.
  - destruct rest as [|m rest]; [done|].
    apply ascending_find_below; [done|]. apply Hlt. by left.
  - destruct (nodes_remove rest k) as [rm rest'] eqn:E. simpl in *.
    destruct (N.eqb_spec (key n) k); [done | by apply IH].
Qed.

Lemma nodes_find_remove_other l k k' :
  k' <> k -> nodes_find (snd (nodes_remove l k)) k' = nodes_find l k'.
Proof.
  intros Hne. induction l as [|n rest IH]; [done|]. cbn [nodes_remove].
  destruct (N.eqb_spec (key n) k) as [<-|Hkn]; simpl.
  - destruct (N.eqb_spec (key n) k'); [congruence | done].
  - destruct (nodes_remove rest k) as [rm rest'] eqn:E. simpl in *. by rewrite IH.
Qed.


(** ** Paths *)

Lemma nodes_find_alter k f l :
  nodes_find (alter_node k f l) k =
    (fun n => (key n, f (val n))) <$> nodes_find l k.
Proof.
  induction l as [|n rest IH]; simpl; [done|].
  destruct (N.eqb_spec (key n) k) as [E|Hne]; simpl.
  - unfold key at 1. simpl. fold (key n). by rewrite E, N.eqb_refl.
  - destruct (N.eqb_spec (key n) k); [done | exact IH].
Qed.

Lemma nodes_find_alter_other k k' f l :
  k' <> k -> nodes_find (alter_node k f l) k' = nodes_find l k'.
Proof.
  intros Hne. induction l as [|n rest IH]; simpl; [done|].
  destruct (N.eqb_spec (key n) k) as [E|Hkn]; simpl.
  - unfold key at 1. simpl. fold (key n).
    destruct (N.eqb_spec (key n) k'); [congruence | done].
  - by rewrite IH.
Qed.

Lemma alter_node_ext k f g l :
  (forall n, nodes_find l k = Some n -> f (val n) = g (val n)) ->
  alter_node k f l = alter_node k g l.
Proof.
  induction l as [|n rest IH]; simpl; [done|].
  destruct (key n =? k); intros H; [by rewrite (H n) | by rewrite IH].
Qed.

Lemma alter_node_id k f l :
  (forall n, nodes_find l k = Some n -> f (val n) = val n) ->
  alter_node k f l = l.
Proof.
  induction l as [|n rest IH]; simpl; [done|].
  destruct (key n =? k); intros H; [|by rewrite IH].
  rewrite (H n) by done. by destruct n.
Qed.

Lemma alter_node_twice k f g l :
  alter_node k g (alter_node k f l) = alter_node k (fun v => g (f v)) l.
Proof.
  induction l as [|n rest IH]; simpl; [done|].
  destruct (N.eqb_spec (key n) k) as [E|Hne]; simpl.
  - unfold key at 1. simpl. fold (key n). rewrite E, N.eqb_refl. done.
  - destruct (N.eqb_spec (key n) k); [done | by rewrite IH].
Qed.

Lemma alter_node_keys k f l : map key (alter_node k f l) = map key l.
Proof.
  induction l as [|n rest IH]; simpl; [done|].
  destruct (key n =? k); simpl; [done | by rewrite IH].
Qed.

Lemma ascending_keys l l' : map key l = map key l' -> ascending l = ascending l'.
Proof.
  revert l'. induction l as [|n rest IH]; intros [|n' rest']; simpl; try done.
  intros [= Hk Hrest]. rewrite (IH _ Hrest), Hk. f_equal.
  clear IH. revert rest' Hrest. induction rest as [|m rest IH]; intros [|m' rest']; simpl; try done.
  intros [= Hm Hrest]. by rewrite Hm, (IH _ Hrest).
Qed.

Lemma alter_node_ascending k f l : ascending (alter_node k f l) = ascending l.
Proof. apply ascending_keys, alter_node_keys. Qed.

Lemma deref_app x p q : deref x (p ++ q) = deref x p ≫= fun y => deref y q.
Proof.
  revert x. induction p as [|k p IH]; intros x; simpl; [done|].
  destruct (nodes_find x k) as [[? [|sub]]|]; simpl; auto.
Qed.

Lemma deref_snoc root p x k :
  deref root p = Some x ->
  deref root (p ++ [k]) = deref x [k].
Proof. intros H. by rewrite deref_app, H. Qed.

Lemma deref_one x k n sub :
  nodes_find x k = Some n -> val n = VList sub -> deref x [k] = Some sub.
Proof. intros Hn Hv. simpl. rewrite Hn. destruct n as [? w]. simpl in Hv. by subst. Qed.

Lemma deref_one_inv x k sub :
  deref x [k] = Some sub -> nodes_find x k = Some (k, VList sub).
Proof.
  simpl. destruct (nodes_find x k) as [[k' [|sub']]|] eqn:E; try done.
  intros [= ->]. pose proof (nodes_find_key _ _ _ E) as Hk. unfold key in Hk.
  simpl in Hk. by subst.
Qed.

Lemma assign_app root p q x y :
  deref root p = Some x ->
  assign root (p ++ q) y = assign root p (assign x q y).
Proof.
  revert root. induction p as [|k p IH]; intros root; simpl.
  - by intros [= ->].
  - destruct (nodes_find root k) as [[k' [|sub]]|] eqn:E; try done.
    intros H. apply alter_node_ext. intros n Hn. rewrite E in Hn.
    injection Hn as <-. simpl. by rewrite (IH _ H).
Qed.

Lemma deref_assign root p x y :
  deref root p = Some x -> deref (assign root p y) p = Some y.
Proof.
  revert root. induction p as [|k p IH]; intros root; simpl; [done|].
  destruct (nodes_find root k) as [[k' [|sub]]|] eqn:E; try done.
  intros H. rewrite nodes_find_alter, E. simpl. by apply IH.
Qed.

Lemma assign_deref root p x : deref root p = Some x -> assign root p x = root.
Proof.
  revert root. induction p as [|k p IH]; intros root; simpl; [by intros [= ->]|].
  destruct (nodes_find root k) as [[k' [|sub]]|] eqn:E; try done.
  intros H. apply alter_node_id. intros n Hn. rewrite E in Hn.
  injection Hn as <-. simpl. by rewrite (IH _ H).
Qed.

Lemma assign_assign root p x y z :
  deref root p = Some x -> assign (assign root p y) p z = assign root p z.
Proof.
  revert root. induction p as [|k p IH]; intros root; simpl; [done|].
  destruct (nodes_find root k) as [[k' [|sub]]|] eqn:E; try done.
  intros H. rewrite alter_node_twice. apply alter_node_ext.
  intros n Hn. rewrite E in Hn. injection Hn as <-. simpl. by rewrite (IH _ H).
Qed.

(** A write below a prefix of the path leaves the prefix readable. *)
Lemma deref_assign_prefix root p q x y :
  deref root (p ++ q) = Some x ->
  exists z, deref (assign root (p ++ q) y) p = Some z /\
            (q <> [] -> z <> []).
Proof.
  rewrite deref_app. destruct (deref root p) as [u|] eqn:Hu; [|done]. simpl.
  intros Hq. rewrite (assign_app _ _ _ _ _ Hu).
  rewrite (deref_assign _ _ _ _ Hu). eexists; split; [done|].
  destruct q as [|k q]; [done|]. intros _. simpl in *.
  destruct (nodes_find u k) as [n|] eqn:E; [|done].
  destruct u; [done|]. simpl. by destruct (_ =? _).
Qed.

(** ** One step of an accessor *)

Lemma set_rows_same s : set_rows s (rows s) = s.
Proof. by destruct s. Qed.

Lemma set_rows_twice s x y : set_rows (set_rows s x) y = set_rows s y.
Proof. done. Qed.

Lemma bind_Done {A B} (m : M A) (f : A -> M B) s a s' :
  m s = (Done a, s') -> bind m f s = f a s'.
Proof. unfold bind. by intros ->. Qed.

Lemma bind_ret {A B} (a : A) (f : A -> M B) s : bind (ret a) f s = f a s.
Proof. done. Qed.

Lemma load_Done (l : LISTp) x s : deref (rows s) l = Some x -> load l s = (Done x, s).
Proof. unfold load, bind, gets. simpl. by intros ->. Qed.

Lemma coord_Done slice i k s :
  coords slice !! i = Some k -> coord slice i s = (Done k, s).
Proof. unfold coord. by intros ->. Qed.

Lemma list_find_Done (l : LISTp) k x s :
  deref (rows s) l = Some x ->
  list_find l k s = (Done (match nodes_find x k with
                           | Some _ => Some (l, k)
                           | None => None
                           end), s).
Proof. intros H. unfold list_find. by rewrite (bind_Done _ _ _ _ _ (load_Done _ _ _ H)). Qed.

Lemma list_insert_Done (l : LISTp) replace k v x s :
  deref (rows s) l = Some x ->
  list_insert l replace k v s =
    (Done (l, k), set_rows s (assign (rows s) l (nodes_insert x replace k v))).
Proof. intros H. unfold list_insert. by rewrite (bind_Done _ _ _ _ _ (load_Done _ _ _ H)). Qed.

Lemma list_remove_Done (l : LISTp) k x s :
  deref (rows s) l = Some x ->
  list_remove l k s =
    (Done (fst (nodes_remove x k)),
     set_rows s (assign (rows s) l (snd (nodes_remove x k)))).
Proof.
  intros H. unfold list_remove. rewrite (bind_Done _ _ _ _ _ (load_Done _ _ _ H)).
  by destruct (nodes_remove x k).
Qed.

Lemma first_is_null_Done (l : LISTp) x s :
  deref (rows s) l = Some x ->
  first_is_null l s = (Done (match x with [] => true | _ => false end), s).
Proof. intros H. unfold first_is_null. by rewrite (bind_Done _ _ _ _ _ (load_Done _ _ _ H)). Qed.

Lemma node_val_Done (l : LISTp) k x n s :
  deref (rows s) l = Some x -> nodes_find x k = Some n ->
  node_val (l, k) s = (Done (val n), s).
Proof.
  intros H Hn. unfold node_val. simpl.
  rewrite (bind_Done _ _ _ _ _ (load_Done _ _ _ H)). by rewrite Hn.
Qed.


(** ** Well-nested lists *)

Lemma well_nested_spec d x :
  well_nested d x = true <->
  ascending x = true /\ forall n, In n x -> node_nested d n.
Proof.
  destruct d as [|d']; simpl; rewrite andb_true_iff, forallb_forall;
    (split; intros [Ha Hn]; split; [done| |done|]); intros n Hin;
    specialize (Hn n Hin); unfold node_nested in *.
  - destruct (val n); [eauto | done].
  - by destruct Hn as [a ->].
  - destruct (val n); [done | eauto].
  - by destruct Hn as (sub & -> & ?).
Qed.

Lemma well_nested_ascending d x : well_nested d x = true -> ascending x = true.
Proof. by intros [? _]%well_nested_spec. Qed.

Lemma well_nested_find d x k n :
  well_nested d x = true -> nodes_find x k = Some n -> node_nested d n.
Proof. intros [_ H]%well_nested_spec Hn. by apply H, (nodes_find_In _ k). Qed.

Lemma well_nested_nil d : well_nested d ([] : LIST) = true.
Proof. by destruct d. Qed.

Lemma well_nested_insert d x replace k v :
  well_nested d x = true -> node_nested d (k, v) ->
  well_nested d (nodes_insert x replace k v) = true.
Proof.
  intros [Ha Hn]%well_nested_spec Hv. apply well_nested_spec. split.
  - by apply nodes_insert_ascending.
  - intros n [->|Hin]%nodes_insert_In; auto.
Qed.

Lemma well_nested_remove d x k :
  well_nested d x = true -> well_nested d (snd (nodes_remove x k)) = true.
Proof.
  intros [Ha Hn]%well_nested_spec. apply well_nested_spec. split.
  - by apply nodes_remove_ascending.
  - intros n Hin%nodes_remove_In. auto.
Qed.

Lemma alter_node_In k f x m :
  In m (alter_node k f x) ->
  In m x \/ exists n, nodes_find x k = Some n /\ m = (key n, f (val n)).
Proof.
  induction x as [|n rest IH]; simpl; [done|].
  destruct (key n =? k) eqn:E.
  - intros [<-|H]; [right; eauto | left; by right].
  - intros [<-|H]; [left; by left|]. destruct (IH H) as [?|?]; [left; by right | by right].
Qed.

Lemma well_nested_assign_one d x k sub :
  well_nested (S d) x = true -> well_nested d sub = true ->
  well_nested (S d) (assign x [k] sub) = true.
Proof.
  intros [Ha Hn]%well_nested_spec Hsub. apply well_nested_spec. split.
  - simpl. by rewrite alter_node_ascending.
  - intros m [Hin|(n & Hfind & ->)]%alter_node_In; [auto|].
    destruct (Hn n (nodes_find_In _ _ _ Hfind)) as (sub0 & Hv & _).
    rewrite Hv. simpl. eauto.
Qed.

(** ** The accessors compute the functions on the nested list *)

Lemma stored_cons k k2 c x :
  stored x (k :: k2 :: c) =
    match deref x [k] with
    | Some sub => stored sub (k2 :: c)
    | None => None
    end.
Proof.
  cbn [stored deref]. destruct (nodes_find x k) as [[? [|sub]]|]; done.
Qed.

Lemma tree_insert_cons k k2 c v x :
  tree_insert (k :: k2 :: c) v x =
    let x1 := nodes_insert x false k (VList list_create) in
    match deref x1 [k] with
    | Some sub => assign x1 [k] (tree_insert (k2 :: c) v sub)
    | None => x1
    end.
Proof. done. Qed.

Lemma tree_remove_cons k k2 c x :
  tree_remove (k :: k2 :: c) x =
    match deref x [k] with
    | Some sub =>
        let '(rm, sub') := tree_remove (k2 :: c) sub in (rm, assign x [k] sub')
    | None => (None, x)
    end.
Proof. done. Qed.

Lemma gets_Done {A} (f : LIST_STORAGE -> A) s : gets f s = (Done (f s), s).
Proof. done. Qed.

Lemma lookup_middle (pre : list N) k c' : (pre ++ k :: c') !! length pre = Some k.
Proof. by rewrite lookup_app_r, Nat.sub_diag by lia. Qed.

Lemma list_storage_ref_from_spec slice s c' :
  forall pre x,
    coords slice = pre ++ c' ->
    rank s = (length pre + length c')%nat ->
    c' <> [] ->
    deref (rows s) pre = Some x ->
    well_nested (length c' - 1) x = true ->
    list_storage_ref_from slice (length c') pre s =
      (Done (default (VScalar (default_val s)) (stored x c')), s).
Proof.
  induction c' as [|k c'' IH]; [done|].
  intros pre x Hc Hrk _ Hx Hwf.
  assert (coords slice !! (rank s - length (k :: c''))%nat = Some k) as Hk.
  { rewrite Hc, Hrk. replace (_ + _ - _)%nat with (length pre) by lia.
    apply lookup_middle. }
  destruct c'' as [|k2 c3].
  - cbn [length list_storage_ref_from].
    rewrite (bind_Done _ _ _ _ _ (gets_Done _ _)).
    rewrite (bind_Done _ _ _ _ _ (coord_Done _ _ _ _ Hk)).
    rewrite (bind_Done _ _ _ _ _ (list_find_Done _ k _ _ Hx)).
    cbn [stored]. destruct (nodes_find x k) as [n|] eqn:En; [|done].
    by rewrite (node_val_Done _ _ _ _ _ Hx En).
  - cbn [length list_storage_ref_from].
    rewrite (bind_Done _ _ _ _ _ (gets_Done _ _)).
    rewrite (bind_Done _ _ _ _ _ (coord_Done _ _ _ _ Hk)).
    rewrite (bind_Done _ _ _ _ _ (list_find_Done _ k _ _ Hx)).
    cbn [stored]. destruct (nodes_find x k) as [n|] eqn:En; [|done].
    cbn [length] in Hwf. replace (S (S (length c3)) - 1)%nat with (S (length c3)) in Hwf by lia.
    destruct (well_nested_find _ _ _ _ Hwf En) as (sub & Hv & Hsub).
    rewrite Hv. unfold val_list. cbn [fst snd].
    apply (IH (pre ++ [k]) sub).
    + by rewrite <- app_assoc.
    + rewrite length_app. cbn [length] in *. lia.
    + done.
    + rewrite (deref_snoc _ _ _ _ Hx). by apply (deref_one _ _ n).
    + cbn [length]. by replace (S (length c3) - 1)%nat with (length c3) by lia.
Qed.

Lemma list_storage_insert_from_spec slice v s c' :
  forall pre x,
    coords slice = pre ++ c' ->
    rank s = (length pre + length c')%nat ->
    c' <> [] ->
    deref (rows s) pre = Some x ->
    well_nested (length c' - 1) x = true ->
    list_storage_insert_from slice v (length c') pre s =
      (Done v, set_rows s (assign (rows s) pre (tree_insert c' v x))).
Proof.
  revert s. induction c' as [|k c'' IH]; [done|].
  intros s pre x Hc Hrk _ Hx Hwf.
  assert (coords slice !! (rank s - length (k :: c''))%nat = Some k) as Hk.
  { rewrite Hc, Hrk. replace (_ + _ - _)%nat with (length pre) by lia.
    apply lookup_middle. }
  destruct c'' as [|k2 c3].
  - cbn [length list_storage_insert_from tree_insert].
    rewrite (bind_Done _ _ _ _ _ (gets_Done _ _)).
    rewrite (bind_Done _ _ _ _ _ (coord_Done _ _ _ _ Hk)).
    rewrite (bind_Done _ _ _ _ _ (list_insert_Done _ true k v _ _ Hx)).
    apply (node_val_Done _ _ (nodes_insert x true k v) (k, v)).
    + simpl. by apply (deref_assign _ _ x).
    + apply nodes_find_insert_replace.
  - cbn [length list_storage_insert_from].
    rewrite (bind_Done _ _ _ _ _ (gets_Done _ _)).
    rewrite (bind_Done _ _ _ _ _ (coord_Done _ _ _ _ Hk)).
    rewrite (bind_Done _ _ _ _ _ (list_insert_Done _ false k (VList list_create) _ _ Hx)).
    cbn [length] in Hwf. replace (S (S (length c3)) - 1)%nat with (S (length c3)) in Hwf by lia.
    set (x1 := nodes_insert x false k (VList list_create)).
    assert (exists sub, deref x1 [k] = Some sub /\ well_nested (length c3) sub = true)
      as (sub & Hsub & Hwfsub).
    { pose proof (nodes_find_insert_keep x k (VList list_create)
                    (well_nested_ascending _ _ Hwf)) as Hf.
      destruct (nodes_find x k) as [n|] eqn:En; simpl in Hf.
      - destruct (well_nested_find _ _ _ _ Hwf En) as (sub & Hv & Hsub).
        exists sub. split; [by apply (deref_one _ _ n)|done].
      - exists []. split; [by apply (deref_one _ _ (k, VList []))|apply well_nested_nil]. }
    set (s1 := set_rows s _).
    assert (deref (rows s1) pre = Some x1) as Hx1 by (by apply (deref_assign _ _ x)).
    unfold val_list. cbn [fst snd].
    assert (list_storage_insert_from slice v (length (k2 :: c3)) (pre ++ [k]) s1 =
            (Done v, set_rows s1 (assign (rows s1) (pre ++ [k])
                                    (tree_insert (k2 :: c3) v sub)))) as IH1.
    { apply IH.
      - by rewrite <- app_assoc.
      - rewrite length_app. cbn [length] in *. unfold s1. simpl. lia.
      - done.
      - by rewrite (deref_snoc _ _ _ _ Hx1).
      - cbn [length]. by replace (S (length c3) - 1)%nat with (length c3) by lia. }
    etrans; [exact IH1|].
    f_equal. unfold s1. rewrite set_rows_twice. f_equal. cbn [rows set_rows].
    rewrite (assign_app _ _ _ _ _ (deref_assign _ _ _ x1 Hx)).
    rewrite (assign_assign _ _ _ _ _ Hx).
    cbn [tree_insert]. fold x1. by rewrite Hsub.
Qed.


(** The walk back up the stack of [list_storage_remove] changes nothing:
    the list it tests at level [r] is the one it calls [list_remove] on, and
    a list that is empty has no node to give up. *)
Lemma list_storage_remove_prune_noop slice (stack : array (option NODEp)) s (n : nat) :
  (n <= length (coords slice))%nat ->
  (forall i k, (i < n)%nat -> coords slice !! i = Some k ->
               mjoin (cells stack !! i) = Some (take i (coords slice), k)) ->
  is_Some (deref (rows s) (take n (coords slice))) ->
  list_storage_remove_prune slice stack n s = (Done tt, s).
Proof.
  induction n as [|r IH]; [done|].
  intros Hn Hstack [x Hx].
  destruct (lookup_lt_is_Some_2 (coords slice) r) as [k Hk]; [lia|].
  rewrite (take_S_r _ _ _ Hk) in Hx.
  cbn [list_storage_remove_prune].
  rewrite (Hstack r k) by (done || lia). cbn [from_option].
  rewrite bind_ret.
  unfold val_list. cbn [fst snd].
  rewrite (bind_Done _ _ _ _ _ (first_is_null_Done _ _ _ Hx)).
  destruct x as [|n0 x]; [|done].
  rewrite (bind_Done _ _ _ _ _ (coord_Done _ _ _ _ Hk)).
  rewrite (bind_Done _ _ _ _ _ (list_remove_Done _ k _ _ Hx)).
  cbn [nodes_remove fst snd]. rewrite (assign_deref _ _ _ Hx), set_rows_same.
  cbn [free]. rewrite bind_ret.
  apply IH; [lia|intros; apply Hstack; (done || lia)|].
  rewrite deref_app in Hx. destruct (deref (rows s) (take r (coords slice))); [eauto|done].
Qed.

Lemma removelast_cons k k2 c : removelast (k :: k2 :: c) = k :: removelast (k2 :: c).
Proof. done. Qed.

Lemma deref_cons x k p :
  deref x (k :: p) = deref x [k] ≫= fun sub => deref sub p.
Proof. apply (deref_app x [k] p). Qed.

(** The walk of [list_storage_remove]: with every intermediate node of the
    tuple in place it removes the leaf and returns what [list_remove]
    returned; with one of them missing it ends in [free(stack)]. *)
Lemma list_storage_remove_from_spec slice s c' :
  forall pre x (stack : array (option NODEp)),
    coords slice = pre ++ c' ->
    rank s = (length pre + length c')%nat ->
    c' <> [] ->
    origin stack = by_ALLOCA_N ->
    length (cells stack) = (rank s - 1)%nat ->
    (forall i k, (i < length pre)%nat -> coords slice !! i = Some k ->
                 mjoin (cells stack !! i) = Some (take i (coords slice), k)) ->
    deref (rows s) pre = Some x ->
    well_nested (length c' - 1) x = true ->
    list_storage_remove_from slice stack (length c') pre s =
      match deref x (removelast c') with
      | Some _ =>
          (Done (fst (tree_remove c' x)),
           set_rows s (assign (rows s) pre (snd (tree_remove c' x))))
      | None => (Undefined, s)
      end.
Proof.
  induction c' as [|k c'' IH]; [done|].
  intros pre x stack Hc Hrk _ Horigin Hlen Hstack Hx Hwf.
  assert (coords slice !! (rank s - length (k :: c''))%nat = Some k) as Hk.
  { rewrite Hc, Hrk. replace (_ + _ - _)%nat with (length pre) by lia.
    apply lookup_middle. }
  destruct c'' as [|k2 c3].
  - cbn [length list_storage_remove_from tree_remove removelast deref].
    rewrite (bind_Done _ _ _ _ _ (gets_Done _ _)).
    rewrite (bind_Done _ _ _ _ _ (coord_Done _ _ _ _ Hk)).
    rewrite (bind_Done _ _ _ _ _ (list_remove_Done _ k _ _ Hx)).
    destruct (nodes_remove x k) as [[rm|] x'] eqn:E; cbn [fst snd]; [|done].
    set (s1 := set_rows s _).
    rewrite (bind_Done _ (fun _ => ret _) s1 tt s1); [done|].
    apply list_storage_remove_prune_noop.
    + rewrite Hc, length_app. simpl in *. lia.
    + intros i k' Hi. apply Hstack. simpl in *. lia.
    + replace (rank s - 1)%nat with (length pre) by (simpl in *; lia).
      rewrite Hc, take_app_length. exists x'. by apply (deref_assign _ _ x).
  - cbn [length] in Hwf. replace (S (S (length c3)) - 1)%nat with (S (length c3)) in Hwf by lia.
    assert (list_storage_remove_from slice stack (length (k :: k2 :: c3)) pre s =
            match nodes_find x k with
            | None => (Undefined, s)
            | Some _ =>
                list_storage_remove_from slice
                  (array_set stack (length pre) (Some (pre, k)))
                  (length (k2 :: c3)) (pre ++ [k]) s
            end) as ->.
    { cbn [length list_storage_remove_from].
      rewrite (bind_Done _ _ _ _ _ (gets_Done _ _)).
      rewrite (bind_Done _ _ _ _ _ (coord_Done _ _ _ _ Hk)).
      rewrite (bind_Done _ _ _ _ _ (list_find_Done _ k _ _ Hx)).
      destruct (nodes_find x k); [|by rewrite Horigin].
      rewrite Hrk. cbn [length]. by replace (_ + _ - _)%nat with (length pre) by lia. }
    rewrite removelast_cons, (deref_cons x k (removelast (k2 :: c3))), tree_remove_cons.
    destruct (nodes_find x k) as [n|] eqn:En.
    + destruct (well_nested_find _ _ _ _ Hwf En) as (sub & Hv & Hsub).
      rewrite (deref_one _ _ _ _ En Hv). cbn [mbind option_bind].
      rewrite (IH (pre ++ [k]) sub).
      * destruct (deref sub (removelast (k2 :: c3))); [|done].
        destruct (tree_remove (k2 :: c3) sub) as [rm sub']. cbn [fst snd].
        by rewrite (assign_app _ _ _ _ _ Hx).
      * by rewrite <- app_assoc.
      * rewrite length_app. cbn [length] in *. lia.
      * done.
      * done.
      * cbn [array_set cells]. by rewrite length_insert.
      * cbn [array_set cells]. intros i k' Hi Hk'. rewrite length_app in Hi. cbn [length] in Hi.
        destruct (decide (i = length pre)) as [->|Hne].
        -- rewrite list_lookup_insert_eq by (cbn [length] in *; lia).
           rewrite Hc, lookup_middle in Hk'. injection Hk' as <-.
           simpl. by rewrite Hc, take_app_length.
        -- rewrite list_lookup_insert_ne by done. apply Hstack; [lia|done].
      * rewrite (deref_snoc _ _ _ _ Hx). by apply (deref_one _ _ n).
      * cbn [length]. by replace (S (length c3) - 1)%nat with (length c3) by lia.
    + assert (deref x [k] = None) as -> by (simpl; by rewrite En). done.
Qed.


(** ** Insertion, removal and lookup on the nested list *)

Lemma stored_find_ext x y k c :
  nodes_find x k = nodes_find y k -> stored x (k :: c) = stored y (k :: c).
Proof. intros H. cbn [stored]. by rewrite H. Qed.

Lemma well_nested_tree_insert c a :
  forall x, c <> [] -> well_nested (length c - 1) x = true ->
            well_nested (length c - 1) (tree_insert c (VScalar a) x) = true.
Proof.
  induction c as [|k c IH]; [done|]. intros x _ Hwf.
  destruct c as [|k2 c].
  - cbn [tree_insert]. apply well_nested_insert; [done|]. simpl. eauto.
  - rewrite tree_insert_cons. cbn zeta.
    cbn [length] in *. replace (S (S (length c)) - 1)%nat with (S (length c)) in * by lia.
    replace (S (length c) - 1)%nat with (length c) in IH by lia.
    assert (well_nested (S (length c)) (nodes_insert x false k (VList list_create)) = true) as Hx1.
    { apply well_nested_insert; [done|]. exists []. split; [done|apply well_nested_nil]. }
    destruct (deref _ [k]) as [sub|] eqn:Hsub; [|done].
    apply well_nested_assign_one; [done|]. apply IH; [done|].
    apply deref_one_inv in Hsub.
    by destruct (well_nested_find _ _ _ _ Hx1 Hsub) as (? & [= <-] & ?).
Qed.

Lemma stored_tree_insert c v :
  forall x, c <> [] -> well_nested (length c - 1) x = true ->
            stored (tree_insert c v x) c = Some v.
Proof.
  induction c as [|k c IH]; [done|]. intros x _ Hwf.
  destruct c as [|k2 c].
  - cbn [tree_insert stored]. by rewrite nodes_find_insert_replace.
  - rewrite tree_insert_cons. cbn zeta.
    cbn [length] in *. replace (S (S (length c)) - 1)%nat with (S (length c)) in * by lia.
    replace (S (length c) - 1)%nat with (length c) in IH by lia.
    assert (well_nested (S (length c)) (nodes_insert x false k (VList list_create)) = true) as Hx1.
    { apply well_nested_insert; [done|]. exists []. split; [done|apply well_nested_nil]. }
    pose proof (nodes_find_insert_keep x k (VList list_create)
                  (well_nested_ascending _ _ Hwf)) as Hf.
    destruct (deref _ [k]) as [sub|] eqn:Hsub.
    + rewrite stored_cons, (deref_assign _ _ _ _ Hsub). apply IH; [done|].
      apply deref_one_inv in Hsub.
      by destruct (well_nested_find _ _ _ _ Hx1 Hsub) as (? & [= <-] & ?).
    + exfalso. destruct (well_nested_find _ _ _ _ Hx1 Hf) as (sub & Hv & _).
      by rewrite (deref_one _ _ _ _ Hf Hv) in Hsub.
Qed.

Lemma tree_remove_fst c : forall x, fst (tree_remove c x) = stored x c.
Proof.
  induction c as [|k c IH]; [done|]. intros x. destruct c as [|k2 c].
  - cbn [tree_remove stored]. rewrite nodes_remove_fst. by destruct (nodes_find x k).
  - rewrite tree_remove_cons, stored_cons. destruct (deref x [k]) as [sub|]; [|done].
    rewrite <- IH. by destruct (tree_remove (k2 :: c) sub).
Qed.

Lemma tree_remove_absent c :
  forall x, stored x c = None -> tree_remove c x = (None, x).
Proof.
  induction c as [|k c IH]; [done|]. intros x. destruct c as [|k2 c].
  - cbn [tree_remove stored]. intros H. apply nodes_remove_absent.
    by destruct (nodes_find x k).
  - rewrite tree_remove_cons, stored_cons. destruct (deref x [k]) as [sub|] eqn:E; [|done].
    intros H. rewrite (IH _ H). by rewrite (assign_deref _ _ _ E).
Qed.

Lemma well_nested_tree_remove c :
  forall x, well_nested (length c - 1) x = true ->
            well_nested (length c - 1) (snd (tree_remove c x)) = true.
Proof.
  induction c as [|k c IH]; [done|]. intros x Hwf. destruct c as [|k2 c].
  - cbn [tree_remove]. by apply well_nested_remove.
  - rewrite tree_remove_cons.
    cbn [length] in *. replace (S (S (length c)) - 1)%nat with (S (length c)) in * by lia.
    replace (S (length c) - 1)%nat with (length c) in IH by lia.
    destruct (deref x [k]) as [sub|] eqn:E; [|done].
    specialize (IH sub). destruct (tree_remove (k2 :: c) sub) as [rm sub']. cbn [snd] in *.
    apply well_nested_assign_one; [done|]. apply IH.
    apply deref_one_inv in E.
    by destruct (well_nested_find _ _ _ _ Hwf E) as (? & [= <-] & ?).
Qed.

Lemma stored_tree_remove c :
  forall x, well_nested (length c - 1) x = true ->
            stored (snd (tree_remove c x)) c = None.
Proof.
  induction c as [|k c IH]; [done|]. intros x Hwf. destruct c as [|k2 c].
  - cbn [tree_remove stored].
    by rewrite (nodes_find_remove _ _ (well_nested_ascending _ _ Hwf)).
  - rewrite tree_remove_cons.
    cbn [length] in *. replace (S (S (length c)) - 1)%nat with (S (length c)) in * by lia.
    replace (S (length c) - 1)%nat with (length c) in IH by lia.
    destruct (deref x [k]) as [sub|] eqn:E.
    + specialize (IH sub). destruct (tree_remove (k2 :: c) sub) as [rm sub']. cbn [snd] in *.
      rewrite stored_cons, (deref_assign _ _ _ _ E). apply IH.
      apply deref_one_inv in E.
      by destruct (well_nested_find _ _ _ _ Hwf E) as (? & [= <-] & ?).
    + cbn [snd]. by rewrite stored_cons, E.
Qed.

Lemma stored_chain c :
  forall x v, stored x c = Some v -> is_Some (deref x (removelast c)).
Proof.
  induction c as [|k c IH]; [done|]. intros x v. destruct c as [|k2 c].
  - by eexists.
  - rewrite stored_cons, removelast_cons, (deref_cons x k (removelast (k2 :: c))).
    destruct (deref x [k]) as [sub|]; [|done]. apply IH.
Qed.

(** On a well-nested list the node chain of a tuple is what [stored]
    reads. *)
Lemma node_chain_stored c :
  forall x v, c <> [] -> well_nested (length c - 1) x = true ->
              (node_chain x c v <-> stored x c = Some v).
Proof.
  induction c as [|k c IH]; [done|]. intros x v _ Hwf.
  pose proof (well_nested_ascending _ _ Hwf) as Hasc.
  destruct c as [|k2 c].
  - cbn [stored]. split.
    + inversion 1 as [? ? ? Hin|? ? ? ? ? Hin Hch]; subst; [|inversion Hch].
      pose proof (ascending_find_In _ (k, v) Hasc Hin) as Hf.
      unfold key in Hf. simpl in Hf. by rewrite Hf.
    + destruct (nodes_find x k) as [n|] eqn:E; [|done]. intros [= <-].
      constructor. pose proof (nodes_find_key _ _ _ E) as Hk.
      apply nodes_find_In in E. destruct n. unfold key in Hk. simpl in *. by subst.
  - rewrite stored_cons.
    cbn [length] in *. replace (S (S (length c)) - 1)%nat with (S (length c)) in * by lia.
    replace (S (length c) - 1)%nat with (length c) in IH by lia.
    split.
    + inversion 1 as [|? ? sub ? ? Hin Hch]; subst.
      pose proof (ascending_find_In _ (k, VList sub) Hasc Hin) as Hf.
      unfold key in Hf. simpl in Hf.
      rewrite (deref_one _ _ _ _ Hf eq_refl). apply IH; [done| |done].
      by destruct (well_nested_find _ _ _ _ Hwf Hf) as (? & [= <-] & ?).
    + destruct (deref x [k]) as [sub|] eqn:E; [|done]. intros Hs.
      apply deref_one_inv in E.
      apply (chain_branch _ _ sub); [by apply (nodes_find_In _ k)|].
      apply IH; [done| |done].
      by destruct (well_nested_find _ _ _ _ Hwf E) as (? & [= <-] & ?).
Qed.


(** Insertion and removal at one tuple leave every other tuple of the same
    length as it was. *)

Lemma insert_keep_sub d x k :
  well_nested (S d) x = true ->
  exists sub,
    deref (nodes_insert x false k (VList list_create)) [k] = Some sub /\
    well_nested d sub = true /\
    (deref x [k] = Some sub \/ (deref x [k] = None /\ sub = [])).
Proof.
  intros Hwf.
  pose proof (nodes_find_insert_keep x k (VList list_create)
                (well_nested_ascending _ _ Hwf)) as Hf.
  destruct (nodes_find x k) as [n|] eqn:En; simpl in Hf.
  - destruct (well_nested_find _ _ _ _ Hwf En) as (sub & Hv & Hsub).
    exists sub. split; [by apply (deref_one _ _ n)|]. split; [done|].
    left. by apply (deref_one _ _ n).
  - exists []. split; [by apply (deref_one _ _ (k, VList []))|].
    split; [apply well_nested_nil|]. right. split; [|done]. simpl. by rewrite En.
Qed.

Lemma stored_nil c : stored ([] : LIST) c = None.
Proof. by destruct c. Qed.

Lemma stored_tree_insert_other c v :
  forall c2 x,
    length c2 = length c -> c2 <> c ->
    well_nested (length c - 1) x = true ->
    stored (tree_insert c v x) c2 = stored x c2.
Proof.
  induction c as [|k c IH]; [done|]. intros c2 x Hlen Hne Hwf.
  destruct c2 as [|k' c2]; [done|]. destruct c as [|k2 c].
  - destruct c2; [|done]. cbn [tree_insert stored].
    rewrite nodes_find_insert_other; [done|congruence].
  - destruct c2 as [|k2' c2]; [done|].
    rewrite tree_insert_cons. cbn zeta.
    cbn [length] in Hwf, IH.
    replace (S (S (length c)) - 1)%nat with (S (length c)) in Hwf by lia.
    replace (S (length c) - 1)%nat with (length c) in IH by lia.
    destruct (insert_keep_sub _ _ k Hwf) as (sub & Hsub & Hwfsub & Hrel).
    rewrite Hsub.
    destruct (decide (k' = k)) as [->|Hk].
    + rewrite !stored_cons, (deref_assign _ _ _ _ Hsub).
      rewrite IH; [|simpl in *; lia|congruence|done].
      destruct Hrel as [->|[-> ->]]; [done|apply stored_nil].
    + etrans; [apply stored_find_ext, nodes_find_alter_other; done|].
      apply stored_find_ext, nodes_find_insert_other. done.
Qed.

Lemma stored_tree_remove_other c :
  forall c2 x,
    length c2 = length c -> c2 <> c ->
    stored (snd (tree_remove c x)) c2 = stored x c2.
Proof.
  induction c as [|k c IH]; [done|]. intros c2 x Hlen Hne.
  destruct c2 as [|k' c2]; [done|]. destruct c as [|k2 c].
  - destruct c2; [|done]. cbn [tree_remove stored].
    rewrite nodes_find_remove_other; [done|congruence].
  - destruct c2 as [|k2' c2]; [done|].
    rewrite tree_remove_cons.
    destruct (deref x [k]) as [sub|] eqn:Hsub; [|done].
    specialize (IH (k2' :: c2) sub).
    destruct (tree_remove (k2 :: c) sub) as [rm sub']. cbn [snd] in *.
    destruct (decide (k' = k)) as [->|Hk].
    + rewrite !stored_cons, (deref_assign _ _ _ _ Hsub), Hsub.
      apply IH; [simpl in *; lia|congruence].
    + apply stored_find_ext, nodes_find_alter_other. done.
Qed.


(** ** The three accessors on a well-formed storage *)

Lemma wf_storage_spec s :
  wf_storage s = true <->
  (1 <= rank s)%nat /\ well_nested (rank s - 1) (rows s) = true.
Proof. unfold wf_storage. rewrite andb_true_iff, Nat.leb_le. done. Qed.

Lemma tuple_nonempty s slice :
  wf_storage s = true -> length (coords slice) = rank s -> coords slice <> [].
Proof. intros [? _]%wf_storage_spec Hlen E. rewrite E in Hlen. simpl in Hlen. lia. Qed.

Lemma list_storage_ref_spec slice s :
  wf_storage s = true -> length (coords slice) = rank s ->
  list_storage_ref slice s =
    (Done (default (VScalar (default_val s)) (stored (rows s) (coords slice))), s).
Proof.
  intros Hwf Hlen. pose proof (tuple_nonempty _ _ Hwf Hlen) as Hne.
  apply wf_storage_spec in Hwf as [Hrk Hwf].
  unfold list_storage_ref. rewrite (bind_Done _ _ _ _ _ (gets_Done _ _)).
  rewrite <- Hlen in *. by apply (list_storage_ref_from_spec slice s (coords slice) []).
Qed.

Lemma list_storage_insert_spec slice v s :
  wf_storage s = true -> length (coords slice) = rank s ->
  list_storage_insert slice v s =
    (Done v, set_rows s (tree_insert (coords slice) v (rows s))).
Proof.
  intros Hwf Hlen. pose proof (tuple_nonempty _ _ Hwf Hlen) as Hne.
  apply wf_storage_spec in Hwf as [Hrk Hwf].
  unfold list_storage_insert. rewrite (bind_Done _ _ _ _ _ (gets_Done _ _)).
  rewrite <- Hlen in *. by apply (list_storage_insert_from_spec slice v s (coords slice) []).
Qed.

Lemma list_storage_remove_spec slice s :
  wf_storage s = true -> length (coords slice) = rank s ->
  list_storage_remove slice s =
    match deref (rows s) (removelast (coords slice)) with
    | Some _ =>
        (Done (stored (rows s) (coords slice)),
         set_rows s (snd (tree_remove (coords slice) (rows s))))
    | None => (Undefined, s)
    end.
Proof.
  intros Hwf Hlen. pose proof (tuple_nonempty _ _ Hwf Hlen) as Hne.
  apply wf_storage_spec in Hwf as [Hrk Hwf].
  unfold list_storage_remove. rewrite (bind_Done _ _ _ _ _ (gets_Done _ _)).
  rewrite <- tree_remove_fst. rewrite <- Hlen in *.
  apply (list_storage_remove_from_spec slice s (coords slice) []); try done.
  - cbn [ALLOCA_N cells]. rewrite length_replicate. lia.
  - simpl. lia.
Qed.

Lemma wf_storage_insert slice a s :
  wf_storage s = true -> length (coords slice) = rank s ->
  wf_storage (set_rows s (tree_insert (coords slice) (VScalar a) (rows s))) = true.
Proof.
  intros Hwf Hlen. pose proof (tuple_nonempty _ _ Hwf Hlen) as Hne.
  apply wf_storage_spec in Hwf as [Hrk Hwf]. apply wf_storage_spec. split; [done|].
  simpl. rewrite <- Hlen in *. by apply well_nested_tree_insert.
Qed.

Lemma wf_storage_remove slice s :
  wf_storage s = true -> length (coords slice) = rank s ->
  wf_storage (set_rows s (snd (tree_remove (coords slice) (rows s)))) = true.
Proof.
  intros Hwf Hlen.
  apply wf_storage_spec in Hwf as [Hrk Hwf]. apply wf_storage_spec. split; [done|].
  simpl. rewrite <- Hlen in *. by apply well_nested_tree_remove.
Qed.

(** A storage built by calls that returned is well formed, and holds
    nothing at a tuple nothing was inserted at. *)
Lemma populated_by_spec cs s :
  populated_by cs s ->
  wf_storage s = true /\
  forall c, length c = rank s -> ~ In c cs -> stored (rows s) c = None.
Proof.
  induction 1 as [dt shp rk init_val Hrk
                 |cs s c a r s' _ [Hwf IH] Hlen Hcall
                 |cs s c r s' _ [Hwf IH] Hlen Hcall].
  - split.
    + apply wf_storage_spec. split; [done|apply well_nested_nil].
    + intros c _ _. apply stored_nil.
  - rewrite (list_storage_insert_spec (mkSLICE c) _ s Hwf Hlen) in Hcall.
    injection Hcall as _ <-. split; [by apply (wf_storage_insert (mkSLICE c))|].
    cbn [rank rows set_rows coords]. intros c2 Hlen2 Hnot.
    rewrite stored_tree_insert_other.
    + apply IH; [done|]. intros Hin. apply Hnot. by right.
    + congruence.
    + intros ->. apply Hnot. by left.
    + apply wf_storage_spec in Hwf as [_ Hwf]. by rewrite Hlen.
  - rewrite (list_storage_remove_spec (mkSLICE c) s Hwf Hlen) in Hcall.
    destruct (deref _ _); [|done].
    injection Hcall as _ <-. split; [by apply (wf_storage_remove (mkSLICE c))|].
    cbn [rank rows set_rows coords]. intros c2 Hlen2 Hnot.
    destruct (decide (c2 = c)) as [->|Hne].
    + apply stored_tree_remove.
      apply wf_storage_spec in Hwf as [_ Hwf]. by rewrite Hlen.
    + rewrite stored_tree_remove_other; [by apply IH|congruence|done].
Qed.

(** ** Calls that only read *)

Lemma read_only_ret {A} (a : A) : read_only (ret a : M A).
Proof. done. Qed.

Lemma read_only_bind {A B} (m : M A) (f : A -> M B) :
  read_only m -> (forall a, read_only (f a)) -> read_only (bind m f).
Proof.
  intros Hm Hf s. unfold bind. specialize (Hm s).
  destruct (m s) as [[a|e|] s']; simpl in Hm; subst; [apply Hf|done|done].
Qed.

Lemma read_only_gets {A} (f : LIST_STORAGE -> A) : read_only (gets f).
Proof. done. Qed.

Lemma read_only_from_option {A} (o : option A) : read_only (from_option o : M A).
Proof. by destruct o. Qed.

Lemma read_only_rb_raise {A} e : read_only (rb_raise e : M A).
Proof. done. Qed.

Lemma read_only_load (l : LISTp) : read_only (load l : M LIST).
Proof.
  apply read_only_bind; [apply read_only_gets|]. intros. apply read_only_from_option.
Qed.

Lemma read_only_list_find (l : LISTp) k : read_only (list_find l k : M (option NODEp)).
Proof.
  apply read_only_bind; [apply read_only_load|]. intros. apply read_only_ret.
Qed.

Lemma read_only_node_val (n : NODEp) : read_only (node_val n : M VAL).
Proof.
  apply read_only_bind; [apply read_only_load|]. intros. apply read_only_from_option.
Qed.

Lemma read_only_coord slice i : read_only (coord slice i : M N).
Proof. apply read_only_from_option. Qed.

Create HintDb read_only.

#[local] Hint Resolve read_only_ret read_only_gets read_only_from_option
  read_only_rb_raise read_only_load read_only_list_find read_only_node_val
  read_only_coord : read_only.

Lemma list_storage_ref_from_step slice r (l : LISTp) :
  (list_storage_ref_from slice (S (S r)) l : M VAL) =
    bind (gets rank) (fun rk =>
      bind (coord slice (rk - S (S r))) (fun k =>
        bind (list_find l k) (fun found =>
          match found with
          | Some nd => list_storage_ref_from slice (S r) (val_list nd)
          | None => bind (gets default_val) (fun dv => ret (VScalar dv))
          end))).
Proof. done. Qed.

Lemma read_only_list_storage_ref_from slice r :
  forall l : LISTp, read_only (list_storage_ref_from slice r l : M VAL).
Proof.
  assert (forall r (l : LISTp), (r <= 1)%nat ->
            read_only (list_storage_ref_from slice r l : M VAL)) as Hlast.
  { intros [|[|?]] l ?; [| |lia]; cbn [list_storage_ref_from];
      repeat (apply read_only_bind; [auto with read_only|intros]);
      (match goal with |- read_only (match ?o with _ => _ end) => destruct o end);
      repeat (apply read_only_bind; [auto with read_only|intros]);
      auto with read_only. }
  induction r as [|r IH]; intros l; [apply Hlast; lia|].
  destruct r as [|r]; [apply Hlast; lia|].
  rewrite list_storage_ref_from_step.
  repeat (apply read_only_bind; [auto with read_only|intros]).
  match goal with |- read_only (match ?o with _ => _ end) => destruct o end.
  - apply IH.
  - repeat (apply read_only_bind; [auto with read_only|intros]). auto with read_only.
Qed.

Lemma read_only_list_storage_ref slice : read_only (list_storage_ref slice : M VAL).
Proof.
  apply read_only_bind; [auto with read_only|]. intros.
  apply read_only_list_storage_ref_from.
Qed.


(** ** Point access: lookup, insertion, removal *)

(** C5. On a well-formed storage, for a coordinate tuple of length [rank]
    and any scalar, [list_storage_insert] succeeds, returns the stored
    value and leaves the storage in which every missing intermediate list
    was created and the leaf overwritten; a lookup at the same tuple then
    returns that value. *)
Theorem insert_then_ref s slice (a : scalar) :
  wf_storage s = true ->
  length (coords slice) = rank s ->
  exists s',
    list_storage_insert slice (VScalar a) s = (Done (VScalar a), s') /\
    rows s' = tree_insert (coords slice) (VScalar a) (rows s) /\
    wf_storage s' = true /\
    list_storage_ref slice s' = (Done (VScalar a), s').
Proof.
  intros Hwf Hlen. eexists. split; [by apply list_storage_insert_spec|].
  pose proof (wf_storage_insert slice a s Hwf Hlen) as Hwf'.
  split; [done|]. split; [done|].
  rewrite list_storage_ref_spec by done. cbn [rows set_rows].
  rewrite stored_tree_insert; [done|by eapply tuple_nonempty|].
  apply wf_storage_spec in Hwf as [_ Hwf]. by rewrite Hlen.
Qed.

(** C3. On a well-formed storage, inserting a scalar at a coordinate tuple
    of length [rank] and then removing at that tuple returns the scalar, and
    a lookup at the tuple afterwards returns the default scalar. *)
Theorem insert_remove_ref s slice (a : scalar) :
  wf_storage s = true ->
  length (coords slice) = rank s ->
  exists s1 s2,
    list_storage_insert slice (VScalar a) s = (Done (VScalar a), s1) /\
    list_storage_remove slice s1 = (Done (Some (VScalar a)), s2) /\
    list_storage_ref slice s2 = (Done (VScalar (default_val s)), s2).
Proof.
  intros Hwf Hlen.
  pose proof (wf_storage_insert slice a s Hwf Hlen) as Hwf1.
  set (s1 := set_rows s _) in Hwf1.
  assert (length (coords slice) = rank s1) as Hlen1 by done.
  pose proof (wf_storage_remove slice s1 Hwf1 Hlen1) as Hwf2.
  pose proof (tuple_nonempty _ _ Hwf Hlen) as Hne.
  assert (well_nested (length (coords slice) - 1) (rows s) = true) as Hn.
  { apply wf_storage_spec in Hwf as [_ Hwf]. by rewrite Hlen. }
  assert (well_nested (length (coords slice) - 1) (rows s1) = true) as Hn1.
  { apply wf_storage_spec in Hwf1 as [_ Hwf1]. by rewrite Hlen1. }
  exists s1, (set_rows s1 (snd (tree_remove (coords slice) (rows s1)))).
  split; [by apply list_storage_insert_spec|].
  assert (stored (rows s1) (coords slice) = Some (VScalar a)) as Hs
    by exact (stored_tree_insert (coords slice) (VScalar a) (rows s) Hne Hn).
  split.
  - rewrite list_storage_remove_spec by done.
    destruct (stored_chain _ _ _ Hs) as [sub Hsub]. by rewrite Hsub, Hs.
  - rewrite list_storage_ref_spec by done. cbn [rows set_rows].
    by rewrite stored_tree_remove.
Qed.

(** C4. For a coordinate tuple of length [rank], in a storage that was
    built by calls none of which inserted at the tuple, or in a well-formed
    storage where the node chain of the tuple is missing at some level, the
    lookup returns the default scalar and leaves the storage as it was; and
    a lookup changes no storage at all. *)
Theorem ref_absent_is_default s slice :
  length (coords slice) = rank s ->
  (exists cs, populated_by cs s /\ ~ In (coords slice) cs) \/
  (wf_storage s = true /\ forall v, ~ node_chain (rows s) (coords slice) v) ->
  list_storage_ref slice s = (Done (VScalar (default_val s)), s) /\
  read_only (list_storage_ref slice : M VAL).
Proof.
  intros Hlen Habsent. split; [|apply read_only_list_storage_ref].
  assert (wf_storage s = true /\ stored (rows s) (coords slice) = None) as [Hwf Hs].
  { destruct Habsent as [(cs & Hcs & Hnot)|[Hwf Hno]].
    - destruct (populated_by_spec _ _ Hcs) as [Hwf Hnone]. auto.
    - split; [done|].
      destruct (stored (rows s) (coords slice)) as [v|] eqn:E; [|done].
      exfalso. apply (Hno v).
      apply node_chain_stored; [by eapply tuple_nonempty| |done].
      apply wf_storage_spec in Hwf as [_ Hwf]. by rewrite Hlen. }
  rewrite list_storage_ref_spec by done. by rewrite Hs.
Qed.

(** Removing at a coordinate tuple whose intermediate nodes are all there
    but whose leaf is missing returns the null pointer and leaves the
    storage as it was. *)
Lemma list_storage_remove_absent_leaf s slice :
  wf_storage s = true ->
  length (coords slice) = rank s ->
  is_Some (deref (rows s) (removelast (coords slice))) ->
  (forall v, ~ node_chain (rows s) (coords slice) v) ->
  list_storage_remove slice s = (Done None, s).
Proof.
  intros Hwf Hlen [sub Hsub] Hno.
  assert (stored (rows s) (coords slice) = None) as Hs.
  { destruct (stored (rows s) (coords slice)) as [v|] eqn:E; [|done].
    exfalso. apply (Hno v). apply node_chain_stored; [by eapply tuple_nonempty| |done].
    apply wf_storage_spec in Hwf as [_ Hwf]. by rewrite Hlen. }
  rewrite list_storage_remove_spec by done.
  by rewrite Hsub, Hs, (tree_remove_absent _ _ Hs), set_rows_same.
Qed.

(** Removing at a coordinate tuple one of whose intermediate nodes is
    missing reaches [free(stack)]: the call has no defined outcome. *)
Lemma list_storage_remove_absent_branch s slice :
  wf_storage s = true ->
  length (coords slice) = rank s ->
  deref (rows s) (removelast (coords slice)) = None ->
  list_storage_remove slice s = (Undefined, s).
Proof.
  intros Hwf Hlen Hnone. rewrite list_storage_remove_spec by done. by rewrite Hnone.
Qed.

(** C9. [list_storage_get] raises [NotImplementedError] for every storage
    and every slice, and leaves the storage as it was. *)
Theorem get_not_implemented s slice :
  list_storage_get slice s = (Raised rb_eNotImpError, s : LIST_STORAGE).
Proof. done. Qed.


(** ** Equality *)

Lemma list_eqeq_value_spec dt (v : scalar) d :
  forall x checked,
    (forall n, In n x -> node_nested d n) ->
    exists cnt,
      list_eqeq_value ElemEqEq dt d v x checked =
        Some (forallb (fun a => ElemEqEq dt a v) (leaves d x), cnt) /\
      (forallb (fun a => ElemEqEq dt a v) (leaves d x) = true ->
       cnt = checked + N.of_nat (length (leaves d x))).
Proof.
  induction d as [|d IHd]; induction x as [|n rest IHx]; intros checked Hn.
  - exists checked. split; [done|]. simpl. intros _. lia.
  - destruct (Hn n (or_introl eq_refl)) as [a Ha].
    assert (leaves 0 (n :: rest) = a :: leaves 0 rest) as Hl by (simpl; by rewrite Ha).
    rewrite Hl. cbn [list_eqeq_value forallb length]. rewrite Ha.
    destruct (ElemEqEq dt a v); [|eexists; split; [done|done]].
    destruct (IHx (checked + 1)) as (cnt & Hc & Hcount); [intros; apply Hn; by right|].
    exists cnt. split; [exact Hc|]. intros Hall. rewrite (Hcount Hall). lia.
  - exists checked. split; [done|]. simpl. intros _. lia.
  - destruct (Hn n (or_introl eq_refl)) as (sub & Hv & Hsub).
    assert (leaves (S d) (n :: rest) = leaves d sub ++ leaves (S d) rest) as Hl
      by (simpl; by rewrite Hv).
    rewrite Hl, forallb_app, length_app. cbn [list_eqeq_value]. rewrite Hv.
    apply well_nested_spec in Hsub as [_ Hsub].
    destruct (IHd sub checked Hsub) as (cnt1 & -> & Hcount1).
    destruct (forallb _ (leaves d sub)); [|eexists; split; [done|done]].
    destruct (IHx cnt1) as (cnt & Hc & Hcount); [intros; apply Hn; by right|].
    exists cnt. split; [exact Hc|]. cbn [andb]. intros Hall.
    rewrite (Hcount Hall), Hcount1 by done. lia.
Qed.

Lemma well_nested_nodes d x :
  well_nested d x = true -> forall n, In n x -> node_nested d n.
Proof. by intros [_ H]%well_nested_spec. Qed.

(** For two well-formed storages of the same rank: when both root lists
    are empty, [list_storage_eqeq] is the equality of the two default
    scalars; when exactly one is empty, it is true exactly when every
    scalar reachable in the other equals the default of the empty one and,
    should fewer scalars have been visited than [max_elements] says, the two
    defaults are equal as well.  [max_elements] is the [size_t] that
    [storage_count_max_elements] returns. *)
Theorem eqeq_with_empty_side (left right : LIST_STORAGE) :
  wf_storage left = true ->
  wf_storage right = true ->
  rank left = rank right ->
  let dt := dtype left in
  let depth := (rank left - 1)%nat in
  let max_elements := storage_count_max_elements (rank left) (shape left) in
  let defaults_equal := ElemEqEq dt (default_val left) (default_val right) in
  (rows left = [] -> rows right = [] ->
   list_storage_eqeq ElemEqEq left right = Some defaults_equal) /\
  (rows left = [] -> rows right <> [] ->
   exists b, list_storage_eqeq ElemEqEq left right = Some b /\
     (b = true <->
      (forall a, In a (leaves depth (rows right)) ->
                 ElemEqEq dt a (default_val left) = true) /\
      (N.of_nat (length (leaves depth (rows right))) < max_elements ->
       defaults_equal = true))) /\
  (rows right = [] -> rows left <> [] ->
   exists b, list_storage_eqeq ElemEqEq left right = Some b /\
     (b = true <->
      (forall a, In a (leaves depth (rows left)) ->
                 ElemEqEq dt a (default_val right) = true) /\
      (N.of_nat (length (leaves depth (rows left))) < max_elements ->
       defaults_equal = true))).
Proof.
  intros [_ Hl]%wf_storage_spec [_ Hr]%wf_storage_spec Hrk. rewrite <- Hrk in Hr.
  intros dt depth max_elements defaults_equal.
  assert (forall x (v : scalar),
            well_nested depth x = true -> x <> [] ->
            exists b,
              match list_eqeq_value ElemEqEq dt depth v x 0 with
              | None => None
              | Some (false, _) => Some false
              | Some (true, num_checked) =>
                  if num_checked <? max_elements then Some defaults_equal
                  else Some true
              end = Some b /\
              (b = true <->
               (forall a, In a (leaves depth x) -> ElemEqEq dt a v = true) /\
               (N.of_nat (length (leaves depth x)) < max_elements ->
                defaults_equal = true))) as Hside.
  { intros x v Hx _.
    destruct (list_eqeq_value_spec dt v depth x 0 (well_nested_nodes _ _ Hx))
      as (cnt & -> & Hcount).
    destruct (forallb _ (leaves depth x)) eqn:Hall.
    - rewrite (Hcount eq_refl), N.add_0_l.
      pose proof (proj1 (forallb_forall _ _) Hall) as Hall'.
      destruct (N.ltb_spec (N.of_nat (length (leaves depth x))) max_elements).
      + exists defaults_equal. split; [done|]. split; [by intros ->|]. intros [_ H']; auto.
      + exists true. split; [done|]. split; [|done]. intros _. split; [done|lia].
    - exists false. split; [done|]. split; [done|]. intros [H' _].
      apply forallb_forall in H'. congruence. }
  unfold list_storage_eqeq. fold dt depth max_elements defaults_equal.
  repeat split.
  - by intros -> ->.
  - intros -> Hne. destruct (rows right) as [|n x] eqn:E; [done|].
    by apply Hside.
  - intros -> Hne. destruct (rows left) as [|n x] eqn:E; [done|].
    by apply Hside.
Qed.

Lemma storage_count_max_elements_spec rk (shp : list N) :
  storage_count_max_elements rk shp = shape_product rk shp mod 2 ^ 64.
Proof.
  unfold storage_count_max_elements, shape_product.
  induction (take rk shp) as [|e rest IH]; [done|].
  cbn [foldr]. unfold size_t_mul at 1. rewrite IH.
  by rewrite N.Div0.mul_mod_idemp_r.
Qed.

Lemma storage_count_max_elements_in_range rk (shp : list N) :
  shape_product rk shp < 2 ^ 64 ->
  storage_count_max_elements rk shp = shape_product rk shp.
Proof.
  intros Hlt. rewrite storage_count_max_elements_spec. by apply N.mod_small.
Qed.

(** The same with [max_elements] the product of the extents, for a shape
    whose product is below [2 ^ 64]. *)
Lemma eqeq_with_empty_side_in_range (left right : LIST_STORAGE) :
  wf_storage left = true ->
  wf_storage right = true ->
  rank left = rank right ->
  shape_product (rank left) (shape left) < 2 ^ 64 ->
  let dt := dtype left in
  let depth := (rank left - 1)%nat in
  let max_elements := shape_product (rank left) (shape left) in
  let defaults_equal := ElemEqEq dt (default_val left) (default_val right) in
  (rows left = [] -> rows right = [] ->
   list_storage_eqeq ElemEqEq left right = Some defaults_equal) /\
  (rows left = [] -> rows right <> [] ->
   exists b, list_storage_eqeq ElemEqEq left right = Some b /\
     (b = true <->
      (forall a, In a (leaves depth (rows right)) ->
                 ElemEqEq dt a (default_val left) = true) /\
      (N.of_nat (length (leaves depth (rows right))) < max_elements ->
       defaults_equal = true))) /\
  (rows right = [] -> rows left <> [] ->
   exists b, list_storage_eqeq ElemEqEq left right = Some b /\
     (b = true <->
      (forall a, In a (leaves depth (rows left)) ->
                 ElemEqEq dt a (default_val right) = true) /\
      (N.of_nat (length (leaves depth (rows left))) < max_elements ->
       defaults_equal = true))).
Proof.
  intros Hl Hr Hrk Hrange. cbv zeta.
  rewrite <- (storage_count_max_elements_in_range _ _ Hrange).
  by apply eqeq_with_empty_side.
Qed.


(** ** Counting the stored elements off the diagonal *)

Lemma count_nd_row_spec i js :
  forall count,
    count_nd_row i js count =
      count + N.of_nat (length (List.filter (fun ij => negb (fst ij =? snd ij))
                                  (map (fun j : NODE => (i, key j)) js))).
Proof.
  induction js as [|j js IH]; intros count; simpl; [lia|].
  rewrite IH. destruct (i =? key j); simpl; lia.
Qed.

Lemma count_nd_rows_spec x :
  forall count,
    (forall n, In n x -> node_nested 1 n) ->
    count_nd_rows x count =
      Some (count + N.of_nat (length (List.filter (fun ij => negb (fst ij =? snd ij))
                                        (stored_pairs x)))).
Proof.
  induction x as [|i x IH]; intros count Hn; simpl.
  - f_equal. lia.
  - destruct (Hn i (or_introl eq_refl)) as (js & -> & _).
    rewrite IH by (intros; apply Hn; by right).
    rewrite count_nd_row_spec, List.filter_app, length_app. f_equal. lia.
Qed.

Lemma read_only_count_list_storage_nd_elements :
  read_only (count_list_storage_nd_elements : M N).
Proof.
  unfold count_list_storage_nd_elements.
  apply read_only_bind; [auto with read_only|]. intros rk.
  apply read_only_bind; [case_bool_decide; auto with read_only|]. intros _.
  apply read_only_bind; auto with read_only.
Qed.

(** C10. [count_list_storage_nd_elements] never changes the storage; it
    raises [NotImplementedError] when the rank is not 2; for a well-formed
    storage of rank 2 it returns the number of stored nodes whose row key
    differs from their column key. *)
Theorem count_nd_elements_rank_2 s :
  read_only (count_list_storage_nd_elements : M N) /\
  (rank s <> 2%nat ->
   count_list_storage_nd_elements s = (Raised rb_eNotImpError, s)) /\
  (rank s = 2%nat -> wf_storage s = true ->
   count_list_storage_nd_elements s =
     (Done (N.of_nat (length (List.filter (fun ij => negb (fst ij =? snd ij))
                                (stored_pairs (rows s))))), s)).
Proof.
  split; [apply read_only_count_list_storage_nd_elements|].
  unfold count_list_storage_nd_elements, bind. cbn [gets]. split.
  - intros Hrk. by rewrite bool_decide_true.
  - intros Hrk [_ Hwf]%wf_storage_spec. rewrite Hrk in *.
    rewrite bool_decide_false by (intros H; by apply H). cbn [ret].
    rewrite (count_nd_rows_spec _ 0 (well_nested_nodes _ _ Hwf)). done.
Qed.


(** ** Copying *)

Lemma list_eqeq_list_same dt (dl dr : scalar) d n rest checked :
  list_eqeq_list ElemEqEq dt d dl dr (n :: rest) (n :: rest) checked =
    match
      match d, val n, val n with
      | O, VScalar a, VScalar b => Some (ElemEqEq dt a b, checked + 1)
      | S d', VList lsub, VList rsub =>
          list_eqeq_list ElemEqEq dt d' dl dr lsub rsub checked
      | _, _, _ => None
      end
    with
    | Some (true, cnt) => list_eqeq_list ElemEqEq dt d dl dr rest rest cnt
    | other => other
    end.
Proof. destruct d; simpl; by rewrite N.eqb_refl. Qed.

Lemma list_eqeq_list_refl dt (dl dr : scalar) :
  (forall a, ElemEqEq dt a a = true) ->
  forall d x checked,
    (forall n, In n x -> node_nested d n) ->
    exists cnt, list_eqeq_list ElemEqEq dt d dl dr x x checked = Some (true, cnt).
Proof.
  intros Hrefl. induction d as [|d IHd]; induction x as [|n rest IHx]; intros checked Hn.
  - by exists checked.
  - rewrite list_eqeq_list_same. destruct (Hn n (or_introl eq_refl)) as [a ->].
    rewrite Hrefl. apply IHx. intros; apply Hn; by right.
  - by exists checked.
  - rewrite list_eqeq_list_same.
    destruct (Hn n (or_introl eq_refl)) as (sub & -> & Hsub).
    destruct (IHd sub checked (well_nested_nodes _ _ Hsub)) as (cnt & ->).
    apply IHx. intros; apply Hn; by right.
Qed.

Lemma list_storage_eqeq_refl s :
  wf_storage s = true ->
  (forall a, ElemEqEq (dtype s) a a = true) ->
  list_storage_eqeq ElemEqEq s s = Some true.
Proof.
  intros [_ Hwf]%wf_storage_spec Hrefl. unfold list_storage_eqeq.
  destruct (rows s) as [|n x] eqn:E; [by rewrite Hrefl|].
  destruct (list_eqeq_list_refl (dtype s) (default_val s) (default_val s) Hrefl
              (rank s - 1) (n :: x) 0 (well_nested_nodes _ _ Hwf)) as (cnt & ->).
  rewrite Hrefl. by destruct (_ <? _).
Qed.

Lemma leaves_cons d n x :
  leaves d (n :: x) =
    match d, val n with
    | O, VScalar a => [a]
    | S d', VList sub => leaves d' sub
    | _, _ => []
    end ++ leaves d x.
Proof. by destruct d. Qed.



(** [list_storage_create] over located blocks is [list_storage_create]. *)
Lemma erase_located_storage_create dt shape_at shp rk init_at (init_val : scalar) next :
  erase (fst (located_storage_create dt shape_at shp rk init_at init_val next)) =
    (list_storage_create dt shp rk init_val : LIST_STORAGE).
Proof. done. Qed.

Lemma erase_nodes_cons (n : addr * (N * LVAL scalar)) (x : LNODES) :
  erase_nodes (n :: x) = (fst (snd n), erase_val (snd (snd n))) :: erase_nodes x.
Proof. done. Qed.

Lemma list_cast_copy_contents_cons convert d (rcurr : addr * (N * LVAL scalar))
    (rnext : LNODES) next :
  list_cast_copy_contents convert d (rcurr :: rnext) next =
    match d, snd (snd rcurr) with
    | O, LScalar _ a =>
        '(lnext, next') ← list_cast_copy_contents convert d rnext (next + 1 + 1);
        Some ((next, (fst (snd rcurr), LScalar (next + 1) (convert a))) :: lnext, next')
    | S d', LList _ sub =>
        '(lsub, next1) ← list_cast_copy_contents convert d' sub (next + 1 + 1);
        '(lnext, next') ← list_cast_copy_contents convert d rnext next1;
        Some ((next, (fst (snd rcurr), LList (next + 1) lsub)) :: lnext, next')
    | _, _ => None
    end.
Proof. by destruct d. Qed.





(** ** Dense to list conversion *)

Section DenseProperties.

Context {RDType : Type}.
Variable RD_neq : RDType -> addr -> bool.
Variable static_cast : RDType -> scalar.

Abbreviation dense_frame := (dense_frame scalar).

Lemma dense_link_added (fr fr' : dense_frame) k v :
  dense_link fr k v = Some fr' -> f_added fr' = f_added fr.
Proof.
  unfold dense_link. destruct (f_lhs fr); [by intros [= <-]|].
  destruct (f_prev fr); cbn [mbind option_bind]; [|done].
  destruct (nodes_insert_after _ _ _ _); cbn [mbind option_bind]; [|done].
  by intros [= <-].
Qed.

Lemma dense_for_invariant (P : dense_frame -> Prop) i body :
  (forall fr fr', body fr = Some fr' -> P fr -> P fr') ->
  (forall fr pos crd,
      P fr -> P (mkFrame (f_lhs fr) (f_prev fr) (f_added fr) pos crd)) ->
  forall todo fr fr', dense_for i body todo fr = Some fr' -> P fr -> P fr'.
Proof.
  intros Hbody Hstep. induction todo as [|todo IH]; intros fr fr'; simpl.
  - by intros [= <-].
  - destruct (body fr) as [fr1|] eqn:E; [|done]. simpl.
    destruct (f_coords fr1 !! i); [|done]. simpl.
    intros H HP. apply (IH _ _ H). apply Hstep. by apply (Hbody fr).
Qed.

(** Above the leaf level [added] is never set: the call returns false
    whatever it linked into [lhs]. *)
Lemma dense_template_added_above_leaf rhs zero shp rk recursions lhs pos crd r :
  list_storage_cast_copy_contents_dense_template RD_neq static_cast rhs zero
    shp rk (S recursions) lhs pos crd = Some r ->
  fst (fst (fst r)) = false.
Proof.
  cbn [list_storage_cast_copy_contents_dense_template].
  case_bool_decide; [done|].
  destruct (shp !! _) as [extent|]; [|done]. cbn [mbind option_bind].
  destruct (crd !! _); [|done]. cbn [mbind option_bind].
  match goal with
  | |- context [dense_for ?i ?body ?todo ?fr0] =>
      destruct (dense_for i body todo fr0) as [fr'|] eqn:E; [|done];
      apply (dense_for_invariant (fun f => f_added f = false)) in E
  end.
  - intros [= <-]. exact E.
  - intros fr fr1. destruct (f_coords fr !! _); [|done]. cbn [mbind option_bind].
    destruct (list_storage_cast_copy_contents_dense_template _ _ _ _ _ _ _ _ _ _)
      as [[[[added_list sub_list] pos1] crd1]|]; [|done]. cbn [mbind option_bind].
    destruct added_list; cbn [negb].
    + intros Hl%dense_link_added. by rewrite Hl.
    + by intros [= <-].
  - done.
  - done.
Qed.

Lemma dense_template_drops_unadded rhs zero shp rk below lhs pos crd r :
  (forall sub pos1 crd1 r1,
      list_storage_cast_copy_contents_dense_template RD_neq static_cast rhs zero
        shp rk below sub pos1 crd1 = Some r1 -> fst (fst (fst r1)) = false) ->
  list_storage_cast_copy_contents_dense_template RD_neq static_cast rhs zero
    shp rk (S below) lhs pos crd = Some r ->
  snd (fst (fst r)) = lhs.
Proof.
  intros Hbelow.
  cbn [list_storage_cast_copy_contents_dense_template].
  case_bool_decide; [done|].
  destruct (shp !! _) as [extent|]; [|done]. cbn [mbind option_bind].
  destruct (crd !! _); [|done]. cbn [mbind option_bind].
  match goal with
  | |- context [dense_for ?i ?body ?todo ?fr0] =>
      destruct (dense_for i body todo fr0) as [fr'|] eqn:E; [|done];
      apply (dense_for_invariant (fun f => f_lhs f = lhs)) in E
  end.
  - intros [= <-]. exact E.
  - intros fr fr1. destruct (f_coords fr !! _); [|done]. cbn [mbind option_bind].
    destruct (list_storage_cast_copy_contents_dense_template _ _ _ _ _ _ _ _ _ _)
      as [[[[added_list sub_list] pos1] crd1]|] eqn:Hsub; [|done].
    apply Hbelow in Hsub. cbn [fst] in Hsub. subst added_list.
    cbn [mbind option_bind negb]. by intros [= <-].
  - done.
  - done.
Qed.

(** Two levels or more above the leaves nothing is ever linked: every
    candidate list comes back with [added_list] false and is deleted. *)
Lemma dense_template_drops_above_rank_2 rhs zero shp rk recursions lhs pos crd r :
  list_storage_cast_copy_contents_dense_template RD_neq static_cast rhs zero
    shp rk (S (S recursions)) lhs pos crd = Some r ->
  fst (fst (fst r)) = false /\ snd (fst (fst r)) = lhs.
Proof.
  intros H. split; [by eapply dense_template_added_above_leaf|].
  eapply dense_template_drops_unadded; [|exact H].
  intros sub pos1 crd1 r1. apply dense_template_added_above_leaf.
Qed.

End DenseProperties.


(** ** Removal does not prune *)

Lemma no_empty_branch_cons d n x :
  no_empty_branch (S d) (n :: x) =
    match val n with
    | VList [] => false
    | VList sub => no_empty_branch d sub
    | VScalar _ => true
    end && no_empty_branch (S d) x.
Proof. done. Qed.

Lemma no_empty_branch_assign d x k sub sub' :
  deref x [k] = Some sub ->
  sub' = [] \/ no_empty_branch d sub' = false ->
  no_empty_branch (S d) (assign x [k] sub') = false.
Proof.
  intros Hd Hbad. apply deref_one_inv in Hd. cbn [assign].
  induction x as [|n x IH]; [done|]. cbn [nodes_find] in Hd. cbn [alter_node].
  destruct (key n =? k); rewrite no_empty_branch_cons, andb_false_iff.
  - left. injection Hd as ->. cbn [val snd assign].
    destruct Hbad as [->|Hbad]; [done|]. rewrite Hbad. by destruct sub'.
  - right. by apply IH.
Qed.

(** Whenever the removed leaf was the only node of its list, the emptied
    list stays linked below the root. *)
Lemma tree_remove_keeps_empty_branch c :
  forall x v k,
    c <> [] ->
    deref x c = Some [(k, v)] ->
    tree_remove (c ++ [k]) x = (Some v, assign x c []) /\
    no_empty_branch (length c) (assign x c []) = false.
Proof.
  induction c as [|k1 c IH]; [done|]. intros x v k _ Hd.
  destruct c as [|k2 c].
  - cbn [app]. rewrite tree_remove_cons, Hd. cbn [tree_remove nodes_remove key fst].
    rewrite N.eqb_refl. split; [done|].
    apply (no_empty_branch_assign 0 x k1 [(k, v)]); [done|by left].
  - change ((k1 :: k2 :: c) ++ [k]) with (k1 :: (k2 :: c) ++ [k]).
    change ((k2 :: c) ++ [k]) with (k2 :: c ++ [k]) at 1.
    rewrite tree_remove_cons.
    change (k1 :: k2 :: c) with ([k1] ++ k2 :: c) in Hd. rewrite deref_app in Hd.
    destruct (deref x [k1]) as [sub|] eqn:E; [|done]. cbn [mbind option_bind] in Hd.
    destruct (IH sub v k) as [Hrm Hempty]; [done|done|].
    change (k2 :: c ++ [k]) with ((k2 :: c) ++ [k]). rewrite Hrm.
    change (k1 :: k2 :: c) with ([k1] ++ k2 :: c). rewrite (assign_app _ _ _ _ _ E).
    split; [done|].
    apply (no_empty_branch_assign (length (k2 :: c)) x k1 sub); [done|by right].
Qed.

Lemma list_storage_remove_keeps_empty_branch s slice c k v :
  wf_storage s = true ->
  coords slice = c ++ [k] ->
  rank s = S (length c) ->
  c <> [] ->
  deref (rows s) c = Some [(k, v)] ->
  exists s',
    list_storage_remove slice s = (Done (Some v), s') /\
    no_empty_branch (rank s' - 1) (rows s') = false.
Proof.
  intros Hwf Hc Hrk Hne Hd.
  destruct (tree_remove_keeps_empty_branch c (rows s) v k Hne Hd) as [Hrm Hempty].
  assert (length (coords slice) = rank s) as Hlen
    by (rewrite Hc, length_app; simpl; lia).
  exists (set_rows s (assign (rows s) c [])). split.
  - rewrite (list_storage_remove_spec _ _ Hwf Hlen).
    rewrite <- tree_remove_fst, Hc, removelast_last, Hd, Hrm. done.
  - cbn [rank rows set_rows]. rewrite Hrk.
    by replace (S (length c) - 1)%nat with (length c) by lia.
Qed.

(** ** More on point access *)

Lemma nodes_insert_replace_twice x k v w :
  nodes_insert (nodes_insert x true k v) true k w = nodes_insert x true k w.
Proof.
  induction x as [|n rest IH]; simpl.
  - by rewrite N.ltb_irrefl, N.eqb_refl.
  - destruct (N.ltb_spec k (key n)) as [Hlt|Hge]; simpl.
    + by rewrite N.ltb_irrefl, N.eqb_refl.
    + destruct (N.eqb_spec k (key n)) as [->|Hne]; simpl.
      * by rewrite N.ltb_irrefl, N.eqb_refl.
      * destruct (N.ltb_spec k (key n)); [lia|].
        destruct (N.eqb_spec k (key n)); [done|]. by rewrite IH.
Qed.

Lemma nodes_insert_keep_present x k v n :
  ascending x = true -> nodes_find x k = Some n ->
  nodes_insert x false k v = x.
Proof.
  induction x as [|m rest IH]; [done|]. intros Hasc Hn.
  cbn [nodes_insert]. destruct (N.ltb_spec k (key m)) as [Hlt|Hge].
  - by rewrite (ascending_find_below _ _ _ Hasc Hlt) in Hn.
  - destruct (N.eqb_spec k (key m)) as [->|Hne]; [done|].
    cbn [nodes_find] in Hn. destruct (N.eqb_spec (key m) k); [congruence|].
    apply ascending_cons in Hasc as [_ Hrest]. by rewrite IH.
Qed.

Lemma tree_insert_twice c v w :
  forall x, well_nested (length c - 1) x = true ->
            tree_insert c w (tree_insert c v x) = tree_insert c w x.
Proof.
  induction c as [|k c IH]; [done|]. intros x Hwf. destruct c as [|k2 c].
  - cbn [tree_insert]. apply nodes_insert_replace_twice.
  - cbn [length] in Hwf, IH.
    replace (S (S (length c)) - 1)%nat with (S (length c)) in Hwf by lia.
    replace (S (length c) - 1)%nat with (length c) in IH by lia.
    rewrite (tree_insert_cons k k2 c v x). cbn zeta.
    destruct (insert_keep_sub _ _ k Hwf) as (sub & Hsub & Hwfsub & _).
    rewrite Hsub.
    set (x1 := nodes_insert x false k (VList list_create)) in *.
    set (t1 := assign x1 [k] (tree_insert (k2 :: c) v sub)).
    assert (deref t1 [k] = Some (tree_insert (k2 :: c) v sub)) as Ht1
      by apply (deref_assign _ _ _ _ Hsub).
    assert (nodes_insert t1 false k (VList list_create) = t1) as Hkeep.
    { refine (nodes_insert_keep_present _ _ _ _ _ (deref_one_inv _ _ _ Ht1)).
      unfold t1. cbn [assign]. rewrite alter_node_ascending.
      apply nodes_insert_ascending. by eapply well_nested_ascending. }
    rewrite (tree_insert_cons k k2 c w t1). cbn zeta. rewrite Hkeep, Ht1.
    rewrite IH by done. unfold t1. rewrite (assign_assign _ _ _ _ _ Hsub).
    rewrite (tree_insert_cons k k2 c w x). cbn zeta. fold x1. by rewrite Hsub.
Qed.

Lemma stored_of_chain s slice v :
  wf_storage s = true -> length (coords slice) = rank s ->
  (node_chain (rows s) (coords slice) v <-> stored (rows s) (coords slice) = Some v).
Proof.
  intros Hwf Hlen. apply node_chain_stored; [by eapply tuple_nonempty|].
  apply wf_storage_spec in Hwf as [_ Hwf]. by rewrite Hlen.
Qed.

(** X1. On a well-formed storage, the lookup at a coordinate tuple of
    length [rank] whose node chain ends in a value returns that value and
    leaves the storage as it was. *)
Theorem ref_returns_stored s slice v :
  wf_storage s = true ->
  length (coords slice) = rank s ->
  node_chain (rows s) (coords slice) v ->
  list_storage_ref slice s = (Done v, s).
Proof.
  intros Hwf Hlen Hv. apply (stored_of_chain _ _ _ Hwf Hlen) in Hv.
  rewrite list_storage_ref_spec by done. by rewrite Hv.
Qed.

(** X2. Inserting at one coordinate tuple changes the lookup at no other
    tuple of length [rank]. *)
Theorem insert_keeps_other_lookups s slice slice' (a : scalar) :
  wf_storage s = true ->
  length (coords slice) = rank s ->
  length (coords slice') = rank s ->
  coords slice' <> coords slice ->
  exists s',
    list_storage_insert slice (VScalar a) s = (Done (VScalar a), s') /\
    fst (list_storage_ref slice' s') = fst (list_storage_ref slice' s).
Proof.
  intros Hwf Hlen Hlen' Hne. eexists. split; [by apply list_storage_insert_spec|].
  pose proof (wf_storage_insert slice a s Hwf Hlen) as Hwf'.
  rewrite !list_storage_ref_spec by done. cbn [fst rows set_rows default_val].
  rewrite stored_tree_insert_other; [done|congruence|done|].
  apply wf_storage_spec in Hwf as [_ Hwf]. by rewrite Hlen.
Qed.

(** X3. Inserting twice at the same coordinate tuple leaves the storage
    that the second insertion alone would have left: the later value
    replaces the earlier one and nothing else changes. *)
Theorem insert_overwrites s slice (a b : scalar) :
  wf_storage s = true ->
  length (coords slice) = rank s ->
  exists s1 s2,
    list_storage_insert slice (VScalar a) s = (Done (VScalar a), s1) /\
    list_storage_insert slice (VScalar b) s1 = (Done (VScalar b), s2) /\
    list_storage_insert slice (VScalar b) s = (Done (VScalar b), s2).
Proof.
  intros Hwf Hlen.
  pose proof (wf_storage_insert slice a s Hwf Hlen) as Hwf1.
  eexists _, _. split; [by apply list_storage_insert_spec|].
  split; [by apply list_storage_insert_spec|].
  rewrite list_storage_insert_spec by done. cbn [rows set_rows].
  rewrite tree_insert_twice; [done|].
  apply wf_storage_spec in Hwf as [_ Hwf]. by rewrite Hlen.
Qed.

(** X4. Removing at a coordinate tuple whose node chain ends in a value
    returns that value and leaves a well-formed storage in which the lookup
    at the tuple gives the default scalar. *)
Theorem remove_returns_stored s slice v :
  wf_storage s = true ->
  length (coords slice) = rank s ->
  node_chain (rows s) (coords slice) v ->
  exists s',
    list_storage_remove slice s = (Done (Some v), s') /\
    wf_storage s' = true /\
    list_storage_ref slice s' = (Done (VScalar (default_val s)), s').
Proof.
  intros Hwf Hlen Hv. apply (stored_of_chain _ _ _ Hwf Hlen) in Hv.
  pose proof (wf_storage_remove slice s Hwf Hlen) as Hwf'.
  destruct (stored_chain _ _ _ Hv) as [sub Hsub].
  eexists. split; [|split; [exact Hwf'|]].
  - rewrite list_storage_remove_spec by done. by rewrite Hsub, Hv.
  - rewrite list_storage_ref_spec by done. cbn [rows set_rows default_val].
    rewrite stored_tree_remove; [done|].
    apply wf_storage_spec in Hwf as [_ Hwf]. by rewrite Hlen.
Qed.

(** X5. A removal that returns leaves a well-formed storage and changes the
    lookup at no other tuple of length [rank]. *)
Theorem remove_keeps_other_lookups s slice slice' r s' :
  wf_storage s = true ->
  length (coords slice) = rank s ->
  length (coords slice') = rank s ->
  coords slice' <> coords slice ->
  list_storage_remove slice s = (Done r, s') ->
  wf_storage s' = true /\
  fst (list_storage_ref slice' s') = fst (list_storage_ref slice' s).
Proof.
  intros Hwf Hlen Hlen' Hne Hrm.
  rewrite list_storage_remove_spec in Hrm by done.
  destruct (deref _ _); [|done]. injection Hrm as _ <-.
  pose proof (wf_storage_remove slice s Hwf Hlen) as Hwf'. split; [done|].
  rewrite !list_storage_ref_spec by done. cbn [fst rows set_rows default_val].
  rewrite stored_tree_remove_other; [done|congruence|done].
Qed.

(** ** Counting every stored element *)

Lemma count_nodes_spec l : forall count, count_nodes l count = count + N.of_nat (length l).
Proof.
  induction l as [|n l IH]; intros count; simpl; [lia|]. rewrite IH. lia.
Qed.

Lemma leaves_leaf_level x :
  (forall n, In n x -> node_nested 0 n) -> length (leaves 0 x) = length x.
Proof.
  induction x as [|n x IH]; [done|]. intros Hn.
  rewrite leaves_cons, length_app, IH by (intros; apply Hn; by right).
  by destruct (Hn n (or_introl eq_refl)) as [a ->].
Qed.

Lemma list_storage_count_elements_r_spec d :
  forall x,
    (forall n, In n x -> node_nested d n) ->
    list_storage_count_elements_r x d = Some (N.of_nat (length (leaves d x))).
Proof.
  induction d as [|d IHd]; intros x Hn.
  - cbn [list_storage_count_elements_r].
    by rewrite count_nodes_spec, leaves_leaf_level, N.add_0_l.
  - cbn [list_storage_count_elements_r].
    enough (forall count,
               (fix loop (curr : LIST) (count : N) : option N :=
                  match curr with
                  | [] => Some count
                  | n :: next =>
                      match val n with
                      | VList sub =>
                          list_storage_count_elements_r sub d
                          ≫= fun cnt => loop next (count + cnt)
                      | VScalar _ => None
                      end
                  end) x count =
               Some (count + N.of_nat (length (leaves (S d) x)))) as H
      by (by rewrite H, N.add_0_l).
    induction x as [|n x IHx]; intros count.
    + simpl. f_equal. lia.
    + destruct (Hn n (or_introl eq_refl)) as (sub & Hv & Hsub).
      rewrite leaves_cons, length_app, Hv.
      rewrite (IHd sub (well_nested_nodes _ _ Hsub)). cbn [mbind option_bind].
      rewrite IHx by (intros; apply Hn; by right). f_equal. lia.
Qed.

(** The leaves of a list after a node was linked, replaced or unlinked. *)

Lemma leaves_insert_leaf x k (a : scalar) :
  ascending x = true ->
  (forall n, In n x -> node_nested 0 n) ->
  length (leaves 0 (nodes_insert x true k (VScalar a))) =
    (length (leaves 0 x) + match nodes_find x k with Some _ => 0 | None => 1 end)%nat.
Proof.
  intros Hasc Hn. rewrite !leaves_leaf_level; [|done|].
  - clear Hn. induction x as [|n x IH]; [done|]. cbn [nodes_insert].
    destruct (N.ltb_spec k (key n)) as [Hlt|Hge].
    + rewrite (ascending_find_below _ _ _ Hasc Hlt). simpl. lia.
    + cbn [nodes_find]. destruct (N.eqb_spec k (key n)) as [->|Hne].
      * rewrite N.eqb_refl. simpl. lia.
      * destruct (N.eqb_spec (key n) k); [congruence|].
        apply ascending_cons in Hasc as [_ Hasc]. cbn [length]. rewrite IH by done. lia.
  - intros n [->|Hin]%nodes_insert_In; [simpl; eauto|auto].
Qed.

Lemma leaves_insert_branch d x k :
  leaves (S d) (nodes_insert x false k (VList list_create)) = leaves (S d) x.
Proof.
  induction x as [|n x IH]; [simpl; by destruct d|]. cbn [nodes_insert].
  destruct (k <? key n).
  - rewrite (leaves_cons (S d) (k, VList list_create)). cbn [val snd].
    by destruct d.
  - destruct (k =? key n); [done|]. by rewrite !(leaves_cons (S d) n), IH.
Qed.

Lemma leaves_assign d x k sub sub' :
  deref x [k] = Some sub ->
  (length (leaves (S d) (assign x [k] sub')) + length (leaves d sub) =
   length (leaves (S d) x) + length (leaves d sub'))%nat.
Proof.
  intros Hd%deref_one_inv. cbn [assign].
  induction x as [|n x IH]; [done|]. cbn [nodes_find] in Hd. cbn [alter_node].
  destruct (key n =? k).
  - injection Hd as ->. rewrite !leaves_cons, !length_app. cbn [val snd assign]. lia.
  - rewrite !(leaves_cons (S d) n), !length_app. specialize (IH Hd). lia.
Qed.

Lemma leaves_remove_leaf x k :
  (forall n, In n x -> node_nested 0 n) ->
  (length (leaves 0 (snd (nodes_remove x k))) + (match nodes_find x k with Some _ => 1 | None => 0 end) =
   length (leaves 0 x))%nat.
Proof.
  intros Hn. rewrite !leaves_leaf_level;
    [|done|intros n Hin%nodes_remove_In; auto].
  clear Hn. induction x as [|n x IH]; [done|]. cbn [nodes_remove nodes_find].
  destruct (key n =? k); [simpl; lia|].
  destruct (nodes_remove x k) as [rm x'] eqn:E. cbn [snd length] in *. lia.
Qed.

Lemma leaves_tree_insert c (a : scalar) :
  forall x,
    c <> [] -> well_nested (length c - 1) x = true ->
    length (leaves (length c - 1) (tree_insert c (VScalar a) x)) =
      (length (leaves (length c - 1) x) + match stored x c with Some _ => 0 | None => 1 end)%nat.
Proof.
  induction c as [|k c IH]; [done|]. intros x _ Hwf. destruct c as [|k2 c].
  - cbn [tree_insert stored length]. cbn [length] in Hwf.
    rewrite leaves_insert_leaf;
      [|by eapply well_nested_ascending|by apply well_nested_nodes].
    by destruct (nodes_find x k).
  - cbn [length] in *.
    replace (S (S (length c)) - 1)%nat with (S (length c)) in * by lia.
    replace (S (length c) - 1)%nat with (length c) in IH by lia.
    rewrite tree_insert_cons, stored_cons. cbn zeta.
    destruct (insert_keep_sub _ _ k Hwf) as (sub & Hsub & Hwfsub & Hrel).
    rewrite Hsub.
    pose proof (leaves_assign (length c) _ k sub
                  (tree_insert (k2 :: c) (VScalar a) sub) Hsub) as Hl.
    rewrite leaves_insert_branch in Hl. rewrite (IH sub) in Hl by done.
    assert (match deref x [k] with
            | Some sub0 => stored sub0 (k2 :: c)
            | None => None
            end = stored sub (k2 :: c)) as ->.
    { destruct Hrel as [->|[-> ->]]; [done|]. by rewrite stored_nil. }
    lia.
Qed.

Lemma leaves_tree_remove c :
  forall x,
    c <> [] -> well_nested (length c - 1) x = true ->
    (length (leaves (length c - 1) (snd (tree_remove c x))) +
       (match stored x c with Some _ => 1 | None => 0 end) =
     length (leaves (length c - 1) x))%nat.
Proof.
  induction c as [|k c IH]; [done|]. intros x _ Hwf. destruct c as [|k2 c].
  - cbn [tree_remove stored length]. cbn [length] in Hwf.
    change (1 - 1)%nat with 0%nat in *.
    rewrite <- (leaves_remove_leaf x k) by (by apply well_nested_nodes).
    by destruct (nodes_find x k).
  - cbn [length] in *.
    replace (S (S (length c)) - 1)%nat with (S (length c)) in * by lia.
    replace (S (length c) - 1)%nat with (length c) in IH by lia.
    rewrite tree_remove_cons, stored_cons.
    destruct (deref x [k]) as [sub|] eqn:Hsub; [|cbn [snd]; lia].
    assert (well_nested (length c) sub = true) as Hwfsub.
    { apply deref_one_inv in Hsub.
      by destruct (well_nested_find _ _ _ _ Hwf Hsub) as (? & [= <-] & ?). }
    specialize (IH sub ltac:(done) Hwfsub).
    pose proof (leaves_assign (length c) x k sub
                  (snd (tree_remove (k2 :: c) sub)) Hsub) as Hl.
    destruct (tree_remove (k2 :: c) sub) as [rm sub']. cbn [snd] in *. lia.
Qed.

Lemma count_of_wf s :
  wf_storage s = true ->
  list_storage_count_elements_r (rows s) (rank s - 1) =
    Some (N.of_nat (length (leaves (rank s - 1) (rows s)))).
Proof.
  intros [_ Hwf]%wf_storage_spec.
  apply list_storage_count_elements_r_spec. by apply well_nested_nodes.
Qed.

(** X6. Inserting a scalar adds one to the element count when the tuple
    held nothing and leaves the count as it was when it replaced a stored
    value. *)
Theorem count_after_insert s slice (a : scalar) :
  wf_storage s = true ->
  length (coords slice) = rank s ->
  exists count s',
    list_storage_count_elements_r (rows s) (rank s - 1) = Some count /\
    list_storage_insert slice (VScalar a) s = (Done (VScalar a), s') /\
    ((exists v, node_chain (rows s) (coords slice) v) ->
     list_storage_count_elements_r (rows s') (rank s' - 1) = Some count) /\
    ((forall v, ~ node_chain (rows s) (coords slice) v) ->
     list_storage_count_elements_r (rows s') (rank s' - 1) = Some (count + 1)).
Proof.
  intros Hwf Hlen.
  pose proof (wf_storage_insert slice a s Hwf Hlen) as Hwf'.
  pose proof (tuple_nonempty _ _ Hwf Hlen) as Hne.
  eexists _, _. split; [by apply count_of_wf|].
  split; [by apply list_storage_insert_spec|].
  rewrite (count_of_wf _ Hwf'). cbn [rank rows set_rows].
  pose proof Hwf as [_ Hn]%wf_storage_spec. rewrite <- Hlen in Hn.
  rewrite <- Hlen. rewrite (leaves_tree_insert _ a _ Hne Hn). split.
  - intros [v Hv]. apply (stored_of_chain s slice v Hwf Hlen) in Hv.
    rewrite Hv. f_equal. lia.
  - intros Hno. destruct (stored (rows s) (coords slice)) as [v|] eqn:E.
    + exfalso. apply (Hno v). by apply (stored_of_chain s slice v Hwf Hlen).
    + f_equal. lia.
Qed.

(** X7. Removing a stored value takes one off the element count. *)
Theorem count_after_remove s slice v :
  wf_storage s = true ->
  length (coords slice) = rank s ->
  node_chain (rows s) (coords slice) v ->
  exists count s',
    list_storage_remove slice s = (Done (Some v), s') /\
    list_storage_count_elements_r (rows s') (rank s' - 1) = Some count /\
    list_storage_count_elements_r (rows s) (rank s - 1) = Some (count + 1).
Proof.
  intros Hwf Hlen Hv. apply (stored_of_chain _ _ _ Hwf Hlen) in Hv.
  pose proof (wf_storage_remove slice s Hwf Hlen) as Hwf'.
  pose proof (tuple_nonempty _ _ Hwf Hlen) as Hne.
  destruct (stored_chain _ _ _ Hv) as [sub Hsub].
  eexists _, _. split; [|split; [by apply count_of_wf|]].
  - rewrite list_storage_remove_spec by done. by rewrite Hsub, Hv.
  - rewrite (count_of_wf _ Hwf). cbn [rank rows set_rows].
    pose proof Hwf as [_ Hn]%wf_storage_spec. rewrite <- Hlen in Hn.
    rewrite <- Hlen.
    pose proof (leaves_tree_remove _ _ Hne Hn) as Hl. rewrite Hv in Hl.
    f_equal. lia.
Qed.

Lemma leaves_stored_pairs x :
  (forall n, In n x -> node_nested 1 n) ->
  length (leaves 1 x) = length (stored_pairs x).
Proof.
  induction x as [|n x IH]; [done|]. intros Hn.
  rewrite leaves_cons, length_app. unfold stored_pairs. cbn [flat_map].
  rewrite length_app. fold (stored_pairs x).
  rewrite IH by (intros; apply Hn; by right).
  destruct (Hn n (or_introl eq_refl)) as (sub & -> & Hsub).
  rewrite length_map, leaves_leaf_level; [done|by apply well_nested_nodes].
Qed.

Lemma filter_split {A} (f : A -> bool) (l : list A) :
  (length (List.filter f l) + length (List.filter (fun a => negb (f a)) l) =
   length l)%nat.
Proof.
  induction l as [|a l IH]; [done|]. simpl. destruct (f a); simpl; lia.
Qed.

(** X8. In a well-formed storage of rank 2 the element count is the count
    of the elements off the diagonal plus the number of stored nodes whose
    row key equals their column key; the count off the diagonal never
    exceeds the element count. *)
Theorem count_splits_at_diagonal s :
  wf_storage s = true ->
  rank s = 2%nat ->
  exists nd total,
    count_list_storage_nd_elements s = (Done nd, s) /\
    list_storage_count_elements_r (rows s) 1 = Some total /\
    total = nd + N.of_nat (length (List.filter (fun ij => fst ij =? snd ij)
                                     (stored_pairs (rows s)))) /\
    nd <= total.
Proof.
  intros Hwf Hrk. pose proof Hwf as [_ Hn]%wf_storage_spec. rewrite Hrk in Hn.
  cbn [Nat.sub] in Hn. pose proof (well_nested_nodes _ _ Hn) as Hnodes.
  eexists _, _. split; [|split; [by apply list_storage_count_elements_r_spec|]].
  - unfold count_list_storage_nd_elements, bind. cbn [gets]. rewrite Hrk.
    rewrite bool_decide_false by (intros H; by apply H). cbn [ret].
    by rewrite (count_nd_rows_spec _ 0 Hnodes).
  - rewrite leaves_stored_pairs by done. rewrite N.add_0_l.
    pose proof (filter_split (fun ij : N * N => fst ij =? snd ij)
                  (stored_pairs (rows s))) as Hsplit.
    split; lia.
Qed.

Lemma leaves_flat_map d x :
  leaves d x =
    flat_map (fun n => match d, val n with
                       | O, VScalar a => [a]
                       | S d', VList sub => leaves d' sub
                       | _, _ => []
                       end) x.
Proof. by destruct d. Qed.

Lemma node_chain_nonempty x c v : node_chain x c v -> c <> [].
Proof. by destruct 1. Qed.

Lemma leaves_of_chain x c v :
  node_chain x c v ->
  well_nested (length c - 1) x = true ->
  leaves (length c - 1) x <> [].
Proof.
  induction 1 as [l k v Hin|l k sub c v Hin Hch IH]; intros Hwf.
  - cbn [length Nat.sub] in *.
    destruct (well_nested_nodes _ _ Hwf _ Hin) as [a Ha]. simpl in Ha. subst v.
    intros Hnil. assert (In a (leaves 0 l)) as Ha; [|by rewrite Hnil in Ha].
    rewrite leaves_flat_map. apply in_flat_map. exists (k, VScalar a).
    split; [done|by left].
  - pose proof (node_chain_nonempty _ _ _ Hch) as Hne.
    destruct c as [|k2 c]; [done|]. cbn [length] in *.
    replace (S (S (length c)) - 1)%nat with (S (length c)) in * by lia.
    replace (S (length c) - 1)%nat with (length c) in IH by lia.
    destruct (well_nested_nodes _ _ Hwf _ Hin) as (sub' & [= <-] & Hsub).
    specialize (IH Hsub). destruct (leaves (length c) sub) as [|a rest] eqn:E; [done|].
    intros Hnil. assert (In a (leaves (S (length c)) l)) as Ha; [|by rewrite Hnil in Ha].
    rewrite leaves_flat_map. apply in_flat_map. exists (k, VList sub).
    split; [done|]. cbn [val snd]. rewrite E. by left.
Qed.

Lemma chain_of_leaves d :
  forall x, well_nested d x = true -> leaves d x <> [] ->
            exists c v, length c = S d /\ node_chain x c v.
Proof.
  induction d as [|d IH]; intros x Hwf Hne.
  - destruct x as [|[k v] x]; [done|]. exists [k], v. split; [done|].
    apply chain_leaf. by left.
  - destruct (leaves (S d) x) as [|a rest] eqn:E; [done|].
    assert (In a (leaves (S d) x)) as Ha by (rewrite E; by left).
    rewrite leaves_flat_map in Ha. apply in_flat_map in Ha as ([k v] & Hin & Ha).
    destruct (well_nested_nodes _ _ Hwf _ Hin) as (sub & Hv & Hsub).
    simpl in Hv. subst v. cbn [val snd] in Ha.
    destruct (IH sub Hsub) as (c & v & Hlen & Hch).
    { intros Hnil. by rewrite Hnil in Ha. }
    exists (k :: c), v. split; [simpl; lia|]. by apply (chain_branch _ _ sub).
Qed.

(** X9. The element count of a well-formed storage is zero exactly when no
    coordinate tuple of length [rank] leads to a stored value. *)
Theorem count_zero_iff_nothing_stored s :
  wf_storage s = true ->
  list_storage_count_elements_r (rows s) (rank s - 1) = Some 0 <->
  (forall c v, length c = rank s -> ~ node_chain (rows s) c v).
Proof.
  intros Hwf. rewrite (count_of_wf _ Hwf).
  pose proof Hwf as [Hrk Hn]%wf_storage_spec. split.
  - intros Hzero c v Hlen Hch.
    assert (leaves (rank s - 1) (rows s) = []) as Hnil.
    { destruct (leaves _ _); [done|]. injection Hzero as Hzero. simpl in Hzero. lia. }
    rewrite <- Hlen in *. by apply (leaves_of_chain _ _ _ Hch).
  - intros Hno. destruct (leaves (rank s - 1) (rows s)) eqn:E; [done|].
    destruct (chain_of_leaves _ _ Hn) as (c & v & Hlen & Hch); [by rewrite E|].
    exfalso. apply (Hno c v); [lia|done].
Qed.

(** ** More on equality *)

(** X10. With one root list empty, [list_storage_eqeq] gives the same
    answer whichever way round the two storages are passed, provided they
    have the same dtype, rank and shape and the element equality does not
    depend on the order of the two defaults. *)
Theorem eqeq_symmetric_with_empty_side (left right : LIST_STORAGE) :
  dtype left = dtype right ->
  rank left = rank right ->
  shape left = shape right ->
  ElemEqEq (dtype left) (default_val left) (default_val right) =
    ElemEqEq (dtype left) (default_val right) (default_val left) ->
  rows left = [] \/ rows right = [] ->
  list_storage_eqeq ElemEqEq left right = list_storage_eqeq ElemEqEq right left.
Proof.
  intros Hdt Hrk Hshp Hsym Hempty. unfold list_storage_eqeq.
  rewrite <- Hdt, <- Hrk, <- Hshp, Hsym.
  destruct (rows left), (rows right); try done. by destruct Hempty.
Qed.

(** X11. A well-formed storage is equal to itself, provided the element
    equality is reflexive. *)
Theorem eqeq_reflexive s :
  wf_storage s = true ->
  (forall a, ElemEqEq (dtype s) a a = true) ->
  list_storage_eqeq ElemEqEq s s = Some true.
Proof. apply list_storage_eqeq_refl. Qed.

(** ** Copying with a change of dtype *)

Lemma convert_leaves_unfold f d x :
  convert_leaves f d x = map (fun n => (key n, convert_val f d (val n))) x.
Proof. destruct d; simpl; apply map_ext; intros n; by destruct (val n). Qed.

Lemma convert_leaves_keys f d x : map key (convert_leaves f d x) = map key x.
Proof.
  rewrite convert_leaves_unfold. induction x as [|n x IH]; [done|].
  simpl. by rewrite IH.
Qed.

Lemma nodes_find_convert f d x k :
  nodes_find (convert_leaves f d x) k =
    (fun n => (key n, convert_val f d (val n))) <$> nodes_find x k.
Proof.
  rewrite convert_leaves_unfold. induction x as [|n x IH]; [done|]. simpl.
  unfold key at 1. simpl. fold (key n). by destruct (key n =? k).
Qed.

Lemma well_nested_convert f d :
  forall x, well_nested d x = true -> well_nested d (convert_leaves f d x) = true.
Proof.
  induction d as [|d IH]; intros x [Hasc Hn]%well_nested_spec;
    apply well_nested_spec; (split;
      [by rewrite (ascending_keys _ x) by apply convert_leaves_keys|]);
    rewrite convert_leaves_unfold; intros m [n [<- Hin]]%in_map_iff;
    specialize (Hn n Hin).
  - destruct Hn as [a Ha]. exists (f a). simpl. by rewrite Ha.
  - destruct Hn as (sub & Ha & Hsub). exists (convert_leaves f d sub).
    simpl. rewrite Ha. split; [done|by apply IH].
Qed.

Lemma stored_convert f c :
  forall x,
    c <> [] -> well_nested (length c - 1) x = true ->
    stored (convert_leaves f (length c - 1) x) c = convert_val f 0 <$> stored x c.
Proof.
  induction c as [|k c IH]; [done|]. intros x _ Hwf. destruct c as [|k2 c].
  - cbn [stored length]. change (1 - 1)%nat with 0%nat.
    rewrite nodes_find_convert. by destruct (nodes_find x k).
  - cbn [length] in *.
    replace (S (S (length c)) - 1)%nat with (S (length c)) in * by lia.
    replace (S (length c) - 1)%nat with (length c) in IH by lia.
    cbn [stored]. rewrite nodes_find_convert.
    destruct (nodes_find x k) as [n|] eqn:En; [|done]. cbn [fmap option_fmap option_map val snd].
    destruct (well_nested_find _ _ _ _ Hwf En) as (sub & Hv & Hsub).
    rewrite Hv. cbn [convert_val]. by apply IH.
Qed.

Lemma convert_leaves_inverse f g d :
  (forall a, g (f a) = a) ->
  forall x, well_nested d x = true ->
            convert_leaves g d (convert_leaves f d x) = x.
Proof.
  intros Hgf. induction d as [|d IH]; intros x Hx;
    pose proof (well_nested_nodes _ _ Hx) as Hn; clear Hx;
    rewrite !convert_leaves_unfold, map_map;
    (induction x as [|n x IHx]; [done|]); cbn [map];
    rewrite IHx by (intros; apply Hn; by right); f_equal;
    destruct n as [k v]; unfold key, val; cbn [fst snd]; f_equal.
  - destruct (Hn _ (or_introl eq_refl)) as [a Ha]. simpl in Ha. subst v.
    simpl. by rewrite Hgf.
  - destruct (Hn _ (or_introl eq_refl)) as (sub & Ha & Hsub). simpl in Ha. subst v.
    simpl. by rewrite IH.
Qed.

(** The converting clone succeeds on a well-nested list, holds the nodes
    of its source with every scalar converted, and is made of blocks handed
    out by its own allocations. *)
Lemma list_cast_copy_contents_convert f d :
  forall (x : LNODES) next,
    (forall n, In n (erase_nodes x) -> node_nested d n) ->
    exists cp next',
      list_cast_copy_contents f d x next = Some (cp, next') /\
      erase_nodes cp = convert_leaves f d (erase_nodes x) /\
      next <= next' /\
      forall a, In a (nodes_blocks cp) -> next <= a < next'.
Proof.
  induction d as [|d IHd]; induction x as [|rcurr rnext IHx]; intros next Hn.
  - exists [], next. repeat split; [lia|done..].
  - destruct (Hn _ (or_introl eq_refl)) as [a Ha].
    destruct rcurr as [p0 [k [q0 b|q0 sub]]]; simpl in Ha; [|done].
    destruct (IHx (next + 1 + 1)) as (cp & next' & Hy & He & Hle & Hb);
      [intros; apply Hn; by right|].
    exists ((next, (k, LScalar (next + 1) (f b))) :: cp), next'.
    split; [|split; [|split]].
    + rewrite list_cast_copy_contents_cons. cbn [fst snd]. by rewrite Hy.
    + rewrite !erase_nodes_cons, convert_leaves_unfold. cbn [map].
      rewrite <- convert_leaves_unfold, He. done.
    + lia.
    + intros c0 [<-|[<-|Hin]]; cbn [fst]; [lia|lia|]. specialize (Hb c0 Hin). lia.
  - exists [], next. repeat split; [lia|done..].
  - destruct (Hn _ (or_introl eq_refl)) as (esub & Ha & Hsub).
    destruct rcurr as [p0 [k [q0 b|q0 sub]]]; simpl in Ha; [done|].
    injection Ha as <-. fold (erase_nodes sub) in Hsub.
    destruct (IHd sub (next + 1 + 1) (well_nested_nodes _ _ Hsub))
      as (cpsub & next1 & Hysub & Hesub & Hle1 & Hb1).
    destruct (IHx next1) as (cp & next' & Hy & He & Hle & Hb);
      [intros; apply Hn; by right|].
    exists ((next, (k, LList (next + 1) cpsub)) :: cp), next'.
    split; [|split; [|split]].
    + rewrite list_cast_copy_contents_cons. cbn [fst snd].
      rewrite Hysub. cbn [mbind option_bind]. by rewrite Hy.
    + rewrite !erase_nodes_cons, (convert_leaves_unfold f (S d)). cbn [map].
      rewrite <- convert_leaves_unfold, He. cbn [fst snd erase_val val key convert_val].
      fold (erase_nodes cpsub). fold (erase_nodes sub). by rewrite Hesub.
    + lia.
    + intros c0 [<-|[<-|Hin]]; cbn [fst]; [lia|lia|].
      apply in_app_or in Hin as [Hin|Hin].
      * specialize (Hb1 c0 Hin). lia.
      * specialize (Hb c0 Hin). lia.
Qed.

Lemma list_storage_cast_copy_template_spec f (rhs : LOCATED_STORAGE) new_dtype next :
  wf_storage (erase rhs) = true ->
  length (l_shape rhs) = l_rank rhs ->
  exists lhs next',
    list_storage_cast_copy_template f rhs new_dtype next = Some (lhs, next') /\
    erase lhs =
      mkLIST_STORAGE new_dtype (l_rank rhs) (l_shape rhs)
        (convert_leaves f (l_rank rhs - 1) (erase_nodes (l_rows rhs)))
        (f (l_default rhs)) /\
    length (l_shape lhs) = l_rank lhs /\
    forall a, In a (blocks lhs) -> next <= a < next'.
Proof.
  intros Hwf Hshape.
  pose proof Hwf as [_ Hnested]%wf_storage_spec. cbn [erase rank rows] in Hnested.
  destruct (list_cast_copy_contents_convert f (l_rank rhs - 1) (l_rows rhs)
              (next + 1 + 1 + 1 + 1 + 1) (well_nested_nodes _ _ Hnested))
    as (nodes & next' & Hcopy & Herase & Hle & Hfresh).
  set (lhs := mkLOCATED (next + 1 + 1) new_dtype (l_rank rhs) (next + 1)
                (take (l_rank rhs) (l_shape rhs)) (next + 1 + 1 + 1 + 1) nodes
                next (f (l_default rhs))).
  exists lhs, next'. split; [|split; [|split]].
  - unfold list_storage_cast_copy_template, list_cast_copy_contents_template.
    cbn [ALLOC]. rewrite bool_decide_false by lia.
    unfold located_storage_create. cbn [ALLOC]. rewrite Hcopy. done.
  - unfold erase, lhs. cbn [l_dtype l_rank l_shape l_rows l_default].
    rewrite Herase, take_ge by lia. done.
  - unfold lhs. cbn [l_shape l_rank]. rewrite take_ge by lia. done.
  - intros a. unfold blocks, lhs. cbn [storage_p shape_p default_p rows_p l_rows].
    intros [<-|[<-|[<-|[<-|Hin]]]]; try lia. specialize (Hfresh a Hin). lia.
Qed.

(** X12. The cast copy of a well-formed storage is a storage of the new
    dtype with the rank and shape of its source, made of blocks none of
    which is a block of the source; wherever a lookup in the source returns
    a scalar, stored or default, the lookup in the copy returns that scalar
    converted. *)
Theorem cast_copy_converts_every_lookup static_cast_of (rhs : LOCATED_STORAGE)
    new_dtype next :
  wf_storage (erase rhs) = true ->
  length (l_shape rhs) = l_rank rhs ->
  (forall a, In a (blocks rhs) -> a < next) ->
  exists lhs next',
    list_storage_cast_copy static_cast_of rhs new_dtype next = Some (lhs, next') /\
    l_dtype lhs = new_dtype /\
    l_rank lhs = l_rank rhs /\
    l_shape lhs = l_shape rhs /\
    (forall a, In a (blocks lhs) -> ~ In a (blocks rhs)) /\
    (forall slice a,
        length (coords slice) = l_rank rhs ->
        fst (list_storage_ref slice (erase rhs)) = Done (VScalar a) ->
        fst (list_storage_ref slice (erase lhs)) =
          Done (VScalar (static_cast_of new_dtype (l_dtype rhs) a))).
Proof.
  intros Hwf Hshape Hused.
  destruct (list_storage_cast_copy_template_spec
              (static_cast_of new_dtype (l_dtype rhs)) rhs new_dtype next Hwf Hshape)
    as (lhs & next' & Hcall & Herase & _ & Hnew).
  set (f := static_cast_of new_dtype (l_dtype rhs)) in *.
  pose proof Hwf as [Hrk Hnested]%wf_storage_spec. cbn [erase rank rows] in Hrk, Hnested.
  assert (wf_storage (erase lhs) = true) as Hwf'.
  { rewrite Herase. apply wf_storage_spec. cbn [rank rows].
    split; [done|by apply well_nested_convert]. }
  exists lhs, next'. split; [exact Hcall|].
  split; [by apply (f_equal dtype) in Herase|].
  split; [by apply (f_equal rank) in Herase|].
  split; [by apply (f_equal shape) in Herase|].
  split.
  - intros a Hin Hin'. specialize (Hnew a Hin). specialize (Hused a Hin'). lia.
  - intros slice a Hlen.
    rewrite (list_storage_ref_spec slice (erase lhs)) by (done || by rewrite Herase).
    rewrite (list_storage_ref_spec slice (erase rhs)) by done.
    rewrite Herase. cbn [fst rows default_val erase].
    rewrite <- Hlen in *.
    rewrite stored_convert;
      [|intros E; rewrite E in Hrk; simpl in Hrk; lia|done].
    destruct (stored (erase_nodes (l_rows rhs)) (coords slice)) as [v|];
      cbn [default fmap option_fmap option_map convert_val];
      [|by intros [= ->]].
    by intros [= ->].
Qed.

(** X13. Casting a well-formed storage to another dtype and back, with a
    second conversion that undoes the first, gives a storage with the
    dtype, rank, shape, default and nodes of the original. *)
Theorem cast_copy_round_trip static_cast_of (rhs : LOCATED_STORAGE) new_dtype next :
  wf_storage (erase rhs) = true ->
  length (l_shape rhs) = l_rank rhs ->
  (forall a, static_cast_of (l_dtype rhs) new_dtype
               (static_cast_of new_dtype (l_dtype rhs) a) = a) ->
  exists there next1 back next2,
    list_storage_cast_copy static_cast_of rhs new_dtype next = Some (there, next1) /\
    list_storage_cast_copy static_cast_of there (l_dtype rhs) next1 = Some (back, next2) /\
    erase back = erase rhs.
Proof.
  intros Hwf Hshape Hinv.
  destruct (list_storage_cast_copy_template_spec
              (static_cast_of new_dtype (l_dtype rhs)) rhs new_dtype next Hwf Hshape)
    as (there & next1 & Hcall1 & Herase1 & Hshape1 & _).
  pose proof Hwf as [Hrk Hnested]%wf_storage_spec. cbn [erase rank rows] in Hrk, Hnested.
  assert (wf_storage (erase there) = true) as Hwf1.
  { rewrite Herase1. apply wf_storage_spec. cbn [rank rows].
    split; [done|by apply well_nested_convert]. }
  destruct (list_storage_cast_copy_template_spec
              (static_cast_of (l_dtype rhs) (l_dtype there)) there (l_dtype rhs)
              next1 Hwf1 Hshape1)
    as (back & next2 & Hcall2 & Herase2 & _ & _).
  exists there, next1, back, next2. split; [exact Hcall1|]. split; [exact Hcall2|].
  rewrite Herase2.
  assert (l_dtype there = new_dtype) as -> by (by apply (f_equal dtype) in Herase1).
  assert (l_rank there = l_rank rhs) as -> by (by apply (f_equal rank) in Herase1).
  assert (l_shape there = l_shape rhs) as -> by (by apply (f_equal shape) in Herase1).
  assert (l_default there = static_cast_of new_dtype (l_dtype rhs) (l_default rhs)) as ->
    by (by apply (f_equal default_val) in Herase1).
  assert (erase_nodes (l_rows there) =
          convert_leaves (static_cast_of new_dtype (l_dtype rhs)) (l_rank rhs - 1)
            (erase_nodes (l_rows rhs))) as ->
    by (by apply (f_equal rows) in Herase1).
  rewrite convert_leaves_inverse, Hinv by done. done.
Qed.

(** ** Insertion makes no empty list *)

Lemma nodes_insert_nonempty x replace k v : nodes_insert x replace k v <> [].
Proof.
  destruct x as [|n x]; [done|]. cbn [nodes_insert].
  destruct (k <? key n); [done|]. destruct (k =? key n); [|done]. by destruct replace.
Qed.

Lemma tree_insert_nonempty c v x : c <> [] -> tree_insert c v x <> [].
Proof.
  destruct c as [|k [|k2 c]]; [done|intros _; apply nodes_insert_nonempty|].
  intros _. rewrite tree_insert_cons. cbn zeta.
  pose proof (nodes_insert_nonempty x false k (VList list_create)) as Hne.
  destruct (deref _ [k]); [|done]. cbn [assign]. intros Hnil.
  apply (f_equal (map key)) in Hnil. rewrite alter_node_keys in Hnil.
  by destruct (nodes_insert x false k (VList list_create)).
Qed.

Lemma no_empty_branch_nil d : no_empty_branch d ([] : LIST) = true.
Proof. by destruct d. Qed.

Lemma no_empty_branch_find d x k sub :
  no_empty_branch (S d) x = true -> nodes_find x k = Some (k, VList sub) ->
  sub <> [] /\ no_empty_branch d sub = true.
Proof.
  intros Hx Hin%nodes_find_In. cbn [no_empty_branch] in Hx.
  rewrite forallb_forall in Hx. specialize (Hx _ Hin). cbn [val snd] in Hx.
  by destruct sub.
Qed.

Lemma no_empty_branch_insert_assign d x k sub :
  no_empty_branch (S d) x = true -> sub <> [] -> no_empty_branch d sub = true ->
  no_empty_branch (S d)
    (assign (nodes_insert x false k (VList list_create)) [k] sub) = true.
Proof.
  intros Hx Hne Hnode. cbn [assign].
  destruct sub as [|m0 sub0]; [done|].
  induction x as [|n x IH].
  - cbn [nodes_insert alter_node]. unfold key at 1. cbn [fst]. rewrite N.eqb_refl.
    rewrite no_empty_branch_cons. cbn [val snd assign]. by rewrite Hnode.
  - rewrite no_empty_branch_cons in Hx. apply andb_true_iff in Hx as [Hn Hx].
    cbn [nodes_insert]. destruct (N.ltb_spec k (key n)) as [Hlt|Hge].
    + cbn [alter_node]. unfold key at 1. cbn [fst]. rewrite N.eqb_refl.
      rewrite !no_empty_branch_cons. cbn [val snd assign].
      rewrite Hnode, Hn. done.
    + destruct (N.eqb_spec k (key n)) as [->|Hk].
      * cbn [alter_node]. rewrite N.eqb_refl, no_empty_branch_cons.
        cbn [val snd]. rewrite Hx, andb_true_r.
        destruct (val n); cbn [assign]; [done|exact Hnode].
      * cbn [alter_node]. destruct (N.eqb_spec (key n) k) as [E|_]; [by subst|].
        rewrite no_empty_branch_cons, Hn. by apply IH.
Qed.

Lemma no_empty_branch_tree_insert c (a : scalar) :
  forall x,
    c <> [] -> well_nested (length c - 1) x = true ->
    no_empty_branch (length c - 1) x = true ->
    no_empty_branch (length c - 1) (tree_insert c (VScalar a) x) = true.
Proof.
  induction c as [|k c IH]; [done|]. intros x _ Hwf Hx. destruct c as [|k2 c]; [done|].
  rewrite tree_insert_cons. cbn zeta.
  cbn [length] in *. replace (S (S (length c)) - 1)%nat with (S (length c)) in * by lia.
  replace (S (length c) - 1)%nat with (length c) in IH by lia.
  destruct (insert_keep_sub _ _ k Hwf) as (sub & -> & Hsubwf & Hfrom).
  apply no_empty_branch_insert_assign; [done|by apply tree_insert_nonempty|].
  apply IH; [done|done|].
  destruct Hfrom as [Hd|[_ ->]]; [|apply no_empty_branch_nil].
  apply deref_one_inv in Hd. by destruct (no_empty_branch_find _ _ _ _ Hx Hd).
Qed.

(** X14. Insertion never leaves an empty list below the root: in a
    well-formed storage without one, the storage after an insertion has
    none either. *)
Theorem insert_makes_no_empty_branch s slice (a : scalar) :
  wf_storage s = true ->
  length (coords slice) = rank s ->
  no_empty_branch (rank s - 1) (rows s) = true ->
  exists s',
    list_storage_insert slice (VScalar a) s = (Done (VScalar a), s') /\
    rows s' <> [] /\
    no_empty_branch (rank s' - 1) (rows s') = true.
Proof.
  intros Hwf Hlen Hx. pose proof (tuple_nonempty _ _ Hwf Hlen) as Hne.
  eexists. split; [by apply list_storage_insert_spec|].
  cbn [rows rank set_rows]. split; [by apply tree_insert_nonempty|].
  apply wf_storage_spec in Hwf as [_ Hwf]. rewrite <- Hlen in *.
  by apply no_empty_branch_tree_insert.
Qed.

(** ** Dense to list conversion at rank 1 and 2 *)

Section DenseLowRank.

Context {RDType : Type}.
Variable RD_neq : RDType -> addr -> bool.
Variable static_cast : RDType -> scalar.

Abbreviation dense_frame := (dense_frame scalar).

Lemma size_t_incr_decr (n : N) : n < 2 ^ 64 -> size_t_incr (size_t_decr n) = n.
Proof.
  intros Hn. unfold size_t_incr, size_t_decr.
  destruct (decide (n = 0)) as [->|Hz]; [done|].
  replace (n + (2 ^ 64 - 1)) with ((n - 1) + 1 * 2 ^ 64) by lia.
  rewrite N.Div0.mod_add, (N.mod_small (n - 1)) by lia.
  replace (n - 1 + 1) with n by lia. by apply N.mod_small.
Qed.

Lemma nodes_insert_after_end l (n : NODE) k v :
  last l = Some n -> ascending l = true ->
  nodes_insert_after l (key n) k v = Some (l ++ [(k, v)]).
Proof.
  induction l as [|m l IH]; [done|]. intros Hlast Hasc.
  cbn [nodes_insert_after]. destruct l as [|m' l].
  - injection Hlast as ->. by rewrite N.eqb_refl.
  - change (last (m :: m' :: l)) with (last (m' :: l)) in Hlast.
    cbn [ascending] in Hasc. apply andb_true_iff in Hasc as [Hm Hasc].
    rewrite forallb_forall in Hm.
    assert (In n (m' :: l)) as Hin.
    { apply list_elem_of_In. by apply last_Some_elem_of. }
    specialize (Hm n Hin). apply N.ltb_lt in Hm.
    destruct (key m =? key n) eqn:E; [apply N.eqb_eq in E; lia|].
    rewrite (IH Hlast Hasc). done.
Qed.

Lemma ascending_snoc l k v :
  ascending l = true -> (forall n, In n l -> key n < k) ->
  ascending (l ++ [(k, v)]) = true.
Proof.
  induction l as [|m l IH]; [done|]. intros Hasc Hlt.
  cbn [ascending app] in *. apply andb_true_iff in Hasc as [Hm Hasc].
  apply andb_true_iff. split.
  - rewrite forallb_forall in *. intros n [Hin|[<-|[]]]%in_app_or.
    + by apply Hm.
    + apply N.ltb_lt. apply Hlt. by left.
  - apply IH; [done|]. intros n Hin. apply Hlt. by right.
Qed.

Lemma dense_link_appends (fr : dense_frame) j v :
  appending fr j ->
  dense_link fr j v =
    Some (mkFrame (f_lhs fr ++ [(j, v)]) (Some j) (f_added fr) (f_pos fr) (f_coords fr)) /\
  appending (mkFrame (f_lhs fr ++ [(j, v)]) (Some j) (f_added fr) (f_pos fr) (f_coords fr))
    (j + 1).
Proof.
  intros (Hasc & Hlt & Hprev). split.
  - unfold dense_link. destruct (f_lhs fr) as [|m l] eqn:El; [done|].
    rewrite Hprev. destruct (last (m :: l)) as [n|] eqn:Elast.
    + cbn [fmap option_fmap option_map mbind option_bind].
      rewrite (nodes_insert_after_end _ _ _ _ Elast Hasc). done.
    + by apply last_None in Elast.
  - unfold appending. cbn [f_lhs f_prev]. split; [|split].
    + by apply ascending_snoc.
    + intros n [Hin|[<-|[]]]%in_app_or; [specialize (Hlt n Hin)|unfold key; simpl]; lia.
    + by rewrite last_snoc.
Qed.

Lemma dense_row_S rhs zero pos j todo :
  dense_row RD_neq static_cast rhs zero pos j (S todo) =
    match rhs !! N.to_nat pos with
    | Some x =>
        if RD_neq x zero
        then (j, VScalar (static_cast x)) ::
               dense_row RD_neq static_cast rhs zero (pos + 1) (j + 1) todo
        else dense_row RD_neq static_cast rhs zero (pos + 1) (j + 1) todo
    | None => dense_row RD_neq static_cast rhs zero (pos + 1) (j + 1) todo
    end.
Proof. done. Qed.

(** The leaf loop appends the nodes of [dense_row]. *)
Lemma dense_for_leaf rhs zero i :
  forall todo (fr : dense_frame) j,
    f_coords fr !! i = Some j ->
    (N.to_nat (f_pos fr) + todo <= length rhs)%nat ->
    f_pos fr + N.of_nat todo < 2 ^ 64 ->
    appending fr j ->
    dense_for i (dense_leaf_step RD_neq static_cast rhs zero i) todo fr =
      Some (mkFrame
              (f_lhs fr ++ dense_row RD_neq static_cast rhs zero (f_pos fr) j todo)
              (key <$> last (f_lhs fr ++
                               dense_row RD_neq static_cast rhs zero (f_pos fr) j todo))
              (match dense_row RD_neq static_cast rhs zero (f_pos fr) j todo with
               | [] => f_added fr
               | _ :: _ => true
               end)
              (f_pos fr + N.of_nat todo)
              (<[i := j + N.of_nat todo]> (f_coords fr))).
Proof.
  induction todo as [|todo IH]; intros fr j Hj Hlen Hpos Happ.
  - cbn [dense_for dense_row]. rewrite app_nil_r, N.add_0_r, N.add_0_r.
    rewrite list_insert_id by done. destruct Happ as (_ & _ & <-). by destruct fr.
  - cbn [dense_for]. unfold dense_leaf_step at 2. rewrite Hj. cbn [mbind option_bind].
    destruct (rhs !! N.to_nat (f_pos fr)) as [x|] eqn:Ex;
      [|apply lookup_ge_None in Ex; lia].
    cbn [mbind option_bind]. rewrite dense_row_S, Ex.
    assert (size_t_incr (f_pos fr) = f_pos fr + 1) as Hincr.
    { unfold size_t_incr. apply N.mod_small. lia. }
    destruct (RD_neq x zero).
    + destruct (dense_link_appends fr j (VScalar (static_cast x)) Happ) as [-> Happ'].
      cbn [mbind option_bind f_lhs f_prev f_pos f_coords f_added]. rewrite Hj.
      cbn [mbind option_bind]. rewrite Hincr.
      rewrite (IH _ (j + 1)); cbn [f_lhs f_prev f_pos f_coords f_added].
      * rewrite list_insert_insert_eq, <- !app_assoc. cbn [app].
        replace (f_pos fr + 1 + N.of_nat todo) with (f_pos fr + N.of_nat (S todo)) by lia.
        replace (j + 1 + N.of_nat todo) with (j + N.of_nat (S todo)) by lia.
        by destruct (dense_row _ _ _ _ _ _ _).
      * apply list_lookup_insert_eq. by apply lookup_lt_Some in Hj.
      * lia.
      * lia.
      * destruct Happ' as (H1 & H2 & H3). by repeat split.
    + cbn [mbind option_bind]. rewrite Hj. cbn [mbind option_bind]. rewrite Hincr.
      rewrite (IH _ (j + 1)); cbn [f_lhs f_prev f_pos f_coords f_added].
      * rewrite list_insert_insert_eq.
        replace (f_pos fr + 1 + N.of_nat todo) with (f_pos fr + N.of_nat (S todo)) by lia.
        replace (j + 1 + N.of_nat todo) with (j + N.of_nat (S todo)) by lia.
        done.
      * apply list_lookup_insert_eq. by apply lookup_lt_Some in Hj.
      * lia.
      * lia.
      * destruct Happ as (H1 & H2 & H3). repeat split; [done| |done].
        intros n Hin. specialize (H2 n Hin). lia.
Qed.

Lemma dense_template_leaf_unfold rhs zero shp rk lhs pos crd :
  list_storage_cast_copy_contents_dense_template RD_neq static_cast rhs zero
    shp rk 0 lhs pos crd =
  if bool_decide (rk <= 0)%nat then None else
  extent ← shp !! (rk - 1 - 0)%nat;
  _ ← crd !! (rk - 1 - 0)%nat;
  fr ← dense_for (rk - 1 - 0)
          (dense_leaf_step RD_neq static_cast rhs zero (rk - 1 - 0))
          (N.to_nat extent) (mkFrame lhs None false pos (<[(rk - 1 - 0)%nat := 0]> crd));
  Some (f_added fr, f_lhs fr, size_t_decr (f_pos fr),
        <[(rk - 1 - 0)%nat := 0]> (f_coords fr)).
Proof. done. Qed.

Lemma dense_template_list_unfold rhs zero shp rk lhs pos crd :
  list_storage_cast_copy_contents_dense_template RD_neq static_cast rhs zero
    shp rk 1 lhs pos crd =
  if bool_decide (rk <= 1)%nat then None else
  extent ← shp !! (rk - 1 - 1)%nat;
  _ ← crd !! (rk - 1 - 1)%nat;
  fr ← dense_for (rk - 1 - 1)
          (dense_list_step RD_neq static_cast rhs zero shp rk (rk - 1 - 1))
          (N.to_nat extent) (mkFrame lhs None false pos (<[(rk - 1 - 1)%nat := 0]> crd));
  Some (f_added fr, f_lhs fr, size_t_decr (f_pos fr),
        <[(rk - 1 - 1)%nat := 0]> (f_coords fr)).
Proof. done. Qed.

(** One call at the leaf level, on an empty list: the row of the dense
    array, [added] telling whether it holds a node, [pos] on the last
    element read and the counter back at 0. *)
Lemma dense_template_leaf rhs zero shp rk pos crd extent :
  (1 <= rk)%nat ->
  shp !! (rk - 1)%nat = Some extent ->
  (rk - 1 < length crd)%nat ->
  (N.to_nat pos + N.to_nat extent <= length rhs)%nat ->
  pos + extent < 2 ^ 64 ->
  list_storage_cast_copy_contents_dense_template RD_neq static_cast rhs zero
    shp rk 0 list_create pos crd =
  Some (match dense_row RD_neq static_cast rhs zero pos 0 (N.to_nat extent) with
        | [] => false
        | _ :: _ => true
        end,
        dense_row RD_neq static_cast rhs zero pos 0 (N.to_nat extent),
        size_t_decr (pos + extent),
        <[(rk - 1)%nat := 0]> crd).
Proof.
  intros Hrk Hshp Hcrd Hlen Hpos.
  rewrite dense_template_leaf_unfold, bool_decide_false by lia.
  rewrite Nat.sub_0_r, Hshp. cbn [mbind option_bind].
  destruct (lookup_lt_is_Some_2 crd (rk - 1)%nat Hcrd) as [c0 ->].
  cbn [mbind option_bind].
  rewrite (dense_for_leaf rhs zero (rk - 1) (N.to_nat extent) _ 0);
    cbn [f_lhs f_prev f_pos f_coords f_added mbind option_bind list_create app].
  - rewrite N2Nat.id, !list_insert_insert_eq. done.
  - apply list_lookup_insert_eq. lia.
  - lia.
  - lia.
  - repeat split; done.
Qed.

(** *** The nodes of a row *)

Lemma dense_row_nodes rhs zero :
  forall todo pos j (n : NODE),
    In n (dense_row RD_neq static_cast rhs zero pos j todo) ->
    j <= key n < j + N.of_nat todo /\
    exists e, rhs !! N.to_nat (pos + (key n - j)) = Some e /\
              RD_neq e zero = true /\ val n = VScalar (static_cast e).
Proof.
  induction todo as [|todo IH]; intros pos j n; [done|].
  rewrite dense_row_S.
  assert (In n (dense_row RD_neq static_cast rhs zero (pos + 1) (j + 1) todo) ->
          j <= key n < j + N.of_nat (S todo) /\
          exists e, rhs !! N.to_nat (pos + (key n - j)) = Some e /\
                    RD_neq e zero = true /\ val n = VScalar (static_cast e)) as Hrest.
  { intros [Hk (e & He & Hnz & Hv)]%IH. split; [lia|]. exists e.
    replace (pos + (key n - j)) with (pos + 1 + (key n - (j + 1))) by lia. done. }
  destruct (rhs !! N.to_nat pos) as [e|] eqn:Ee; [|done].
  destruct (RD_neq e zero) eqn:Hnz; [|done].
  intros [<-|Hin]; [|by apply Hrest].
  unfold key, val. cbn [fst snd]. split; [lia|]. exists e.
  by rewrite N.sub_diag, N.add_0_r.
Qed.

Lemma dense_row_ascending rhs zero :
  forall todo pos j,
    ascending (dense_row RD_neq static_cast rhs zero pos j todo) = true.
Proof.
  induction todo as [|todo IH]; intros pos j; [done|].
  rewrite dense_row_S.
  destruct (rhs !! N.to_nat pos) as [e|]; [|done].
  destruct (RD_neq e zero); [|done].
  cbn [ascending]. rewrite IH, andb_true_r. apply forallb_forall.
  intros n [Hk _]%dense_row_nodes. apply N.ltb_lt. unfold key at 1. simpl. lia.
Qed.

Lemma dense_row_well_nested rhs zero todo pos j :
  well_nested 0 (dense_row RD_neq static_cast rhs zero pos j todo) = true.
Proof.
  apply well_nested_spec. split; [apply dense_row_ascending|].
  intros n (_ & e & _ & _ & Hv)%dense_row_nodes. by exists (static_cast e).
Qed.

Lemma dense_row_find rhs zero :
  forall todo pos j k e,
    j <= k < j + N.of_nat todo ->
    rhs !! N.to_nat (pos + (k - j)) = Some e ->
    nodes_find (dense_row RD_neq static_cast rhs zero pos j todo) k =
      if RD_neq e zero then Some (k, VScalar (static_cast e)) else None.
Proof.
  induction todo as [|todo IH]; intros pos j k e Hk He; [lia|].
  assert (j < k ->
          nodes_find (dense_row RD_neq static_cast rhs zero (pos + 1) (j + 1) todo) k =
            if RD_neq e zero then Some (k, VScalar (static_cast e)) else None) as Hrest.
  { intros Hlt. apply IH; [lia|].
    by replace (pos + 1 + (k - (j + 1))) with (pos + (k - j)) by lia. }
  assert (k = j ->
          nodes_find (dense_row RD_neq static_cast rhs zero (pos + 1) (j + 1) todo) k =
            None) as Hnone.
  { intros ->. destruct (nodes_find _ j) as [n|] eqn:E; [|done].
    pose proof (nodes_find_key _ _ _ E) as Hkey.
    apply nodes_find_In in E. apply dense_row_nodes in E as [E _]. lia. }
  rewrite dense_row_S.
  destruct (decide (k = j)) as [->|Hne].
  - rewrite N.sub_diag, N.add_0_r in He. rewrite He.
    destruct (RD_neq e zero); [|by apply Hnone].
    cbn [nodes_find]. unfold key. cbn [fst]. by rewrite N.eqb_refl.
  - destruct (rhs !! N.to_nat pos) as [e0|]; [|apply Hrest; lia].
    destruct (RD_neq e0 zero); [|apply Hrest; lia].
    cbn [nodes_find]. unfold key at 1. cbn [fst].
    destruct (j =? k) eqn:E; [apply N.eqb_eq in E; lia|]. apply Hrest. lia.
Qed.

Lemma dense_row_find_outside rhs zero todo pos j k :
  j + N.of_nat todo <= k ->
  nodes_find (dense_row RD_neq static_cast rhs zero pos j todo) k = None.
Proof.
  intros Hk. destruct (nodes_find _ k) as [n|] eqn:E; [|done].
  pose proof (nodes_find_key _ _ _ E) as Hkey.
  apply nodes_find_In in E. apply dense_row_nodes in E as [E _]. lia.
Qed.

(** X15. Rank 1: the conversion of [extent] dense elements into an empty
    list succeeds, leaves [pos] on the last element read and the counter at
    0, and returns whether it linked a node; the list is well formed, and
    a storage that holds it reads, at every [j] below the extent, the
    converted element when [operator!=] tells the element from the pointer
    [zero], and the default when it does not. *)
Theorem dense_rank_1_reads_back rhs zero extent pos (c0 : N) :
  (N.to_nat pos + N.to_nat extent <= length rhs)%nat ->
  pos + extent < 2 ^ 64 ->
  exists added lhs,
    list_storage_cast_copy_contents_dense_template RD_neq static_cast rhs zero
      [extent] 1 0 list_create pos [c0]
    = Some (added, lhs, size_t_decr (pos + extent), [0]) /\
    (added = false <-> lhs = []) /\
    forall (dt : dtype_t) (dflt : scalar),
      wf_storage (mkLIST_STORAGE dt 1 [extent] lhs dflt) = true /\
      forall j e,
        j < extent -> rhs !! N.to_nat (pos + j) = Some e ->
        fst (list_storage_ref (mkSLICE [j]) (mkLIST_STORAGE dt 1 [extent] lhs dflt)) =
          Done (VScalar (if RD_neq e zero then static_cast e else dflt)).
Proof.
  intros Hlen Hpos.
  exists (match dense_row RD_neq static_cast rhs zero pos 0 (N.to_nat extent) with
          | [] => false | _ :: _ => true end),
         (dense_row RD_neq static_cast rhs zero pos 0 (N.to_nat extent)).
  split; [|split].
  - rewrite (dense_template_leaf rhs zero [extent] 1 pos [c0] extent);
      [done|lia|done|simpl; lia|lia|lia].
  - by destruct (dense_row _ _ _ _ _ _ _).
  - intros dt dflt.
    assert (wf_storage (mkLIST_STORAGE dt 1 [extent]
              (dense_row RD_neq static_cast rhs zero pos 0 (N.to_nat extent)) dflt) = true)
      as Hwf.
    { apply wf_storage_spec. split; [done|]. apply dense_row_well_nested. }
    split; [exact Hwf|]. intros j e Hj He.
    rewrite list_storage_ref_spec by done. cbn [fst rows coords default_val stored].
    rewrite (dense_row_find rhs zero _ pos 0 j e); [|lia|by rewrite N.sub_0_r].
    by destruct (RD_neq e zero).
Qed.

(** *** The rows of a matrix *)

Lemma dense_rows_S rhs zero extent pos r todo :
  dense_rows RD_neq static_cast rhs zero extent pos r (S todo) =
    match dense_row RD_neq static_cast rhs zero pos 0 (N.to_nat extent) with
    | [] => dense_rows RD_neq static_cast rhs zero extent (pos + extent) (r + 1) todo
    | row => (r, VList row) ::
               dense_rows RD_neq static_cast rhs zero extent (pos + extent) (r + 1) todo
    end.
Proof. done. Qed.

(** The loop over the rows appends the nodes of [dense_rows]. *)
Lemma dense_for_rows rhs zero (nrows extent : N) :
  forall todo (fr : dense_frame) (r c1 : N),
    f_coords fr = [r; c1] ->
    (N.to_nat (f_pos fr) + todo * N.to_nat extent <= length rhs)%nat ->
    f_pos fr + N.of_nat todo * extent < 2 ^ 64 ->
    appending fr r ->
    dense_for 0 (dense_list_step RD_neq static_cast rhs zero [nrows; extent] 2 0) todo fr =
      Some (mkFrame
              (f_lhs fr ++ dense_rows RD_neq static_cast rhs zero extent (f_pos fr) r todo)
              (key <$> last (f_lhs fr ++
                   dense_rows RD_neq static_cast rhs zero extent (f_pos fr) r todo))
              (f_added fr)
              (f_pos fr + N.of_nat todo * extent)
              [r + N.of_nat todo; match todo with O => c1 | S _ => 0 end]).
Proof.
  induction todo as [|todo IH]; intros fr r c1 Hcrd Hlen Hpos Happ.
  - cbn [dense_for dense_rows]. rewrite app_nil_r, N.add_0_r. cbn [N.of_nat N.mul].
    rewrite N.add_0_r. destruct Happ as (_ & _ & <-). rewrite <- Hcrd. by destruct fr.
  - cbn [dense_for]. unfold dense_list_step at 2. rewrite Hcrd.
    cbn [lookup list_lookup mbind option_bind].
    rewrite (dense_template_leaf rhs zero [nrows; extent] 2 (f_pos fr) [r; c1] extent);
      [|lia|done|simpl; lia|lia|lia].
    change (<[(2 - 1)%nat:=0]> [r; c1]) with [r; 0].
    cbn [mbind option_bind]. rewrite dense_rows_S.
    assert (size_t_incr (size_t_decr (f_pos fr + extent)) = f_pos fr + extent) as Hincr
      by (apply size_t_incr_decr; lia).
    assert (f_pos fr + extent + N.of_nat todo * extent =
            f_pos fr + N.of_nat (S todo) * extent) as Hsum by lia.
    assert (r + 1 + N.of_nat todo = r + N.of_nat (S todo)) as Hr by lia.
    destruct (dense_row RD_neq static_cast rhs zero (f_pos fr) 0 (N.to_nat extent))
      as [|n0 row] eqn:Erow; cbn [negb].
    + cbn [f_coords lookup list_lookup mbind option_bind f_lhs f_prev f_added f_pos].
      rewrite Hincr. change (<[0%nat:=r + 1]> [r; 0]) with [r + 1; 0].
      rewrite (IH _ (r + 1) 0); cbn [f_lhs f_prev f_pos f_coords f_added].
      * rewrite Hsum, Hr. by destruct todo.
      * done.
      * lia.
      * lia.
      * destruct Happ as (H1 & H2 & H3). repeat split; [done| |done].
        intros n Hin. specialize (H2 n Hin). lia.
    + destruct (dense_link_appends
                  (mkFrame (f_lhs fr) (f_prev fr) (f_added fr)
                     (size_t_decr (f_pos fr + extent)) [r; 0])
                  r (VList (n0 :: row))) as [-> Happ'].
      { destruct Happ as (H1 & H2 & H3). by repeat split. }
      cbn [f_coords lookup list_lookup mbind option_bind f_lhs f_prev f_added f_pos].
      rewrite Hincr. change (<[0%nat:=r + 1]> [r; 0]) with [r + 1; 0].
      rewrite (IH _ (r + 1) 0); cbn [f_lhs f_prev f_pos f_coords f_added].
      * rewrite Hsum, Hr, <- !app_assoc. cbn [app]. by destruct todo.
      * done.
      * lia.
      * lia.
      * destruct Happ' as (H1 & H2 & H3). by repeat split.
Qed.

Lemma dense_rows_nodes rhs zero extent :
  forall todo pos r (n : NODE),
    In n (dense_rows RD_neq static_cast rhs zero extent pos r todo) ->
    r <= key n < r + N.of_nat todo /\
    val n = VList (dense_row RD_neq static_cast rhs zero
                     (pos + (key n - r) * extent) 0 (N.to_nat extent)) /\
    dense_row RD_neq static_cast rhs zero
      (pos + (key n - r) * extent) 0 (N.to_nat extent) <> [].
Proof.
  induction todo as [|todo IH]; intros pos r n; [done|].
  rewrite dense_rows_S.
  assert (In n (dense_rows RD_neq static_cast rhs zero extent (pos + extent) (r + 1) todo) ->
          r <= key n < r + N.of_nat (S todo) /\
          val n = VList (dense_row RD_neq static_cast rhs zero
                           (pos + (key n - r) * extent) 0 (N.to_nat extent)) /\
          dense_row RD_neq static_cast rhs zero
            (pos + (key n - r) * extent) 0 (N.to_nat extent) <> []) as Hrest.
  { intros (Hk & Hv & Hne)%IH.
    replace (pos + extent + (key n - (r + 1)) * extent)
      with (pos + (key n - r) * extent) in * by nia.
    split; [lia|done]. }
  destruct (dense_row RD_neq static_cast rhs zero pos 0 (N.to_nat extent))
    as [|n0 row] eqn:Erow; [done|].
  intros [<-|Hin]; [|by apply Hrest].
  unfold key, val. cbn [fst snd]. rewrite N.sub_diag, N.mul_0_l, N.add_0_r, Erow.
  split; [lia|done].
Qed.

Lemma dense_rows_ascending rhs zero extent :
  forall todo pos r,
    ascending (dense_rows RD_neq static_cast rhs zero extent pos r todo) = true.
Proof.
  induction todo as [|todo IH]; intros pos r; [done|].
  rewrite dense_rows_S.
  destruct (dense_row RD_neq static_cast rhs zero pos 0 (N.to_nat extent))
    as [|n0 row]; [done|].
  cbn [ascending]. rewrite IH, andb_true_r. apply forallb_forall.
  intros n [Hk _]%dense_rows_nodes. apply N.ltb_lt. unfold key at 1. simpl. lia.
Qed.

Lemma dense_rows_well_nested rhs zero extent todo pos r :
  well_nested 1 (dense_rows RD_neq static_cast rhs zero extent pos r todo) = true.
Proof.
  apply well_nested_spec. split; [apply dense_rows_ascending|].
  intros n (_ & Hv & _)%dense_rows_nodes. eexists. split; [exact Hv|].
  apply dense_row_well_nested.
Qed.

Lemma dense_rows_no_empty_branch rhs zero extent todo pos r :
  no_empty_branch 1 (dense_rows RD_neq static_cast rhs zero extent pos r todo) = true.
Proof.
  cbn [no_empty_branch]. apply forallb_forall.
  intros n (_ & -> & Hne)%dense_rows_nodes.
  by destruct (dense_row _ _ _ _ _ _ _).
Qed.

Lemma dense_rows_find rhs zero extent :
  forall todo pos r k,
    r <= k < r + N.of_nat todo ->
    nodes_find (dense_rows RD_neq static_cast rhs zero extent pos r todo) k =
      match dense_row RD_neq static_cast rhs zero
              (pos + (k - r) * extent) 0 (N.to_nat extent) with
      | [] => None
      | row => Some (k, VList row)
      end.
Proof.
  induction todo as [|todo IH]; intros pos r k Hk; [lia|].
  assert (r < k ->
          nodes_find (dense_rows RD_neq static_cast rhs zero extent (pos + extent) (r + 1) todo) k =
            match dense_row RD_neq static_cast rhs zero
                    (pos + (k - r) * extent) 0 (N.to_nat extent) with
            | [] => None
            | row => Some (k, VList row)
            end) as Hrest.
  { intros Hlt. rewrite IH by lia.
    by replace (pos + extent + (k - (r + 1)) * extent)
         with (pos + (k - r) * extent) by nia. }
  assert (nodes_find (dense_rows RD_neq static_cast rhs zero extent (pos + extent) (r + 1) todo) r =
            None) as Hnone.
  { destruct (nodes_find _ r) as [n|] eqn:E; [|done].
    pose proof (nodes_find_key _ _ _ E) as Hkey.
    apply nodes_find_In in E. apply dense_rows_nodes in E as [E _]. lia. }
  rewrite dense_rows_S.
  destruct (decide (k = r)) as [->|Hne].
  - rewrite N.sub_diag, N.mul_0_l, N.add_0_r.
    destruct (dense_row RD_neq static_cast rhs zero pos 0 (N.to_nat extent))
      as [|n0 row]; [done|].
    cbn [nodes_find]. unfold key. cbn [fst]. by rewrite N.eqb_refl.
  - destruct (dense_row RD_neq static_cast rhs zero pos 0 (N.to_nat extent))
      as [|n0 row]; [apply Hrest; lia|].
    cbn [nodes_find]. unfold key at 1. cbn [fst].
    destruct (r =? k) eqn:E; [apply N.eqb_eq in E; lia|]. apply Hrest. lia.
Qed.

Lemma dense_rows_stored rhs zero extent todo pos r k j e :
  r <= k < r + N.of_nat todo -> j < extent ->
  rhs !! N.to_nat (pos + (k - r) * extent + j) = Some e ->
  stored (dense_rows RD_neq static_cast rhs zero extent pos r todo) [k; j] =
    if RD_neq e zero then Some (VScalar (static_cast e)) else None.
Proof.
  intros Hk Hj He. cbn [stored]. rewrite dense_rows_find by done.
  pose proof (dense_row_find rhs zero (N.to_nat extent)
                (pos + (k - r) * extent) 0 j e) as Hfind.
  rewrite N.sub_0_r in Hfind. specialize (Hfind ltac:(lia) He).
  destruct (dense_row _ _ _ _ _ _ _) as [|n0 row] eqn:Erow.
  - cbn [nodes_find] in Hfind. by destruct (RD_neq e zero).
  - cbn [val snd]. rewrite Hfind. by destruct (RD_neq e zero).
Qed.

(** X16. Rank 2: the conversion of an [nrows] by [extent] dense array, row
    after row, into an empty list succeeds and leaves [pos] on the last
    element read; no list below the root is empty, the list is well
    formed, and a storage that holds it reads, at every [(r, j)] within the
    shape, the converted element when [operator!=] tells the element at
    [r * extent + j] from the pointer [zero], and the default when it does
    not. *)
Theorem dense_rank_2_reads_back rhs zero (nrows extent pos c0 c1 : N) :
  (N.to_nat pos + N.to_nat (nrows * extent) <= length rhs)%nat ->
  pos + nrows * extent < 2 ^ 64 ->
  exists added lhs crd,
    list_storage_cast_copy_contents_dense_template RD_neq static_cast rhs zero
      [nrows; extent] 2 1 list_create pos [c0; c1]
    = Some (added, lhs, size_t_decr (pos + nrows * extent), crd) /\
    no_empty_branch 1 lhs = true /\
    forall (dt : dtype_t) (dflt : scalar),
      wf_storage (mkLIST_STORAGE dt 2 [nrows; extent] lhs dflt) = true /\
      forall r j e,
        r < nrows -> j < extent ->
        rhs !! N.to_nat (pos + r * extent + j) = Some e ->
        fst (list_storage_ref (mkSLICE [r; j])
               (mkLIST_STORAGE dt 2 [nrows; extent] lhs dflt)) =
          Done (VScalar (if RD_neq e zero then static_cast e else dflt)).
Proof.
  intros Hlen Hpos.
  exists false,
    (dense_rows RD_neq static_cast rhs zero extent pos 0 (N.to_nat nrows)),
    [0; match N.to_nat nrows with O => c1 | S _ => 0 end].
  split; [|split].
  - rewrite dense_template_list_unfold, bool_decide_false by lia.
    change (2 - 1 - 1)%nat with 0%nat.
    change (<[0%nat:=0]> [c0; c1]) with [0; c1].
    cbn [lookup list_lookup mbind option_bind].
    rewrite (dense_for_rows rhs zero nrows extent (N.to_nat nrows) _ 0 c1);
      cbn [f_lhs f_prev f_pos f_coords f_added mbind option_bind list_create app].
    + by rewrite N2Nat.id.
    + done.
    + lia.
    + lia.
    + repeat split; done.
  - apply dense_rows_no_empty_branch.
  - intros dt dflt.
    assert (wf_storage (mkLIST_STORAGE dt 2 [nrows; extent]
              (dense_rows RD_neq static_cast rhs zero extent pos 0 (N.to_nat nrows)) dflt)
            = true) as Hwf.
    { apply wf_storage_spec. split; [simpl; lia|]. apply dense_rows_well_nested. }
    split; [exact Hwf|]. intros r j e Hr Hj He.
    rewrite list_storage_ref_spec by done. cbn [fst rows coords default_val].
    rewrite (dense_rows_stored rhs zero extent _ pos 0 r j e);
      [|lia|done|by rewrite N.sub_0_r].
    by destruct (RD_neq e zero).
Qed.

End DenseLowRank.

(** ** Marking for the garbage collector *)

Lemma leaves_chain d :
  forall x (a : scalar),
    In a (leaves d x) <-> exists c, length c = S d /\ node_chain x c (VScalar a).
Proof.
  induction d as [|d IH]; intros x a; rewrite leaves_flat_map, in_flat_map; split.
  - intros ([k v] & Hin & Ha). unfold val in Ha. cbn [snd] in Ha.
    destruct v as [b|sub]; [|done]. destruct Ha as [->|[]].
    exists [k]. split; [done|]. by apply chain_leaf.
  - intros (c & Hlen & Hch).
    inversion Hch as [? k ? Hin|? k sub c' ? Hin Hch']; subst.
    + exists (k, VScalar a). split; [done|]. by left.
    + apply node_chain_nonempty in Hch'. by destruct c'.
  - intros ([k v] & Hin & Ha). unfold val in Ha. cbn [snd] in Ha.
    destruct v as [b|sub]; [done|]. apply IH in Ha as (c & Hlen & Hch).
    exists (k :: c). split; [by rewrite <- Hlen|]. by eapply chain_branch.
  - intros (c & Hlen & Hch).
    inversion Hch as [? k ? Hin|? k sub c' ? Hin Hch']; subst; [done|].
    exists (k, VList sub). split; [done|]. unfold val. cbn [snd].
    apply IH. exists c'. split; [|done]. by injection Hlen.
Qed.

Section MarkProperties.

Context `{EqDecision dtype_t}.
Variable RUBYOBJ : dtype_t.

(** X17. On a well-formed storage of Ruby objects, the values marked are
    the default value and the values a lookup at a full coordinate tuple
    can return, and no others. *)
Theorem mark_reaches_what_lookups_return s (a : scalar) :
  wf_storage s = true ->
  dtype s = RUBYOBJ ->
  In a (list_storage_mark RUBYOBJ (Some s)) <->
  a = default_val s \/
  exists slice,
    length (coords slice) = rank s /\
    fst (list_storage_ref slice s) = Done (VScalar a).
Proof.
  intros Hwf Hdt. pose proof Hwf as [Hrk Hnested]%wf_storage_spec.
  unfold list_storage_mark, list_mark. rewrite bool_decide_true by done.
  cbn [In]. rewrite leaves_chain.
  replace (S (rank s - 1)) with (rank s) by lia. split.
  - intros [<-|(c & Hlen & Hch)]; [by left|]. right. exists (mkSLICE c).
    split; [done|]. rewrite list_storage_ref_spec by done. cbn [fst coords].
    apply (stored_of_chain s (mkSLICE c)) in Hch; [|done..].
    cbn [coords] in Hch. by rewrite Hch.
  - intros [->|(slice & Hlen & Href)]; [by left|].
    rewrite list_storage_ref_spec in Href by done. cbn [fst] in Href.
    destruct (stored (rows s) (coords slice)) as [v|] eqn:Hst; cbn [default] in Href.
    + right. exists (coords slice). split; [done|].
      apply stored_of_chain; [done..|]. rewrite Hst. by injection Href as ->.
    + left. by injection Href.
Qed.

End MarkProperties.

End Properties.

(** ** The storage of the specification's scenario *)

(** Rank 2, shape 3 x 3, default 0, with (0,0) = 5 and (2,2) = 7: the
    lookup at (1,1) gives 0, removing (0,0) returns 5, and (0,0) then reads
    0 again. *)
Example scenario_3x3 :
  exists s1 s2 s3,
    list_storage_insert (mkSLICE [0; 0]) (VScalar 5%Z) none_stored
      = (Done (VScalar 5%Z), s1) /\
    list_storage_insert (mkSLICE [2; 2]) (VScalar 7%Z) s1
      = (Done (VScalar 7%Z), s2) /\
    s2 = two_stored /\
    list_storage_ref (mkSLICE [1; 1]) s2 = (Done (VScalar 0%Z), s2) /\
    list_storage_remove (mkSLICE [0; 0]) s2 = (Done (Some (VScalar 5%Z)), s3) /\
    list_storage_ref (mkSLICE [0; 0]) s3 = (Done (VScalar 0%Z), s3).
Proof. by repeat eexists. Qed.

(** C1. Removing the only element of a row leaves the emptied row list
    linked in the root list: [list_storage_remove] on [one_stored] at (0,0)
    returns 5 and a storage whose root still holds node 0 with an empty
    list, so an empty intermediate list stays reachable. *)
Theorem remove_leaves_empty_branch :
  list_storage_remove (mkSLICE [0; 0]) one_stored =
    (Done (Some (VScalar 5%Z)), storage_3x3 [(0, VList [])]) /\
  no_empty_branch 1 (rows (storage_3x3 [(0, VList [])])) = false.
Proof. split; reflexivity. Qed.

(** C6. Removing at (1,1) from the storage that holds (0,0) and (2,2)
    only: row 1 is not found, the source frees the [ALLOCA_N] array and the
    call has no defined outcome, where the specification expects the null pointer
    and the storage unchanged. *)
Theorem remove_absent_row_frees_stack :
  list_storage_remove (mkSLICE [1; 1]) two_stored = (Undefined, two_stored).
Proof. reflexivity. Qed.

(** With row 0 present and column 1 missing in it the removal is the
    no-operation the specification describes. *)
Example remove_absent_column_is_noop :
  list_storage_remove (mkSLICE [0; 1]) two_stored = (Done None, two_stored).
Proof. reflexivity. Qed.

(** C2. The dense 1 x 1 x 1 buffer holding 1, converted with [zero]
    pointing at a 0: the call returns false and the list stays empty,
    although the buffer holds a non-zero element. *)
Theorem dense_rank_3_loses_elements :
  list_storage_cast_copy_contents_dense_template int_neq (fun x : Z => x)
    [1%Z] zero_p [1; 1; 1] 3 2 list_create 0 [0; 0; 0]
  = Some (false, [], 0, [0; 0; 0]).
Proof. reflexivity. Qed.

(** At rank 2 the same conversion keeps the elements, the zeros among
    them: an integer element is compared with the address in [zero]. *)
Example dense_rank_2_keeps_elements :
  list_storage_cast_copy_contents_dense_template int_neq (fun x : Z => x)
    [1; 0; 0; 2]%Z zero_p [2; 2] 2 1 list_create 0 [0; 0]
  = Some (false,
          [(0, VList [(0, VScalar 1%Z); (1, VScalar 0%Z)]);
           (1, VList [(0, VScalar 0%Z); (1, VScalar 2%Z)])],
          3, [0; 0]).
Proof. reflexivity. Qed.

(** C7. Shape 2^32 x 2^32, the left storage empty with default 0, the
    right one holding a 0 at (0, 0) with default 1: [max_elements] wraps to
    0, so the defaults are never compared and the storages are found equal,
    in either order, although one scalar was visited, fewer than the
    product of the extents, and the defaults differ. *)
Theorem eqeq_max_elements_wraps :
  storage_count_max_elements (rank huge_none) (shape huge_none) = 0 /\
  list_storage_eqeq int_eqeq huge_none huge_one_stored = Some true /\
  list_storage_eqeq int_eqeq huge_one_stored huge_none = Some true /\
  (forall a, In a (leaves 1 (rows huge_one_stored)) ->
             int_eqeq tt a (default_val huge_none) = true) /\
  N.of_nat (length (leaves 1 (rows huge_one_stored)))
    < shape_product (rank huge_none) (shape huge_none) /\
  int_eqeq tt (default_val huge_none) (default_val huge_one_stored) = false.
Proof.
  split; [reflexivity|]. split; [reflexivity|]. split; [reflexivity|].
  split; [|split; reflexivity].
  intros a [<-|[]]. reflexivity.
Qed.

(** With a shape whose product stays below 2^64 the same two contents are
    found different. *)
Example eqeq_in_range_compares_defaults :
  list_storage_eqeq int_eqeq none_stored
    (mkLIST_STORAGE tt 2 [3; 3] [(0, VList [(0, VScalar 0%Z)])] 1%Z) = Some false.
Proof. reflexivity. Qed.


(** ** The theorems at sample inputs *)

Lemma insert_then_ref_witness :
  wf_storage two_stored = true /\
  length (coords (mkSLICE [1; 1])) = rank two_stored /\
  exists s',
    list_storage_insert (mkSLICE [1; 1]) (VScalar 9%Z) two_stored
      = (Done (VScalar 9%Z), s') /\
    rows s' = tree_insert [1; 1] (VScalar 9%Z) (rows two_stored) /\
    wf_storage s' = true /\
    list_storage_ref (mkSLICE [1; 1]) s' = (Done (VScalar 9%Z), s').
Proof.
  split; [reflexivity|]. split; [reflexivity|].
  apply (insert_then_ref two_stored (mkSLICE [1; 1]) 9%Z); reflexivity.
Defined.

Lemma insert_remove_ref_witness :
  wf_storage cube_stored = true /\
  length (coords (mkSLICE [1; 0; 0])) = rank cube_stored /\
  exists s1 s2,
    list_storage_insert (mkSLICE [1; 0; 0]) (VScalar 8%Z) cube_stored
      = (Done (VScalar 8%Z), s1) /\
    list_storage_remove (mkSLICE [1; 0; 0]) s1 = (Done (Some (VScalar 8%Z)), s2) /\
    list_storage_ref (mkSLICE [1; 0; 0]) s2
      = (Done (VScalar (default_val cube_stored)), s2).
Proof.
  split; [reflexivity|]. split; [reflexivity|].
  apply (insert_remove_ref cube_stored (mkSLICE [1; 0; 0]) 8%Z); reflexivity.
Defined.

Lemma two_stored_no_chain_1_1 v : ~ node_chain (rows two_stored) [1; 1] v.
Proof.
  intros H. inversion H as [|? ? sub ? ? Hin Hch]; subst.
  simpl in Hin. by destruct Hin as [[=]|[[=]|[]]].
Defined.

Lemma two_stored_populated : populated_by [[2; 2]; [0; 0]] two_stored.
Proof.
  apply (populated_insert [[0; 0]] one_stored [2; 2] 7%Z (VScalar 7%Z));
    [|reflexivity|reflexivity].
  apply (populated_insert [] none_stored [0; 0] 5%Z (VScalar 5%Z));
    [|reflexivity|reflexivity].
  apply (populated_create tt [3; 3] 2 0%Z). lia.
Defined.

Lemma ref_absent_is_default_witness :
  length (coords (mkSLICE [1; 1])) = rank two_stored /\
  ((exists cs, populated_by cs two_stored /\ ~ In (coords (mkSLICE [1; 1])) cs) \/
   (wf_storage two_stored = true /\
    forall v, ~ node_chain (rows two_stored) (coords (mkSLICE [1; 1])) v)) /\
  list_storage_ref (mkSLICE [1; 1]) two_stored = (Done (VScalar 0%Z), two_stored) /\
  read_only (list_storage_ref (mkSLICE [1; 1]) : M unit Z (VAL Z)).
Proof.
  assert (~ In [1; 1] [[2; 2]; [0; 0]]) as Hnot
    by (intros [[=]|[[=]|[]]]).
  split; [reflexivity|].
  split; [left; exists [[2; 2]; [0; 0]]; split; [exact two_stored_populated|exact Hnot]|].
  apply (ref_absent_is_default two_stored (mkSLICE [1; 1])); [reflexivity|].
  right. split; [reflexivity|exact two_stored_no_chain_1_1].
Defined.

Lemma eqeq_with_empty_side_witness :
  wf_storage none_stored = true /\
  wf_storage two_stored = true /\
  rank none_stored = rank two_stored /\
  list_storage_eqeq int_eqeq none_stored none_stored
    = Some (int_eqeq tt 0%Z 0%Z) /\
  (exists b,
      list_storage_eqeq int_eqeq none_stored two_stored = Some b /\
      (b = true <->
       (forall a, In a [5%Z; 7%Z] -> int_eqeq tt a 0%Z = true) /\
       (2 < 9 -> int_eqeq tt 0%Z 0%Z = true))) /\
  (exists b,
      list_storage_eqeq int_eqeq two_stored none_stored = Some b /\
      (b = true <->
       (forall a, In a [5%Z; 7%Z] -> int_eqeq tt a 0%Z = true) /\
       (2 < 9 -> int_eqeq tt 0%Z 0%Z = true))).
Proof.
  split; [reflexivity|]. split; [reflexivity|]. split; [reflexivity|].
  split; [|split].
  - apply (eqeq_with_empty_side int_eqeq none_stored none_stored);
      reflexivity.
  - apply (eqeq_with_empty_side int_eqeq none_stored two_stored);
      [reflexivity | reflexivity | reflexivity | reflexivity | discriminate].
  - apply (eqeq_with_empty_side int_eqeq two_stored none_stored);
      [reflexivity | reflexivity | reflexivity | reflexivity | discriminate].
Defined.

Lemma located_two_stored_blocks a :
  In a (blocks located_two_stored) -> a < 12.
Proof.
  simpl. intros H.
  repeat (destruct H as [<-|H]; [reflexivity|]). destruct H.
Defined.


Lemma count_nd_elements_rank_2_witness :
  rank cube_stored <> 2%nat /\
  rank two_stored = 2%nat /\
  wf_storage two_stored = true /\
  count_list_storage_nd_elements cube_stored = (Raised rb_eNotImpError, cube_stored) /\
  count_list_storage_nd_elements two_stored = (Done 0, two_stored) /\
  count_list_storage_nd_elements
    (storage_3x3 [(0, VList [(0, VScalar 5%Z); (1, VScalar 6%Z)]);
                  (2, VList [(0, VScalar 7%Z)])])
  = (Done 2, storage_3x3 [(0, VList [(0, VScalar 5%Z); (1, VScalar 6%Z)]);
                           (2, VList [(0, VScalar 7%Z)])]).
Proof.
  split; [discriminate|]. split; [reflexivity|]. split; [reflexivity|].
  split; [|split].
  - apply (count_nd_elements_rank_2 cube_stored). discriminate.
  - apply (count_nd_elements_rank_2 two_stored); reflexivity.
  - apply (count_nd_elements_rank_2
             (storage_3x3 [(0, VList [(0, VScalar 5%Z); (1, VScalar 6%Z)]);
                           (2, VList [(0, VScalar 7%Z)])])); reflexivity.
Defined.

(** ** Further theorems at sample inputs *)

Lemma two_stored_chain_2_2 : node_chain (rows two_stored) [2; 2] (VScalar 7%Z).
Proof.
  apply (chain_branch _ 2 [(2, VScalar 7%Z)]); [right; by left|].
  apply chain_leaf. by left.
Defined.

Lemma ref_returns_stored_witness :
  wf_storage two_stored = true /\
  length (coords (mkSLICE [2; 2])) = rank two_stored /\
  node_chain (rows two_stored) (coords (mkSLICE [2; 2])) (VScalar 7%Z) /\
  list_storage_ref (mkSLICE [2; 2]) two_stored = (Done (VScalar 7%Z), two_stored).
Proof.
  split; [reflexivity|]. split; [reflexivity|].
  split; [exact two_stored_chain_2_2|].
  apply (ref_returns_stored two_stored (mkSLICE [2; 2]));
    [reflexivity | reflexivity | exact two_stored_chain_2_2].
Defined.

Lemma insert_keeps_other_lookups_witness :
  wf_storage two_stored = true /\
  length (coords (mkSLICE [0; 1])) = rank two_stored /\
  length (coords (mkSLICE [0; 0])) = rank two_stored /\
  coords (mkSLICE [0; 0]) <> coords (mkSLICE [0; 1]) /\
  exists s',
    list_storage_insert (mkSLICE [0; 1]) (VScalar 9%Z) two_stored
      = (Done (VScalar 9%Z), s') /\
    fst (list_storage_ref (mkSLICE [0; 0]) s')
      = fst (list_storage_ref (mkSLICE [0; 0]) two_stored).
Proof.
  split; [reflexivity|]. split; [reflexivity|]. split; [reflexivity|].
  split; [discriminate|].
  apply (insert_keeps_other_lookups two_stored (mkSLICE [0; 1]) (mkSLICE [0; 0]) 9%Z);
    [reflexivity | reflexivity | reflexivity | discriminate].
Defined.

Lemma insert_overwrites_witness :
  wf_storage cube_stored = true /\
  length (coords (mkSLICE [1; 0; 1])) = rank cube_stored /\
  exists s1 s2,
    list_storage_insert (mkSLICE [1; 0; 1]) (VScalar 8%Z) cube_stored
      = (Done (VScalar 8%Z), s1) /\
    list_storage_insert (mkSLICE [1; 0; 1]) (VScalar 3%Z) s1
      = (Done (VScalar 3%Z), s2) /\
    list_storage_insert (mkSLICE [1; 0; 1]) (VScalar 3%Z) cube_stored
      = (Done (VScalar 3%Z), s2).
Proof.
  split; [reflexivity|]. split; [reflexivity|].
  apply (insert_overwrites cube_stored (mkSLICE [1; 0; 1]) 8%Z 3%Z); reflexivity.
Defined.

Lemma remove_returns_stored_witness :
  wf_storage two_stored = true /\
  length (coords (mkSLICE [2; 2])) = rank two_stored /\
  node_chain (rows two_stored) (coords (mkSLICE [2; 2])) (VScalar 7%Z) /\
  exists s',
    list_storage_remove (mkSLICE [2; 2]) two_stored = (Done (Some (VScalar 7%Z)), s') /\
    wf_storage s' = true /\
    list_storage_ref (mkSLICE [2; 2]) s' = (Done (VScalar (default_val two_stored)), s').
Proof.
  split; [reflexivity|]. split; [reflexivity|].
  split; [exact two_stored_chain_2_2|].
  apply (remove_returns_stored two_stored (mkSLICE [2; 2]));
    [reflexivity | reflexivity | exact two_stored_chain_2_2].
Defined.

Lemma remove_keeps_other_lookups_witness :
  wf_storage two_stored = true /\
  length (coords (mkSLICE [2; 2])) = rank two_stored /\
  length (coords (mkSLICE [0; 0])) = rank two_stored /\
  coords (mkSLICE [0; 0]) <> coords (mkSLICE [2; 2]) /\
  list_storage_remove (mkSLICE [2; 2]) two_stored
    = (Done (Some (VScalar 7%Z)), storage_3x3 [(0, VList [(0, VScalar 5%Z)]); (2, VList [])]) /\
  wf_storage (storage_3x3 [(0, VList [(0, VScalar 5%Z)]); (2, VList [])]) = true /\
  fst (list_storage_ref (mkSLICE [0; 0])
         (storage_3x3 [(0, VList [(0, VScalar 5%Z)]); (2, VList [])]))
    = fst (list_storage_ref (mkSLICE [0; 0]) two_stored).
Proof.
  split; [reflexivity|]. split; [reflexivity|]. split; [reflexivity|].
  split; [discriminate|]. split; [reflexivity|].
  apply (remove_keeps_other_lookups two_stored (mkSLICE [2; 2]) (mkSLICE [0; 0])
           (Some (VScalar 7%Z)));
    [reflexivity | reflexivity | reflexivity | discriminate | reflexivity].
Defined.

Lemma count_after_insert_witness :
  wf_storage two_stored = true /\
  length (coords (mkSLICE [0; 1])) = rank two_stored /\
  exists count s',
    list_storage_count_elements_r (rows two_stored) (rank two_stored - 1) = Some count /\
    list_storage_insert (mkSLICE [0; 1]) (VScalar 9%Z) two_stored
      = (Done (VScalar 9%Z), s') /\
    ((exists v, node_chain (rows two_stored) (coords (mkSLICE [0; 1])) v) ->
     list_storage_count_elements_r (rows s') (rank s' - 1) = Some count) /\
    ((forall v, ~ node_chain (rows two_stored) (coords (mkSLICE [0; 1])) v) ->
     list_storage_count_elements_r (rows s') (rank s' - 1) = Some (count + 1)).
Proof.
  split; [reflexivity|]. split; [reflexivity|].
  apply (count_after_insert two_stored (mkSLICE [0; 1]) 9%Z); reflexivity.
Defined.

Lemma count_after_remove_witness :
  wf_storage two_stored = true /\
  length (coords (mkSLICE [2; 2])) = rank two_stored /\
  node_chain (rows two_stored) (coords (mkSLICE [2; 2])) (VScalar 7%Z) /\
  exists count s',
    list_storage_remove (mkSLICE [2; 2]) two_stored = (Done (Some (VScalar 7%Z)), s') /\
    list_storage_count_elements_r (rows s') (rank s' - 1) = Some count /\
    list_storage_count_elements_r (rows two_stored) (rank two_stored - 1)
      = Some (count + 1).
Proof.
  split; [reflexivity|]. split; [reflexivity|].
  split; [exact two_stored_chain_2_2|].
  apply (count_after_remove two_stored (mkSLICE [2; 2]));
    [reflexivity | reflexivity | exact two_stored_chain_2_2].
Defined.

Lemma count_splits_at_diagonal_witness :
  wf_storage two_stored = true /\
  rank two_stored = 2%nat /\
  exists nd total,
    count_list_storage_nd_elements two_stored = (Done nd, two_stored) /\
    list_storage_count_elements_r (rows two_stored) 1 = Some total /\
    total = nd + N.of_nat (length (List.filter (fun ij => fst ij =? snd ij)
                                     (stored_pairs (rows two_stored)))) /\
    nd <= total.
Proof.
  split; [reflexivity|]. split; [reflexivity|].
  apply (count_splits_at_diagonal two_stored); reflexivity.
Defined.

Lemma count_zero_iff_nothing_stored_witness :
  wf_storage none_stored = true /\
  (list_storage_count_elements_r (rows none_stored) (rank none_stored - 1) = Some 0 <->
   (forall c v, length c = rank none_stored -> ~ node_chain (rows none_stored) c v)).
Proof.
  split; [reflexivity|].
  apply (count_zero_iff_nothing_stored none_stored); reflexivity.
Defined.

Lemma eqeq_symmetric_with_empty_side_witness :
  dtype none_stored = dtype two_stored /\
  rank none_stored = rank two_stored /\
  shape none_stored = shape two_stored /\
  int_eqeq (dtype none_stored) (default_val none_stored) (default_val two_stored) =
    int_eqeq (dtype none_stored) (default_val two_stored) (default_val none_stored) /\
  (rows none_stored = [] \/ rows two_stored = []) /\
  list_storage_eqeq int_eqeq none_stored two_stored =
    list_storage_eqeq int_eqeq two_stored none_stored.
Proof.
  split; [reflexivity|]. split; [reflexivity|]. split; [reflexivity|].
  split; [reflexivity|]. split; [left; reflexivity|].
  apply (eqeq_symmetric_with_empty_side int_eqeq none_stored two_stored);
    [reflexivity | reflexivity | reflexivity | reflexivity | left; reflexivity].
Defined.

Lemma eqeq_reflexive_witness :
  wf_storage cube_stored = true /\
  (forall a, int_eqeq (dtype cube_stored) a a = true) /\
  list_storage_eqeq int_eqeq cube_stored cube_stored = Some true.
Proof.
  split; [reflexivity|]. split; [exact (fun a => Z.eqb_refl a)|].
  apply (eqeq_reflexive int_eqeq cube_stored);
    [reflexivity | exact (fun a => Z.eqb_refl a)].
Defined.

Lemma cast_copy_converts_every_lookup_witness :
  wf_storage (erase located_two_stored) = true /\
  length (l_shape located_two_stored) = l_rank located_two_stored /\
  (forall a, In a (blocks located_two_stored) -> a < 12) /\
  exists lhs next',
    list_storage_cast_copy (fun _ _ a => (2 * a)%Z) located_two_stored tt 12
      = Some (lhs, next') /\
    l_dtype lhs = tt /\
    l_rank lhs = l_rank located_two_stored /\
    l_shape lhs = l_shape located_two_stored /\
    (forall a, In a (blocks lhs) -> ~ In a (blocks located_two_stored)) /\
    (forall slice a,
        length (coords slice) = l_rank located_two_stored ->
        fst (list_storage_ref slice (erase located_two_stored)) = Done (VScalar a) ->
        fst (list_storage_ref slice (erase lhs)) = Done (VScalar (2 * a)%Z)).
Proof.
  split; [reflexivity|]. split; [reflexivity|].
  split; [exact located_two_stored_blocks|].
  apply (cast_copy_converts_every_lookup (fun _ _ a => (2 * a)%Z)
           located_two_stored tt 12);
    [reflexivity | reflexivity | exact located_two_stored_blocks].
Defined.

Lemma cast_copy_round_trip_witness :
  wf_storage (erase located_two_stored) = true /\
  length (l_shape located_two_stored) = l_rank located_two_stored /\
  (forall a : Z, (- - a)%Z = a) /\
  exists there next1 back next2,
    list_storage_cast_copy (fun _ _ a => (- a)%Z) located_two_stored tt 12
      = Some (there, next1) /\
    list_storage_cast_copy (fun _ _ a => (- a)%Z) there
      (l_dtype located_two_stored) next1 = Some (back, next2) /\
    erase back = erase located_two_stored.
Proof.
  split; [reflexivity|]. split; [reflexivity|].
  split; [exact Z.opp_involutive|].
  apply (cast_copy_round_trip (fun _ _ a => (- a)%Z) located_two_stored tt 12);
    [reflexivity | reflexivity | exact Z.opp_involutive].
Defined.

Lemma dense_rank_1_reads_back_witness :
  (N.to_nat 0 + N.to_nat 4 <= length [0; 3; 0; 4]%Z)%nat /\
  0 + 4 < 2 ^ 64 /\
  exists added lhs,
    list_storage_cast_copy_contents_dense_template int_neq (fun e : Z => e)
      [0; 3; 0; 4]%Z zero_p [4] 1 0 list_create 0 [0]
    = Some (added, lhs, size_t_decr (0 + 4), [0]) /\
    (added = false <-> lhs = []) /\
    forall (dt : unit) (dflt : Z),
      wf_storage (mkLIST_STORAGE dt 1 [4] lhs dflt) = true /\
      forall j e,
        j < 4 -> [0; 3; 0; 4]%Z !! N.to_nat (0 + j) = Some e ->
        fst (list_storage_ref (mkSLICE [j]) (mkLIST_STORAGE dt 1 [4] lhs dflt)) =
          Done (VScalar (if int_neq e zero_p then e else dflt)).
Proof.
  split; [simpl; lia|]. split; [reflexivity|].
  apply (dense_rank_1_reads_back (dtype_t := unit) int_neq (fun e : Z => e)
           [0; 3; 0; 4]%Z zero_p 4 0 0);
    [simpl; lia | reflexivity].
Defined.

Lemma dense_rank_2_reads_back_witness :
  (N.to_nat 0 + N.to_nat (2 * 2) <= length [1; 0; 0; 2]%Z)%nat /\
  0 + 2 * 2 < 2 ^ 64 /\
  exists added lhs crd,
    list_storage_cast_copy_contents_dense_template int_neq (fun e : Z => e)
      [1; 0; 0; 2]%Z zero_p [2; 2] 2 1 list_create 0 [0; 0]
    = Some (added, lhs, size_t_decr (0 + 2 * 2), crd) /\
    no_empty_branch 1 lhs = true /\
    forall (dt : unit) (dflt : Z),
      wf_storage (mkLIST_STORAGE dt 2 [2; 2] lhs dflt) = true /\
      forall r j e,
        r < 2 -> j < 2 ->
        [1; 0; 0; 2]%Z !! N.to_nat (0 + r * 2 + j) = Some e ->
        fst (list_storage_ref (mkSLICE [r; j]) (mkLIST_STORAGE dt 2 [2; 2] lhs dflt)) =
          Done (VScalar (if int_neq e zero_p then e else dflt)).
Proof.
  split; [simpl; lia|]. split; [reflexivity|].
  apply (dense_rank_2_reads_back (dtype_t := unit) int_neq (fun e : Z => e)
           [1; 0; 0; 2]%Z zero_p 2 2 0 0 0);
    [simpl; lia | reflexivity].
Defined.

Lemma mark_reaches_what_lookups_return_witness :
  wf_storage two_stored = true /\
  dtype two_stored = tt /\
  (In 7%Z (list_storage_mark tt (Some two_stored)) <->
   7%Z = default_val two_stored \/
   exists slice,
     length (coords slice) = rank two_stored /\
     fst (list_storage_ref slice two_stored) = Done (VScalar 7%Z)).
Proof.
  split; [reflexivity|]. split; [reflexivity|].
  apply (mark_reaches_what_lookups_return tt two_stored 7%Z); reflexivity.
Defined.

Lemma insert_makes_no_empty_branch_witness :
  wf_storage two_stored = true /\
  length (coords (mkSLICE [1; 1])) = rank two_stored /\
  no_empty_branch (rank two_stored - 1) (rows two_stored) = true /\
  exists s',
    list_storage_insert (mkSLICE [1; 1]) (VScalar 9%Z) two_stored
      = (Done (VScalar 9%Z), s') /\
    rows s' <> [] /\
    no_empty_branch (rank s' - 1) (rows s') = true.
Proof.
  split; [reflexivity|]. split; [reflexivity|]. split; [reflexivity|].
  apply (insert_makes_no_empty_branch two_stored (mkSLICE [1; 1]) 9%Z); reflexivity.
Defined.
